(** * Effective sample size and Gelman-Rubin variance estimate (rwmh.py)

    A shallow embedding of the four numerical functions of
    [assets/posts/ESS/rwmh.py]: [my_ESS], [my_gelman_rubin], [ESS] and
    [gelman_rubin], together with the properties the specification states
    about them.

    Numbers.  The functions are embedded twice.

    - The exact model (the top-level definitions): a numpy [float64] is a
      rational number, or one of the IEEE special values [+inf], [-inf]
      and [nan].  Rounding, overflow and underflow are abstracted away
      and zero carries no sign (a division of a non-zero number by zero
      takes the sign of the numerator).  It is the model of the results
      that are formulas, that describe the control flow, or that are
      stated in exact arithmetic.

    - The binary64 model (module [F64]): the same functions on IEEE
      binary64 numbers, every operation rounded to nearest, the sums
      taken in the order Python's [sum] and numpy's [add.reduce] take
      them.  It is the model in which the code is evaluated on concrete
      inputs, where rounding decides the outcome.

    Python's [int(.)] of a float truncates toward zero, raises
    [OverflowError] on an infinity and [ValueError] on [nan]. *)

From Stdlib Require Import QArith Qcanon Qround ZArith Lia Lqa.
From Stdlib Require Floats Uint63.
From stdpp Require Import base numbers list.

(** ** Floating-point values in exact arithmetic *)

Inductive npfloat : Type :=
  | Fin (q : Qc)
  | PInf
  | NInf
  | NaN.

Global Instance npfloat_eq_dec : EqDecision npfloat.
Proof. solve_decision. Defined.

Global Instance npfloat_inhabited : Inhabited npfloat := populate NaN.

Definition of_Z (z : Z) : npfloat := Fin (Qc_of_Z z).
Definition of_nat (n : nat) : npfloat := of_Z (Z.of_nat n).

Definition fneg (a : npfloat) : npfloat :=
  match a with
  | Fin q => Fin (- q)%Qc
  | PInf => NInf
  | NInf => PInf
  | NaN => NaN
  end.

Definition fadd (a b : npfloat) : npfloat :=
  match a, b with
  | NaN, _ | _, NaN => NaN
  | Fin p, Fin q => Fin (p + q)%Qc
  | PInf, NInf | NInf, PInf => NaN
  | PInf, _ | _, PInf => PInf
  | NInf, _ | _, NInf => NInf
  end.

Definition fsub (a b : npfloat) : npfloat := fadd a (fneg b).

(** The infinity whose sign is that of the comparison [c] of a rational
    with zero ([Eq] gives [nan]: it is used for [0 * inf] and [0 / 0]). *)
Definition signed_inf (c : comparison) : npfloat :=
  match c with
  | Gt => PInf
  | Lt => NInf
  | Eq => NaN
  end.

Definition fmul (a b : npfloat) : npfloat :=
  match a, b with
  | NaN, _ | _, NaN => NaN
  | Fin p, Fin q => Fin (p * q)%Qc
  | Fin p, PInf | PInf, Fin p => signed_inf (p ?= 0)%Qc
  | Fin p, NInf | NInf, Fin p => signed_inf (0 ?= p)%Qc
  | PInf, PInf | NInf, NInf => PInf
  | PInf, NInf | NInf, PInf => NInf
  end.

Definition fdiv (a b : npfloat) : npfloat :=
  match a, b with
  | NaN, _ | _, NaN => NaN
  | Fin p, Fin q =>
      match (q ?= 0)%Qc with
      | Eq => signed_inf (p ?= 0)%Qc
      | _ => Fin (p / q)%Qc
      end
  | Fin _, (PInf | NInf) => Fin 0%Qc
  | PInf, Fin q => match (q ?= 0)%Qc with Lt => NInf | _ => PInf end
  | NInf, Fin q => match (q ?= 0)%Qc with Lt => PInf | _ => NInf end
  | (PInf | NInf), (PInf | NInf) => NaN
  end.

(** [a ** 2] on an array entry. *)
Definition fsq (a : npfloat) : npfloat := fmul a a.

(** [a < b]; every comparison with [nan] is false. *)
Definition flt (a b : npfloat) : bool :=
  match a, b with
  | NaN, _ | _, NaN => false
  | Fin p, Fin q => match (p ?= q)%Qc with Lt => true | _ => false end
  | NInf, (Fin _ | PInf) => true
  | Fin _, PInf => true
  | _, _ => false
  end.

(** ** Python's [int(.)] *)

Inductive result : Type :=
  | Ok (z : Z)
  | OverflowError
  | ValueError.

Global Instance result_eq_dec : EqDecision result.
Proof. solve_decision. Defined.

(** Truncation of a rational toward zero. *)
Definition truncate (q : Qc) : Z := Z.quot (Qnum q) (Zpos (Qden q)).

Definition int (a : npfloat) : result :=
  match a with
  | Fin q => Ok (truncate q)
  | PInf | NInf => OverflowError
  | NaN => ValueError
  end.

(** ** Sums *)

(** [ndarray.sum()] and [np.sum] over a one-dimensional array. *)
Definition np_sum (l : list npfloat) : npfloat := foldr fadd (Fin 0%Qc) l.

(** Python's builtin [sum]: starts from [0] and adds from the left. *)
Definition py_sum (l : list npfloat) : npfloat := foldl fadd (Fin 0%Qc) l.

(** ** Chain matrices *)

(** A two-dimensional array, row by row: one row per chain. *)
Abbreviation matrix := (list (list npfloat)).

(** [x.shape] of a two-dimensional array with at least one row. *)
Definition shape (x : matrix) : nat * nat :=
  (length x, match x with [] => 0 | r :: _ => length r end).

(** [x] is a rectangular array of [m] rows and [n] columns. *)
Definition has_shape (x : matrix) (m n : nat) : Prop :=
  length x = m ∧ Forall (λ r, length r = n) x.

Definition is_finite (a : npfloat) : Prop := ∃ q, a = Fin q.

Definition finite_entries (x : matrix) : Prop := Forall (Forall is_finite) x.

(** [.sum()] over all the entries of a two-dimensional array. *)
Definition mat_sum (a : matrix) : npfloat := np_sum (concat a).

(** [a - b] and [a ** 2], entry by entry, on arrays of equal shape. *)
Definition mat_sub (a b : matrix) : matrix := zip_with (zip_with fsub) a b.
Definition mat_sq (a : matrix) : matrix := map (map fsq) a.

(** [x[j]] and [x[j][i]].  The indices used below are in range for a
    rectangular [x]; out of range an array raises [IndexError], which the
    model does not need and renders as [nan]. *)
Definition row (x : matrix) (j : nat) : list npfloat := x !!! j.
Definition entry (x : matrix) (j i : nat) : npfloat := row x j !!! i.

(** [l[a:b]] for [0 <= a <= b]. *)
Definition slice (a b : nat) (l : list npfloat) : list npfloat :=
  take (b - a) (drop a l).

(** [np.mean] of a one-dimensional array, [np.mean(x, axis=1)] and
    [np.mean(x)]. *)
Definition mean (l : list npfloat) : npfloat :=
  fdiv (np_sum l) (of_nat (length l)).
Definition row_means (x : matrix) : list npfloat := map mean x.
Definition grand_mean (x : matrix) : npfloat := mean (concat x).

(** ** The variance estimate (lines 35-48 and 74-87) *)

(** The between-chain term is computed by the same expression in both
    versions. *)
Definition between_chain (x : matrix) (m_chains : nat) : npfloat :=
  fdiv (np_sum (map (λ mu, fsq (fsub mu (grand_mean x))) (row_means x)))
       (of_Z (Z.of_nat m_chains - 1)).

(** [x - x.mean(axis=1, keepdims=True)]: the column of row means is
    broadcast along each row. *)
Definition centre_rows (x : matrix) : matrix :=
  zip_with (λ r mu, map (λ a, fsub a mu) r) x (row_means x).

Definition my_gelman_rubin (x : matrix) : npfloat :=
  let '(m_chains, n_iters) := shape x in
  let B_over_n := between_chain x m_chains in
  let W := fdiv (mat_sum (mat_sq (centre_rows x)))
                (of_Z (Z.of_nat m_chains * (Z.of_nat n_iters - 1))) in
  let s2 := fadd (fdiv (fmul W (of_Z (Z.of_nat n_iters - 1))) (of_nat n_iters))
                 B_over_n in
  s2.

Definition gelman_rubin (x : matrix) : npfloat :=
  let '(m_chains, n) := shape x in
  let B_over_n := between_chain x m_chains in
  let W := fdiv (mat_sum (imap (λ i xbar, map (λ a, fsq (fsub a xbar)) (row x i))
                               (row_means x)))
                (of_Z (Z.of_nat m_chains * (Z.of_nat n - 1))) in
  let s2 := fadd (fdiv (fmul W (of_Z (Z.of_nat n - 1))) (of_nat n)) B_over_n in
  s2.

(** ** The autocorrelation scan (lines 20-33 and 59-72)

    The two versions run the same loop, on their own [variogram] and
    [post_var]. *)

Record scan_state : Type := ScanState {
  st_t : nat;
  st_rho : list npfloat;
  st_negative_autocorr : bool
}.

Section scan.
Variable variogram : nat → npfloat.
Variable post_var : npfloat.
Variable n_iters : nat.

(** The value stored in [rho[t]]. *)
Definition rho_at (t : nat) : npfloat :=
  fsub (Fin 1%Qc) (fdiv (variogram t) (fmul (Fin 2%Qc) post_var)).

Definition scan_init : scan_state :=
  {| st_t := 1;
     st_rho := replicate n_iters (Fin 1%Qc);
     st_negative_autocorr := false |}.

Definition scan_cond (s : scan_state) : bool :=
  negb (st_negative_autocorr s) && (st_t s <? n_iters).

Definition scan_body (s : scan_state) : scan_state :=
  let t := st_t s in
  let rho := <[t := rho_at t]> (st_rho s) in
  let negative_autocorr :=
    if t mod 2 =? 0
    then flt (py_sum (slice (t - 1) (t + 1) rho)) (Fin 0%Qc)
    else st_negative_autocorr s in
  {| st_t := t + 1; st_rho := rho; st_negative_autocorr := negative_autocorr |}.

(** The [while] loop, run for at most [fuel] iterations. *)
Fixpoint scan_loop (fuel : nat) (s : scan_state) : scan_state :=
  match fuel with
  | 0 => s
  | S fuel' => if scan_cond s then scan_loop fuel' (scan_body s) else s
  end.

(** [n_iters] iterations are enough: see [scan_exits]. *)
Definition scan : scan_state := scan_loop n_iters scan_init.

(** [rho[1:t].sum()] and [1 + 2*rho[1:t].sum()] after the loop. *)
Definition rho_sum (s : scan_state) : npfloat :=
  np_sum (slice 1 (st_t s) (st_rho s)).
Definition denominator (s : scan_state) : npfloat :=
  fadd (Fin 1%Qc) (fmul (Fin 2%Qc) (rho_sum s)).

Definition ess_return (m_chains : nat) (s : scan_state) : result :=
  int (fdiv (of_Z (Z.of_nat m_chains * Z.of_nat n_iters)) (denominator s)).
End scan.

(** The [variogram] lambda of [my_ESS] (line 16), at the lags
    [1 <= t < n_iters] the loop calls it with (beyond [n_iters] the stop
    of the slice [:(n_iters - t)] would be negative). *)
Definition my_variogram (x : matrix) (m_chains n_iters : nat) (t : nat) : npfloat :=
  fdiv (mat_sum (mat_sq (mat_sub (map (drop t) x) (map (take (n_iters - t)) x))))
       (of_Z (Z.of_nat m_chains * (Z.of_nat n_iters - Z.of_nat t))).

(** The [variogram] lambda of [ESS] (lines 54-55), at the lags
    [1 <= t < n_iters] the loop calls it with.  With at least one chain
    and one pair of draws the sums are floats and the division is
    numpy's (at [t = n_iters] Python would divide the integer 0 by the
    integer 0 and raise [ZeroDivisionError]). *)
Definition variogram (x : matrix) (m_chains n_iters : nat) (t : nat) : npfloat :=
  fdiv (py_sum (map (λ j,
          py_sum (map (λ i, fsq (fsub (entry x j i) (entry x j (i - t))))
                      (seq t (n_iters - t))))
          (seq 0 m_chains)))
       (of_Z (Z.of_nat m_chains * (Z.of_nat n_iters - Z.of_nat t))).

Definition my_ESS_scan (x : matrix) : scan_state :=
  let '(m_chains, n_iters) := shape x in
  scan (my_variogram x m_chains n_iters) (my_gelman_rubin x) n_iters.

Definition my_ESS (x : matrix) : result :=
  let '(m_chains, n_iters) := shape x in
  ess_return n_iters m_chains (my_ESS_scan x).

Definition ESS_scan (x : matrix) : scan_state :=
  let '(m_chains, n_iters) := shape x in
  scan (variogram x m_chains n_iters) (gelman_rubin x) n_iters.

Definition ESS (x : matrix) : result :=
  let '(m_chains, n_iters) := shape x in
  ess_return n_iters m_chains (ESS_scan x).


(** [x + c]: the constant is broadcast to every entry. *)
Definition mat_shift (c : npfloat) (x : matrix) : matrix :=
  map (map (λ a, fadd a c)) x.

(** ** The formulas of the specification *)

(** The sum of [f t] over [lo <= t < hi]. *)
Definition big_sum (f : nat → npfloat) (lo hi : nat) : npfloat :=
  np_sum (map f (seq lo (hi - lo))).

(** [mean(x[j,:])] and [mean(x)], written with indices. *)
Definition chain_mean_spec (x : matrix) (n j : nat) : npfloat :=
  fdiv (big_sum (λ i, entry x j i) 0 n) (of_nat n).
Definition grand_mean_spec (x : matrix) (m n : nat) : npfloat :=
  fdiv (big_sum (λ j, big_sum (λ i, entry x j i) 0 n) 0 m) (of_nat (m * n)).

(** [B_over_n = Σ_j (mean(x[j,:]) - mean(x))² / (m - 1)]. *)
Definition B_over_n_spec (x : matrix) (m n : nat) : npfloat :=
  fdiv (big_sum (λ j, fsq (fsub (chain_mean_spec x n j) (grand_mean_spec x m n))) 0 m)
       (of_Z (Z.of_nat m - 1)).

(** [W = Σ_j Σ_i (x[j,i] - mean(x[j,:]))² / (m*(n-1))]. *)
Definition W_spec (x : matrix) (m n : nat) : npfloat :=
  fdiv (big_sum (λ j, big_sum (λ i, fsq (fsub (entry x j i) (chain_mean_spec x n j))) 0 n)
                0 m)
       (of_Z (Z.of_nat m * (Z.of_nat n - 1))).

(** [s2 = W*(n-1)/n + B_over_n]. *)
Definition s2_spec (x : matrix) (m n : nat) : npfloat :=
  fadd (fdiv (fmul (W_spec x m n) (of_Z (Z.of_nat n - 1))) (of_nat n))
       (B_over_n_spec x m n).

(** [m*n / (1 + 2 * Σ rho[1:t_stop])], before the cast to an integer. *)
Definition ess_quotient_spec (m n : nat) (rho : nat → npfloat) (t_stop : nat) : npfloat :=
  fdiv (of_Z (Z.of_nat m * Z.of_nat n))
       (fadd (Fin 1%Qc) (fmul (Fin 2%Qc) (big_sum rho 1 t_stop))).

(** The stop condition at lag [t], on autocorrelation estimates [rho]:
    [t % 2 == 0] and [rho[t-1] + rho[t] < 0]. *)
Definition pair_negative (rho : nat → npfloat) (t : nat) : bool :=
  flt (fadd (rho (t - 1)) (rho t)) (Fin 0%Qc).
Definition fires (rho : nat → npfloat) (t : nat) : bool :=
  (t mod 2 =? 0) && pair_negative rho t.

(** The array [rho] once the lags below [t] have been computed: entry 0
    and the entries from [t] on still hold the initial [1]. *)
Definition rho_prefix (rho : nat → npfloat) (n_iters t : nat) : list npfloat :=
  map (λ i, if (1 <=? i) && (i <? t) then rho i else Fin 1%Qc) (seq 0 n_iters).

(** The loop invariant of the scan: the lags below [t] are computed, none
    of them fired except possibly the last one, and the flag records
    whether the last one did. *)
Record scan_inv (rho : nat → npfloat) (n_iters : nat) (s : scan_state) : Prop := {
  inv_pos : 1 ≤ st_t s;
  inv_le : st_t s ≤ Nat.max 1 n_iters;
  inv_rho : st_rho s = rho_prefix rho n_iters (st_t s);
  inv_quiet : ∀ i, 1 ≤ i → i + 1 < st_t s → fires rho i = false;
  inv_flag :
    st_negative_autocorr s
    = if st_t s =? 1 then false else fires rho (st_t s - 1)
}.

(** What the specification says of a finished scan over [n_iters] draws,
    for autocorrelation estimates [rho]: the loop has stopped; every lag
    below the final [t] was computed; when the flag is set the scan
    stopped just after the first even lag whose pair sum is negative; when
    it is not, no even lag had a negative pair sum and all the lags
    [1 .. n_iters-1] were computed. *)
Definition scan_outcome (rho : nat → npfloat) (n_iters : nat) (s : scan_state) : Prop :=
  scan_cond n_iters s = false
  ∧ (∀ t, 1 ≤ t < st_t s → st_rho s !! t = Some (rho t))
  ∧ (st_negative_autocorr s = true →
     ∃ tf, st_t s = tf + 1 ∧ 1 ≤ tf < n_iters
           ∧ tf mod 2 = 0 ∧ pair_negative rho tf = true
           ∧ ∀ t, 1 ≤ t < tf → ¬ (t mod 2 = 0 ∧ pair_negative rho t = true))
  ∧ (st_negative_autocorr s = false →
     st_t s = n_iters
     ∧ ∀ t, 1 ≤ t < n_iters → ¬ (t mod 2 = 0 ∧ pair_negative rho t = true)).

(** ** Concrete chain matrices *)

Definition of_rationals (x : list (list Q)) : matrix :=
  map (map (λ q, Fin (Q2Qc q))) x.

(** Two chains of two draws, both [0, 1]. *)
Definition x_neg : matrix := of_rationals [[0; 1]; [0; 1]]%Q.
(** Two chains of two draws, the second shifted by a half. *)
Definition x_big : matrix := of_rationals [[0; 1]; [1 # 2; 3 # 2]]%Q.
(** A constant matrix. *)
Definition x_const : matrix := of_rationals [[1; 1]; [1; 1]]%Q.
(** Two alternating chains of five draws. *)
Definition x_alt : matrix := of_rationals [[0; 1; 0; 1; 0]; [0; 1; 0; 1; 0]]%Q.
(** Two chains of four draws on which the stop condition never fires. *)
Definition x_run : matrix := of_rationals [[0; 1; 2; 4]; [1; 0; 1; 0]]%Q.

(** ** The stopping lag of the specification *)

(** The first lag in [1 .. n_iters-1] at which the stop condition holds,
    and the value of [t] the loop then ends with: the loop still runs
    [t += 1] after the condition has fired, and it ends with [t = n_iters]
    when the condition never fires. *)
Definition first_stop_lag (rho : nat → npfloat) (n_iters : nat) : option nat :=
  List.find (fires rho) (seq 1 (n_iters - 1)).
Definition t_stop_spec (rho : nat → npfloat) (n_iters : nat) : nat :=
  match first_stop_lag rho n_iters with
  | Some tf => tf + 1
  | None => n_iters
  end.

(** ** Matrices of integers

    Small integers are binary64 numbers, and on the matrices below every
    intermediate value of the four functions is one too, so that the exact
    model and the binary64 model compute the same. *)

Definition of_ints (x : list (list Z)) : matrix := map (map of_Z) x.

(** Two chains of four draws on which the stop condition fires at lag 2,
    before the last lag. *)
Definition stop_ints : list (list Z) := [[-3; -4; 3; -2]; [-3; 4; -3; -2]]%Z.
Definition x_stop : matrix := of_ints stop_ints.
(** Four chains of two draws whose final denominator is 1/8. *)
Definition over_ints : list (list Z) := [[2; 4]; [3; 0]; [1; 4]; [2; 1]]%Z.
Definition x_over : matrix := of_ints over_ints.
(** Two chains of four draws whose final denominator is 2. *)
Definition under_ints : list (list Z) := [[-1; -2; 0; -1]; [-1; -2; -1; -2]]%Z.
Definition x_under : matrix := of_ints under_ints.
(** Two alternating chains of five draws, and two chains of three draws
    whose final denominator is exactly zero. *)
Definition alt_ints : list (list Z) := [[0; 1; 0; 1; 0]; [0; 1; 0; 1; 0]]%Z.
Definition cancel_ints : list (list Z) := [[2; -2; 4]; [2; 1; 0]]%Z.

(** ** The binary64 model

    The same four functions on IEEE binary64 numbers (Rocq's primitive
    floats: every operation is rounded to nearest, ties to even).  What
    the model takes from numpy and Python rather than from [rwmh.py]:

    - [ndarray.sum()], [np.sum] and the sum inside [np.mean] reduce a
      contiguous array with [add.reduce]: the result starts at [0.0] and
      receives the pairwise sum of the elements, which adds fewer than 8
      elements from left to right, up to 128 elements with 8 running
      accumulators, and longer arrays by halves;
    - Python's builtin [sum] starts from the integer 0 and adds from the
      left;
    - [a ** 2] is the rounded product [a * a];
    - a Python integer used with a float is converted to the float of the
      same value (exact below 2^53). *)

Module F64.

Abbreviation f64 := PrimFloat.float.

Global Instance f64_inhabited : Inhabited f64 := populate PrimFloat.nan.

Definition of_int (z : Z) : f64 :=
  match z with
  | Z0 => PrimFloat.zero
  | Zpos _ => PrimFloat.of_uint63 (Uint63.of_Z z)
  | Zneg p => PrimFloat.opp (PrimFloat.of_uint63 (Uint63.of_Z (Zpos p)))
  end.

Definition fadd : f64 → f64 → f64 := PrimFloat.add.
Definition fsub : f64 → f64 → f64 := PrimFloat.sub.
Definition fmul : f64 → f64 → f64 := PrimFloat.mul.
Definition fdiv : f64 → f64 → f64 := PrimFloat.div.
Definition fsq (a : f64) : f64 := fmul a a.
Definition flt : f64 → f64 → bool := PrimFloat.ltb.

(** Python's [int(.)]: the value [m * 2^e] of a finite float, truncated
    toward zero. *)
Definition int (a : f64) : result :=
  match FloatOps.Prim2SF a with
  | SpecFloat.S754_nan => ValueError
  | SpecFloat.S754_infinity _ => OverflowError
  | SpecFloat.S754_zero _ => Ok 0
  | SpecFloat.S754_finite s m e =>
      let v := if (0 <=? e)%Z then (Zpos m * 2 ^ e)%Z
               else Z.quot (Zpos m) (2 ^ (- e)) in
      Ok (if s then (- v)%Z else v)
  end.

(** Python's builtin [sum]. *)
Definition py_sum (l : list f64) : f64 := foldl fadd (of_int 0) l.

(** numpy's pairwise sum.  [tree8] adds the 8 accumulators,
    [unrolled_sum] is the case of 8 to 128 elements. *)
Definition tree8 (r : list f64) : f64 :=
  match r with
  | [r0; r1; r2; r3; r4; r5; r6; r7] =>
      fadd (fadd (fadd r0 r1) (fadd r2 r3)) (fadd (fadd r4 r5) (fadd r6 r7))
  | _ => of_int 0
  end.

Definition unrolled_sum (a : list f64) : f64 :=
  let blocks := length a / 8 in
  let r := foldl (λ r i, zip_with fadd r (take 8 (drop (8 * i) a)))
                 (take 8 a) (seq 1 (blocks - 1)) in
  foldl fadd (tree8 r) (drop (8 * blocks) a).

Fixpoint pairwise_sum (fuel : nat) (a : list f64) : f64 :=
  let n := length a in
  if n <? 8 then foldl fadd (of_int 0) a
  else if n <=? 128 then unrolled_sum a
  else match fuel with
       | 0 => of_int 0
       | S fuel' =>
           let n2 := n / 2 - (n / 2) mod 8 in
           fadd (pairwise_sum fuel' (take n2 a)) (pairwise_sum fuel' (drop n2 a))
       end.

(** [ndarray.sum()] over a contiguous array, given as the list of its
    elements in memory order.  The halves of a long array are shorter
    than it, so [length l] is fuel enough. *)
Definition np_sum (l : list f64) : f64 :=
  fadd (of_int 0) (pairwise_sum (length l) l).

Definition mean (l : list f64) : f64 :=
  fdiv (np_sum l) (of_int (Z.of_nat (length l))).
Definition row_means (x : list (list f64)) : list f64 := map mean x.
Definition grand_mean (x : list (list f64)) : f64 := mean (concat x).
Definition mat_sum (a : list (list f64)) : f64 := np_sum (concat a).
Definition mat_sub (a b : list (list f64)) : list (list f64) :=
  zip_with (zip_with fsub) a b.
Definition mat_sq (a : list (list f64)) : list (list f64) := map (map fsq) a.
Definition shape (x : list (list f64)) : nat * nat :=
  (length x, match x with [] => 0 | r :: _ => length r end).
Definition row (x : list (list f64)) (j : nat) : list f64 := x !!! j.
Definition entry (x : list (list f64)) (j i : nat) : f64 := row x j !!! i.
Definition slice (a b : nat) (l : list f64) : list f64 := take (b - a) (drop a l).

Definition between_chain (x : list (list f64)) (m_chains : nat) : f64 :=
  fdiv (np_sum (map (λ mu, fsq (fsub mu (grand_mean x))) (row_means x)))
       (of_int (Z.of_nat m_chains - 1)).

Definition centre_rows (x : list (list f64)) : list (list f64) :=
  zip_with (λ r mu, map (λ a, fsub a mu) r) x (row_means x).

Definition my_gelman_rubin (x : list (list f64)) : f64 :=
  let '(m_chains, n_iters) := shape x in
  let B_over_n := between_chain x m_chains in
  let W := fdiv (mat_sum (mat_sq (centre_rows x)))
                (of_int (Z.of_nat m_chains * (Z.of_nat n_iters - 1))) in
  let s2 := fadd (fdiv (fmul W (of_int (Z.of_nat n_iters - 1)))
                       (of_int (Z.of_nat n_iters)))
                 B_over_n in
  s2.

Definition gelman_rubin (x : list (list f64)) : f64 :=
  let '(m_chains, n) := shape x in
  let B_over_n := between_chain x m_chains in
  let W := fdiv (mat_sum (imap (λ i xbar, map (λ a, fsq (fsub a xbar)) (row x i))
                               (row_means x)))
                (of_int (Z.of_nat m_chains * (Z.of_nat n - 1))) in
  let s2 := fadd (fdiv (fmul W (of_int (Z.of_nat n - 1))) (of_int (Z.of_nat n)))
                 B_over_n in
  s2.

Record scan_state : Type := ScanState {
  st_t : nat;
  st_rho : list f64;
  st_negative_autocorr : bool
}.

Section scan.
Variable variogram : nat → f64.
Variable post_var : f64.
Variable n_iters : nat.

Definition rho_at (t : nat) : f64 :=
  fsub (of_int 1) (fdiv (variogram t) (fmul (of_int 2) post_var)).

Definition scan_init : scan_state :=
  {| st_t := 1;
     st_rho := replicate n_iters (of_int 1);
     st_negative_autocorr := false |}.

Definition scan_cond (s : scan_state) : bool :=
  negb (st_negative_autocorr s) && (st_t s <? n_iters).

Definition scan_body (s : scan_state) : scan_state :=
  let t := st_t s in
  let rho := <[t := rho_at t]> (st_rho s) in
  let negative_autocorr :=
    if t mod 2 =? 0
    then flt (py_sum (slice (t - 1) (t + 1) rho)) (of_int 0)
    else st_negative_autocorr s in
  {| st_t := t + 1; st_rho := rho; st_negative_autocorr := negative_autocorr |}.

Fixpoint scan_loop (fuel : nat) (s : scan_state) : scan_state :=
  match fuel with
  | 0 => s
  | S fuel' => if scan_cond s then scan_loop fuel' (scan_body s) else s
  end.

(** Each iteration adds 1 to [t], which starts at 1: [n_iters] iterations
    are enough. *)
Definition scan : scan_state := scan_loop n_iters scan_init.

Definition rho_sum (s : scan_state) : f64 :=
  np_sum (slice 1 (st_t s) (st_rho s)).
Definition denominator (s : scan_state) : f64 :=
  fadd (of_int 1) (fmul (of_int 2) (rho_sum s)).

Definition ess_return (m_chains : nat) (s : scan_state) : result :=
  int (fdiv (of_int (Z.of_nat m_chains * Z.of_nat n_iters)) (denominator s)).
End scan.

Definition my_variogram (x : list (list f64)) (m_chains n_iters t : nat) : f64 :=
  fdiv (mat_sum (mat_sq (mat_sub (map (drop t) x) (map (take (n_iters - t)) x))))
       (of_int (Z.of_nat m_chains * (Z.of_nat n_iters - Z.of_nat t))).

Definition variogram (x : list (list f64)) (m_chains n_iters t : nat) : f64 :=
  fdiv (py_sum (map (λ j,
          py_sum (map (λ i, fsq (fsub (entry x j i) (entry x j (i - t))))
                      (seq t (n_iters - t))))
          (seq 0 m_chains)))
       (of_int (Z.of_nat m_chains * (Z.of_nat n_iters - Z.of_nat t))).

Definition my_ESS_scan (x : list (list f64)) : scan_state :=
  let '(m_chains, n_iters) := shape x in
  scan (my_variogram x m_chains n_iters) (my_gelman_rubin x) n_iters.

Definition my_ESS (x : list (list f64)) : result :=
  let '(m_chains, n_iters) := shape x in
  ess_return n_iters m_chains (my_ESS_scan x).

Definition ESS_scan (x : list (list f64)) : scan_state :=
  let '(m_chains, n_iters) := shape x in
  scan (variogram x m_chains n_iters) (gelman_rubin x) n_iters.

Definition ESS (x : list (list f64)) : result :=
  let '(m_chains, n_iters) := shape x in
  ess_return n_iters m_chains (ESS_scan x).

(** A matrix of integers, and [k * x] for a float [k] and such a matrix. *)
Definition of_ints (x : list (list Z)) : list (list f64) := map (map of_int) x.
Definition scaled (k : f64) (x : list (list Z)) : list (list f64) :=
  map (map (λ z, fmul k (of_int z))) x.

(** [x] has [m] rows of [n] finite entries. *)
Definition valid (x : list (list f64)) (m n : nat) : Prop :=
  length x = m
  ∧ Forall (λ r, length r = n ∧ Forall (λ a, PrimFloat.is_finite a = true) r) x.

(** The float [3.1], and three chains of four draws, [3.1 * k] for small
    integers [k]. *)
Definition three_point_one : f64 := fdiv (of_int 31) (of_int 10).
Definition x_rounding : list (list f64) :=
  scaled three_point_one [[1; 2; 1; 4]; [3; 1; 1; -3]; [4; -3; -2; 1]]%Z.

End F64.

(** ** Further notions used by the edge-case and invariance results *)

(** A finite, non-negative value. *)
Definition nonneg (a : npfloat) : Prop := ∃ q, a = Fin q ∧ (0 ≤ q)%Qc.

(** Every entry of [x] is the same finite number [a]: chains that never
    moved and all started at the same point. *)
Definition constant_matrix (a : Qc) (x : matrix) : Prop :=
  Forall (Forall (λ b, b = Fin a)) x.

(** [k * x]: the constant is broadcast to every entry. *)
Definition mat_scale (k : npfloat) (x : matrix) : matrix :=
  map (map (λ a, fmul k a)) x.

(** [x[:, ::-1]]: every chain read backwards. *)
Definition mat_reverse (x : matrix) : matrix := map reverse x.

(** Some entry of [x] is an infinity or [nan]. *)
Definition has_nonfinite_entry (x : matrix) : Prop :=
  Exists (Exists (λ a, ¬ is_finite a)) x.

(** Two chains of three draws, one of them infinite. *)
Definition x_inf : matrix :=
  [[Fin 0%Qc; PInf; Fin 1%Qc]; [Fin 1%Qc; Fin 0%Qc; Fin 2%Qc]].

(** Three chains of two draws whose final denominator is exactly zero. *)
Definition x_zero_den : matrix := of_rationals [[-2; 2]; [-1; 3]; [-2; 0]]%Q.
(** A single chain of three draws. *)
Definition x_one_chain : matrix := of_rationals [[0; 1; 3]]%Q.
(** Three chains of a single draw. *)
Definition x_one_draw : matrix := of_rationals [[0]; [1]; [3]]%Q.

(** ** Arithmetic of the float model *)

Lemma fadd_comm (a b : npfloat) : fadd a b = fadd b a.
Proof. destruct a, b; simpl; try reflexivity. f_equal. ring. Qed.

Lemma fadd_assoc (a b c : npfloat) : fadd a (fadd b c) = fadd (fadd a b) c.
Proof. destruct a, b, c; simpl; try reflexivity. f_equal. ring. Qed.

Lemma fadd_0_l (a : npfloat) : fadd (Fin 0%Qc) a = a.
Proof. destruct a; simpl; try reflexivity. f_equal. ring. Qed.

Lemma fadd_0_r (a : npfloat) : fadd a (Fin 0%Qc) = a.
Proof. rewrite fadd_comm. apply fadd_0_l. Qed.

Lemma foldl_fadd (l : list npfloat) (a : npfloat) :
  foldl fadd a l = fadd a (np_sum l).
Proof.
  revert a. induction l as [|b l IH]; intros a; simpl.
  - symmetry. apply fadd_0_r.
  - rewrite IH. symmetry. apply fadd_assoc.
Qed.

(** Python's [sum] and numpy's agree in exact arithmetic. *)
Lemma py_sum_np_sum (l : list npfloat) : py_sum l = np_sum l.
Proof. unfold py_sum. rewrite foldl_fadd. apply fadd_0_l. Qed.

Lemma np_sum_app (l k : list npfloat) :
  np_sum (l ++ k) = fadd (np_sum l) (np_sum k).
Proof.
  induction l as [|a l IH]; simpl.
  - symmetry. apply fadd_0_l.
  - fold (np_sum (l ++ k)). rewrite IH. apply fadd_assoc.
Qed.

Lemma mat_sum_rows (a : matrix) : mat_sum a = np_sum (map np_sum a).
Proof.
  unfold mat_sum. induction a as [|r a IH]; simpl; [reflexivity|].
  rewrite np_sum_app. fold (np_sum (map np_sum a)). by rewrite IH.
Qed.

(** ** Indexing *)

Lemma map_lookup_total_seq {B : Type} (f : npfloat → B) (l : list npfloat) :
  map (λ i, f (l !!! i)) (seq 0 (length l)) = map f l.
Proof.
  apply list_eq. intros i. rewrite !list_lookup_fmap.
  destruct (decide (i < length l)) as [Hi|Hi].
  - rewrite lookup_seq_lt by done. simpl.
    destruct (lookup_lt_is_Some_2 l i Hi) as [a Ha].
    rewrite Ha. simpl. f_equal. f_equal. by apply list_lookup_total_correct.
  - rewrite lookup_seq_ge by lia. rewrite lookup_ge_None_2 by lia. done.
Qed.

Lemma map_row_seq {B : Type} (f : list npfloat → B) (x : matrix) :
  map (λ j, f (row x j)) (seq 0 (length x)) = map f x.
Proof.
  apply list_eq. intros i. rewrite !list_lookup_fmap.
  destruct (decide (i < length x)) as [Hi|Hi].
  - rewrite lookup_seq_lt by done. simpl.
    destruct (lookup_lt_is_Some_2 x i Hi) as [a Ha].
    rewrite Ha. simpl. f_equal. f_equal. by apply list_lookup_total_correct.
  - rewrite lookup_seq_ge by lia. rewrite lookup_ge_None_2 by lia. done.
Qed.

Lemma shape_has_shape (x : matrix) (m n : nat) :
  has_shape x m n → 1 ≤ m → shape x = (m, n).
Proof.
  intros [Hm Hn] H1. unfold shape. destruct x as [|r x]; simpl in *; [lia|].
  f_equal; [done|]. by inversion Hn.
Qed.

(** ** The two variance estimates *)

Lemma within_chain_agree (x : matrix) :
  mat_sq (centre_rows x)
  = imap (λ i xbar, map (λ a, fsq (fsub a xbar)) (row x i)) (row_means x).
Proof.
  apply list_eq. intros i. unfold mat_sq, centre_rows, row_means, row.
  rewrite list_lookup_fmap, lookup_zip_with, list_lookup_imap, list_lookup_fmap.
  destruct (x !! i) as [r|] eqn:Hr; simpl; [|done].
  rewrite (list_lookup_total_correct _ _ _ Hr).
  f_equal. rewrite <- list_fmap_compose. done.
Qed.

Lemma gelman_rubin_agree (x : matrix) : my_gelman_rubin x = gelman_rubin x.
Proof.
  unfold my_gelman_rubin, gelman_rubin.
  destruct (shape x) as [m n]. by rewrite within_chain_agree.
Qed.

Lemma big_sum_ext (f g : nat → npfloat) (lo hi : nat) :
  (∀ i, lo ≤ i < hi → f i = g i) → big_sum f lo hi = big_sum g lo hi.
Proof.
  intros H. unfold big_sum. f_equal. apply list_eq. intros i.
  rewrite !list_lookup_fmap.
  destruct (decide (i < hi - lo)) as [Hi|Hi].
  - rewrite lookup_seq_lt by done. simpl. f_equal. apply H. lia.
  - by rewrite lookup_seq_ge by lia.
Qed.

Lemma big_sum_entries (x : matrix) (n j : nat) (f : npfloat → npfloat) :
  length (row x j) = n →
  big_sum (λ i, f (entry x j i)) 0 n = np_sum (map f (row x j)).
Proof.
  intros <-. unfold big_sum, entry. rewrite Nat.sub_0_r.
  by rewrite map_lookup_total_seq.
Qed.

Lemma big_sum_rows (x : matrix) (f : list npfloat → npfloat) :
  big_sum (λ j, f (row x j)) 0 (length x) = np_sum (map f x).
Proof. unfold big_sum. rewrite Nat.sub_0_r. by rewrite map_row_seq. Qed.

Lemma row_length (x : matrix) (m n j : nat) :
  has_shape x m n → j < m → length (row x j) = n.
Proof.
  intros [Hm Hn] Hj. unfold row.
  destruct (lookup_lt_is_Some_2 x j ltac:(lia)) as [r Hr].
  rewrite (list_lookup_total_correct _ _ _ Hr).
  by apply (Forall_lookup_1 _ _ _ _ Hn Hr).
Qed.

Lemma concat_length_shape (x : matrix) (m n : nat) :
  has_shape x m n → length (concat x) = m * n.
Proof.
  intros [<- Hn]. induction Hn as [|r x Hr _ IH]; simpl; [done|].
  rewrite length_app. lia.
Qed.

Lemma chain_mean_spec_row (x : matrix) (m n j : nat) :
  has_shape x m n → j < m → chain_mean_spec x n j = mean (row x j).
Proof.
  intros Hs Hj. unfold chain_mean_spec, mean.
  pose proof (row_length x m n j Hs Hj) as Hl.
  rewrite (big_sum_entries x n j (λ a, a)) by done.
  by rewrite list_fmap_id, Hl.
Qed.

Lemma grand_mean_spec_eq (x : matrix) (m n : nat) :
  has_shape x m n → grand_mean_spec x m n = grand_mean x.
Proof.
  intros Hs. unfold grand_mean_spec, grand_mean, mean.
  rewrite (concat_length_shape x m n Hs). f_equal.
  fold (mat_sum x). rewrite mat_sum_rows.
  destruct Hs as [Hm Hn]. subst m.
  rewrite <- (big_sum_rows x np_sum).
  apply big_sum_ext. intros j Hj.
  rewrite (big_sum_entries x n j (λ a, a)).
  - by rewrite list_fmap_id.
  - apply (row_length x (length x) n); [done|lia].
Qed.

Lemma centre_rows_map (x : matrix) :
  centre_rows x = map (λ r, map (λ a, fsub a (mean r)) r) x.
Proof.
  unfold centre_rows, row_means. rewrite zip_with_fmap_r. apply zip_with_diag.
Qed.

Lemma W_spec_eq (x : matrix) (m n : nat) :
  has_shape x m n →
  W_spec x m n
  = fdiv (mat_sum (mat_sq (centre_rows x)))
         (of_Z (Z.of_nat m * (Z.of_nat n - 1))).
Proof.
  intros Hs. unfold W_spec. f_equal.
  rewrite mat_sum_rows, centre_rows_map. unfold mat_sq.
  rewrite !map_map.
  pose proof Hs as [Hl _].
  rewrite <- Hl at 1.
  rewrite <- (big_sum_rows x (λ r, np_sum (map fsq (map (λ a, fsub a (mean r)) r)))).
  apply big_sum_ext. intros j Hj. rewrite map_map.
  rewrite (chain_mean_spec_row x m n j) by (done || lia).
  rewrite (big_sum_entries x n j (λ a, fsq (fsub a (mean (row x j))))).
  - done.
  - apply (row_length x m n); [done|lia].
Qed.

Lemma B_over_n_spec_eq (x : matrix) (m n : nat) :
  has_shape x m n → B_over_n_spec x m n = between_chain x m.
Proof.
  intros Hs. unfold B_over_n_spec, between_chain, row_means. f_equal.
  rewrite map_map.
  pose proof Hs as [Hl _].
  rewrite <- Hl at 1.
  rewrite <- (big_sum_rows x (λ r, fsq (fsub (mean r) (grand_mean x)))).
  apply big_sum_ext. intros j Hj.
  rewrite (chain_mean_spec_row x m n j) by (done || lia).
  by rewrite (grand_mean_spec_eq x m n).
Qed.

Lemma gelman_rubin_s2_spec (x : matrix) (m n : nat) :
  has_shape x m n → 1 ≤ m → gelman_rubin x = s2_spec x m n.
Proof.
  intros Hs Hm. rewrite <- gelman_rubin_agree.
  unfold my_gelman_rubin. rewrite (shape_has_shape x m n Hs Hm).
  unfold s2_spec.
  by rewrite (W_spec_eq x m n Hs), (B_over_n_spec_eq x m n Hs).
Qed.

(** ** The two variograms *)

(** Along one chain, the vectorised difference of the two column slices
    lists the same lagged differences as the indexed loop. *)
Lemma row_lag_diffs (r : list npfloat) (n t : nat) :
  length r = n → t ≤ n →
  zip_with fsub (drop t r) (take (n - t) r)
  = map (λ i, fsub (r !!! i) (r !!! (i - t))) (seq t (n - t)).
Proof.
  intros Hl Ht. apply list_eq. intros i.
  rewrite lookup_zip_with, lookup_drop, list_lookup_fmap.
  destruct (decide (i < n - t)) as [Hi|Hi].
  - rewrite lookup_take_lt, lookup_seq_lt by done. simpl.
    destruct (lookup_lt_is_Some_2 r (t + i) ltac:(lia)) as [a Ha].
    destruct (lookup_lt_is_Some_2 r i ltac:(lia)) as [b Hb].
    rewrite Ha, Hb. simpl.
    rewrite (list_lookup_total_correct _ _ _ Ha).
    replace (t + i - t) with i by lia.
    by rewrite (list_lookup_total_correct _ _ _ Hb).
  - rewrite lookup_take_ge, lookup_seq_ge by lia. simpl.
    by destruct (r !! (t + i)).
Qed.

Lemma mat_sub_lagged (x : matrix) (k t : nat) :
  mat_sub (map (drop t) x) (map (take k) x)
  = map (λ r, zip_with fsub (drop t r) (take k r)) x.
Proof.
  unfold mat_sub. rewrite zip_with_fmap_l, zip_with_fmap_r. apply zip_with_diag.
Qed.

Lemma variogram_agree (x : matrix) (m n t : nat) :
  has_shape x m n → t ≤ n →
  my_variogram x m n t = variogram x m n t.
Proof.
  intros [Hm Hn] Ht. unfold my_variogram, variogram. f_equal.
  rewrite mat_sum_rows, mat_sub_lagged, py_sum_np_sum. unfold mat_sq.
  rewrite !map_map. subst m. unfold entry.
  rewrite (map_row_seq
    (λ r, py_sum (map (λ i, fsq (fsub (r !!! i) (r !!! (i - t)))) (seq t (n - t)))) x).
  f_equal. apply Forall_fmap_ext. eapply Forall_impl; [exact Hn|].
  intros r Hr. simpl. rewrite py_sum_np_sum, (row_lag_diffs r n t Hr Ht).
  by rewrite map_map.
Qed.

(** ** The array [rho] during the scan *)

Section rho_prefix.
Variable rho : nat → npfloat.
Variable n : nat.

Lemma rho_prefix_length (t : nat) : length (rho_prefix rho n t) = n.
Proof. unfold rho_prefix. by rewrite length_map, length_seq. Qed.

Lemma rho_prefix_lookup (t i : nat) :
  i < n →
  rho_prefix rho n t !! i = Some (if (1 <=? i) && (i <? t) then rho i else Fin 1%Qc).
Proof.
  intros Hi. unfold rho_prefix. rewrite list_lookup_fmap, lookup_seq_lt by done.
  done.
Qed.

Lemma rho_prefix_lookup_computed (t i : nat) :
  1 ≤ i → i < t → i < n → rho_prefix rho n t !! i = Some (rho i).
Proof.
  intros H1 H2 H3. rewrite rho_prefix_lookup by done.
  destruct (Nat.leb_spec 1 i); [|lia]. destruct (Nat.ltb_spec i t); [|lia]. done.
Qed.

Lemma rho_prefix_init : replicate n (Fin 1%Qc) = rho_prefix rho n 1.
Proof.
  apply list_eq. intros i. destruct (decide (i < n)) as [Hi|Hi].
  - rewrite lookup_replicate_2, rho_prefix_lookup by done.
    destruct (Nat.leb_spec 1 i), (Nat.ltb_spec i 1); simpl; try done. lia.
  - rewrite !lookup_ge_None_2; [done| |].
    + rewrite rho_prefix_length. lia.
    + rewrite length_replicate. lia.
Qed.

Lemma rho_prefix_insert (t : nat) :
  1 ≤ t → t < n → <[t := rho t]> (rho_prefix rho n t) = rho_prefix rho n (t + 1).
Proof.
  intros H1 Hn. apply list_eq. intros i.
  destruct (decide (i < n)) as [Hi|Hi].
  - rewrite (rho_prefix_lookup (t + 1)) by done.
    destruct (decide (t = i)) as [->|Hne].
    + rewrite list_lookup_insert_eq by (rewrite rho_prefix_length; lia).
      destruct (Nat.leb_spec 1 i), (Nat.ltb_spec i (i + 1)); simpl; try done; lia.
    + rewrite list_lookup_insert_ne, rho_prefix_lookup by done.
      destruct (Nat.leb_spec 1 i), (Nat.ltb_spec i t), (Nat.ltb_spec i (t + 1));
        simpl; try done; lia.
  - rewrite !lookup_ge_None_2; [done| |].
    + rewrite rho_prefix_length. lia.
    + rewrite length_insert, rho_prefix_length. lia.
Qed.

(** [rho[t-1:t+1]] just after [rho[t]] was stored, at a lag [t >= 2]. *)
Lemma slice_pair (t : nat) :
  2 ≤ t → t < n →
  slice (t - 1) (t + 1) (rho_prefix rho n (t + 1)) = [rho (t - 1); rho t].
Proof.
  intros H2 Hn. unfold slice. replace (t + 1 - (t - 1)) with 2 by lia.
  apply list_eq. intros i.
  destruct (decide (i < 2)) as [Hi|Hi].
  - rewrite lookup_take_lt, lookup_drop by done.
    rewrite rho_prefix_lookup_computed by lia.
    destruct i as [|[|i]]; simpl; [| |lia].
    + by rewrite Nat.add_0_r.
    + by replace (t - 1 + 1) with t by lia.
  - rewrite lookup_take_ge by lia. destruct i as [|[|i]]; simpl; [lia|lia|done].
Qed.

(** [rho[1:t]] holds the computed estimates of the lags [1 .. t-1]. *)
Lemma slice_computed (t : nat) :
  1 ≤ t → t ≤ Nat.max 1 n →
  slice 1 t (rho_prefix rho n t) = map rho (seq 1 (t - 1)).
Proof.
  intros H1 Hn. unfold slice. apply list_eq. intros i.
  rewrite list_lookup_fmap.
  destruct (decide (i < t - 1)) as [Hi|Hi].
  - rewrite lookup_take_lt, lookup_drop, lookup_seq_lt by done.
    by rewrite rho_prefix_lookup_computed by lia.
  - by rewrite lookup_take_ge, lookup_seq_ge by lia.
Qed.
End rho_prefix.

(** ** The scan *)

Section scan_facts.
Variable variogram : nat → npfloat.
Variable post_var : npfloat.
Variable n : nat.

Local Abbreviation rho := (rho_at variogram post_var).
Local Abbreviation cond := (scan_cond n).
Local Abbreviation body := (scan_body variogram post_var).
Local Abbreviation loop := (scan_loop variogram post_var n).

Lemma scan_cond_true (s : scan_state) :
  cond s = true ↔ st_negative_autocorr s = false ∧ st_t s < n.
Proof.
  unfold scan_cond. rewrite andb_true_iff, negb_true_iff, Nat.ltb_lt. done.
Qed.

Lemma scan_cond_false (s : scan_state) :
  cond s = false ↔ st_negative_autocorr s = true ∨ n ≤ st_t s.
Proof.
  unfold scan_cond. rewrite andb_false_iff, negb_false_iff, Nat.ltb_ge. done.
Qed.

Lemma scan_init_inv : scan_inv rho n (scan_init n).
Proof.
  split; simpl; try lia; try done. apply rho_prefix_init.
Qed.

Lemma py_sum_pair (a b : npfloat) : py_sum [a; b] = fadd a b.
Proof.
  change (py_sum [a; b]) with (fadd (fadd (Fin 0%Qc) a) b). by rewrite fadd_0_l.
Qed.

Lemma scan_body_inv (s : scan_state) :
  scan_inv rho n s → cond s = true → scan_inv rho n (body s).
Proof.
  intros [Hpos Hle Hrho Hquiet Hflag] [Hneg Hlt]%scan_cond_true.
  assert (Hrho' : <[st_t s := rho (st_t s)]> (st_rho s)
                  = rho_prefix rho n (st_t s + 1)).
  { rewrite Hrho. by apply rho_prefix_insert. }
  split; unfold scan_body; cbn [st_t st_rho st_negative_autocorr].
  - lia.
  - lia.
  - exact Hrho'.
  - intros i H1 Hi. destruct (decide (i + 1 < st_t s)) as [Hlt'|Hge].
    + by apply Hquiet.
    + assert (i = st_t s - 1) as -> by lia.
      rewrite Hflag in Hneg. destruct (Nat.eqb_spec (st_t s) 1); [lia|done].
  - destruct (Nat.eqb_spec (st_t s + 1) 1) as [|_]; [lia|].
    replace (st_t s + 1 - 1) with (st_t s) by lia.
    unfold fires. destruct (Nat.eqb_spec (st_t s mod 2) 0) as [Heven|Hodd];
      cbn [andb].
    + assert (2 ≤ st_t s).
      { destruct (decide (st_t s = 1)) as [E|]; [rewrite E in Heven; done|lia]. }
      rewrite Hrho', slice_pair, py_sum_pair by done. done.
    + exact Hneg.
Qed.

Lemma scan_loop_inv (fuel : nat) (s : scan_state) :
  scan_inv rho n s → n ≤ st_t s + fuel →
  scan_inv rho n (loop fuel s) ∧ cond (loop fuel s) = false.
Proof.
  revert s. induction fuel as [|fuel IH]; intros s Hinv Hfuel; simpl.
  - split; [done|]. apply scan_cond_false. right. lia.
  - destruct (cond s) eqn:Hc; [|done].
    apply IH; [by apply scan_body_inv|].
    unfold scan_body. simpl. lia.
Qed.

(** The loop leaves by its own condition: [n] iterations are enough. *)
Lemma scan_exits :
  scan_inv rho n (scan variogram post_var n)
  ∧ cond (scan variogram post_var n) = false.
Proof. apply scan_loop_inv; [apply scan_init_inv|]. simpl. lia. Qed.

(** More fuel than needed changes nothing. *)
Lemma scan_loop_stable (fuel k : nat) (s : scan_state) :
  cond (loop fuel s) = false → loop (fuel + k) s = loop fuel s.
Proof.
  revert s. induction fuel as [|fuel IH]; intros s Hc; simpl in *.
  - destruct k; simpl; [done|]. by rewrite Hc.
  - destruct (cond s) eqn:Hs; [by apply IH|done].
Qed.

(** The sum [rho[1:t].sum()] of a state that satisfies the invariant. *)
Lemma rho_sum_inv (s : scan_state) :
  scan_inv rho n s → rho_sum s = big_sum rho 1 (st_t s).
Proof.
  intros [Hpos Hle Hrho _ _]. unfold rho_sum, big_sum.
  by rewrite Hrho, slice_computed.
Qed.

(** When the flag is set, the last computed lag fired and no earlier one. *)
Lemma scan_inv_fired (s : scan_state) :
  scan_inv rho n s → st_negative_autocorr s = true →
  ∃ tf, st_t s = tf + 1 ∧ 1 ≤ tf < n ∧ fires rho tf = true
        ∧ ∀ i, 1 ≤ i < tf → fires rho i = false.
Proof.
  intros [Hpos Hle Hrho Hquiet Hflag] Hneg. rewrite Hneg in Hflag.
  destruct (Nat.eqb_spec (st_t s) 1) as [|Hne]; [done|].
  exists (st_t s - 1). repeat split; try lia; [done|].
  intros i Hi. apply Hquiet; lia.
Qed.

(** When the loop ends with the flag unset, every lag was computed and
    none fired. *)
Lemma scan_inv_exhausted (s : scan_state) :
  scan_inv rho n s → cond s = false → st_negative_autocorr s = false → 1 ≤ n →
  st_t s = n ∧ ∀ i, 1 ≤ i < n → fires rho i = false.
Proof.
  intros [Hpos Hle Hrho Hquiet Hflag] Hc Hneg Hn.
  apply scan_cond_false in Hc as [Hc|Hc]; [congruence|].
  assert (st_t s = n) as Ht by lia. split; [done|].
  intros i Hi. destruct (decide (i + 1 < st_t s)) as [Hlt|Hge].
  - apply Hquiet; lia.
  - assert (i = st_t s - 1) as -> by lia.
    rewrite Hneg in Hflag. destruct (Nat.eqb_spec (st_t s) 1); [lia|done].
Qed.
End scan_facts.

(** The scan reads the variogram at the lags [1 .. n-1] only. *)
Lemma scan_loop_ext (v1 v2 : nat → npfloat) (pv : npfloat) (n fuel : nat)
    (s : scan_state) :
  (∀ t, 1 ≤ t < n → v1 t = v2 t) → 1 ≤ st_t s →
  scan_loop v1 pv n fuel s = scan_loop v2 pv n fuel s.
Proof.
  intros Hv. revert s. induction fuel as [|fuel IH]; intros s Hs; simpl; [done|].
  destruct (scan_cond n s) eqn:Hc; [|done].
  apply scan_cond_true in Hc as [_ Hlt].
  assert (scan_body v1 pv s = scan_body v2 pv s) as ->.
  { unfold scan_body, rho_at. by rewrite Hv by lia. }
  apply IH. simpl. lia.
Qed.

Lemma scan_ext (v1 v2 : nat → npfloat) (pv : npfloat) (n : nat) :
  (∀ t, 1 ≤ t < n → v1 t = v2 t) → scan v1 pv n = scan v2 pv n.
Proof. intros Hv. unfold scan. apply scan_loop_ext; [done|]. simpl. lia. Qed.

(** ** The two effective-sample-size functions *)

Lemma has_shape_concrete_2_2 (a b c d : npfloat) : has_shape [[a; b]; [c; d]] 2 2.
Proof. split; [done|]. by repeat constructor. Qed.

Lemma ESS_scan_unfold (x : matrix) (m n : nat) :
  has_shape x m n → 1 ≤ m →
  ESS_scan x = scan (variogram x m n) (gelman_rubin x) n.
Proof. intros Hs Hm. unfold ESS_scan. by rewrite (shape_has_shape x m n). Qed.

Lemma my_ESS_scan_unfold (x : matrix) (m n : nat) :
  has_shape x m n → 1 ≤ m →
  my_ESS_scan x = scan (my_variogram x m n) (my_gelman_rubin x) n.
Proof. intros Hs Hm. unfold my_ESS_scan. by rewrite (shape_has_shape x m n). Qed.

Lemma ESS_unfold (x : matrix) (m n : nat) :
  has_shape x m n → 1 ≤ m → ESS x = ess_return n m (ESS_scan x).
Proof. intros Hs Hm. unfold ESS. by rewrite (shape_has_shape x m n). Qed.

Lemma my_ESS_unfold (x : matrix) (m n : nat) :
  has_shape x m n → 1 ≤ m → my_ESS x = ess_return n m (my_ESS_scan x).
Proof. intros Hs Hm. unfold my_ESS. by rewrite (shape_has_shape x m n). Qed.

Lemma ESS_scan_agree (x : matrix) (m n : nat) :
  has_shape x m n → 1 ≤ m → my_ESS_scan x = ESS_scan x.
Proof.
  intros Hs Hm.
  rewrite (my_ESS_scan_unfold x m n), (ESS_scan_unfold x m n) by done.
  rewrite gelman_rubin_agree. apply scan_ext.
  intros t Ht. apply variogram_agree; [done|lia].
Qed.

Lemma ESS_agree (x : matrix) (m n : nat) :
  has_shape x m n → 1 ≤ m → my_ESS x = ESS x.
Proof.
  intros Hs Hm. rewrite (my_ESS_unfold x m n), (ESS_unfold x m n) by done.
  by rewrite (ESS_scan_agree x m n).
Qed.

(** The value returned after a scan is the quotient of the specification,
    cast by [int]. *)
Lemma ess_return_scan (v : nat → npfloat) (pv : npfloat) (m n : nat) :
  ess_return n m (scan v pv n)
  = int (ess_quotient_spec m n (rho_at v pv) (st_t (scan v pv n))).
Proof.
  unfold ess_return, ess_quotient_spec, denominator.
  destruct (scan_exits v pv n) as [Hinv _].
  by rewrite (rho_sum_inv v pv n _ Hinv).
Qed.

(** ** Truncation toward zero *)

Lemma truncate_nonneg (q : Qc) : (0 ≤ q)%Qc → truncate q = Qfloor q.
Proof.
  destruct q as [[a d] Hc]. unfold Qcle, Qle, truncate, Qfloor. simpl.
  intros H. apply Z.quot_div_nonneg; lia.
Qed.

Lemma truncate_nonpos (q : Qc) : (q ≤ 0)%Qc → truncate q = Qceiling q.
Proof.
  destruct q as [[a d] Hc]. unfold Qcle, Qle, truncate, Qceiling, Qfloor. simpl.
  intros H.
  rewrite <- (Z.opp_involutive a) at 1. rewrite Z.quot_opp_l by lia.
  f_equal. apply Z.quot_div_nonneg; lia.
Qed.

Lemma fires_true (rho : nat → npfloat) (t : nat) :
  fires rho t = true ↔ t mod 2 = 0 ∧ pair_negative rho t = true.
Proof. unfold fires. by rewrite andb_true_iff, Nat.eqb_eq. Qed.

Lemma fires_false (rho : nat → npfloat) (t : nat) :
  fires rho t = false ↔ ¬ (t mod 2 = 0 ∧ pair_negative rho t = true).
Proof. rewrite <- fires_true. by destruct (fires rho t). Qed.

Lemma scan_has_outcome (v : nat → npfloat) (pv : npfloat) (n : nat) :
  1 ≤ n → scan_outcome (rho_at v pv) n (scan v pv n).
Proof.
  intros Hn. destruct (scan_exits v pv n) as [Hinv Hc].
  split; [done|]. split; [|split].
  - intros t Ht. destruct Hinv as [Hpos Hle Hrho _ _].
    rewrite Hrho. apply rho_prefix_lookup_computed; lia.
  - intros Hneg.
    destruct (scan_inv_fired v pv n _ Hinv Hneg) as (tf & Ht & Hr & Hf & Hq).
    apply fires_true in Hf as [He Hp].
    exists tf. repeat split; try done; try lia.
    intros t Ht'. apply fires_false. by apply Hq.
  - intros Hneg.
    destruct (scan_inv_exhausted v pv n _ Hinv Hc Hneg Hn) as [Ht Hq].
    split; [done|]. intros t Ht'. apply fires_false. by apply Hq.
Qed.

(** ** The stopping lag *)

Lemma find_seq_first (f : nat → bool) (a k tf : nat) :
  a ≤ tf < a + k → f tf = true → (∀ t, a ≤ t < tf → f t = false) →
  List.find f (seq a k) = Some tf.
Proof.
  revert a. induction k as [|k IH]; intros a Hr Hf Hq; [lia|].
  cbn [seq List.find]. destruct (decide (a = tf)) as [->|Hne].
  - by rewrite Hf.
  - rewrite Hq by lia. apply IH; [lia|done|]. intros t Ht. apply Hq. lia.
Qed.

Lemma find_seq_none (f : nat → bool) (a k : nat) :
  (∀ t, a ≤ t < a + k → f t = false) → List.find f (seq a k) = None.
Proof.
  revert a. induction k as [|k IH]; intros a Hq; [done|].
  cbn [seq List.find]. rewrite Hq by lia. apply IH. intros t Ht. apply Hq. lia.
Qed.

(** The loop ends with [t] one past the first lag that fires, and with
    [t = n] when none does. *)
Lemma scan_t_stop (v : nat → npfloat) (pv : npfloat) (n : nat) :
  1 ≤ n → st_t (scan v pv n) = t_stop_spec (rho_at v pv) n.
Proof.
  intros Hn. destruct (scan_exits v pv n) as [Hinv Hc].
  unfold t_stop_spec, first_stop_lag.
  destruct (st_negative_autocorr (scan v pv n)) eqn:Hneg.
  - destruct (scan_inv_fired v pv n _ Hinv Hneg) as (tf & Ht & Hr & Hf & Hq).
    rewrite (find_seq_first _ 1 (n - 1) tf); [done|lia|done|done].
  - destruct (scan_inv_exhausted v pv n _ Hinv Hc Hneg Hn) as [Ht Hq].
    rewrite find_seq_none; [done|]. intros t Ht'. apply Hq. lia.
Qed.

(** The scan and the value returned after it, in terms of the stopping
    lag and the formula of the autocorrelation estimates. *)
Lemma ess_return_formula (v : nat → npfloat) (pv : npfloat) (m n : nat) :
  1 ≤ n →
  st_t (scan v pv n) = t_stop_spec (rho_at v pv) n
  ∧ (∀ t, 1 ≤ t < t_stop_spec (rho_at v pv) n →
       st_rho (scan v pv n) !! t = Some (rho_at v pv t))
  ∧ ess_return n m (scan v pv n)
    = int (ess_quotient_spec m n (rho_at v pv) (t_stop_spec (rho_at v pv) n)).
Proof.
  intros Hn. rewrite <- (scan_t_stop v pv n Hn).
  split; [done|]. split; [apply (scan_has_outcome v pv n Hn)|].
  apply ess_return_scan.
Qed.

(** ** Evaluation on concrete matrices *)

(** Closed decidable statements about concrete matrices, by evaluation. *)
Ltac by_evaluation :=
  lazymatch goal with
  | |- ¬ ?P => apply (bool_decide_eq_false_1 P); vm_compute; reflexivity
  | |- ?P => apply (bool_decide_eq_true_1 P); vm_compute; reflexivity
  end.

(** A closed statement about binary64 values, by evaluation. *)
Ltac by_float_evaluation := vm_compute; reflexivity.

Ltac valid_by_evaluation :=
  split; [reflexivity|];
  repeat first [apply List.Forall_nil | apply List.Forall_cons | split
               | by_float_evaluation].

(** * The claims *)

(** C1, in exact arithmetic.  On every chain matrix of shape (m, n) with
    m >= 2 and n >= 2, when no operation rounds, the nested-loop [ESS] and
    the vectorised [my_ESS] end their scans in the same state, so at the
    same truncation index, and return the same result. *)
Theorem ESS_my_ESS_agree (x : matrix) (m n : nat) :
  has_shape x m n → 2 ≤ m → 2 ≤ n →
  my_ESS_scan x = ESS_scan x
  ∧ st_t (my_ESS_scan x) = st_t (ESS_scan x)
  ∧ my_ESS x = ESS x.
Proof.
  intros Hs Hm Hn.
  assert (my_ESS_scan x = ESS_scan x) as E by (apply (ESS_scan_agree x m n); [done|lia]).
  split; [done|]. split; [by rewrite E|].
  apply (ESS_agree x m n); [done|lia].
Qed.

Lemma ESS_my_ESS_agree_witness :
  has_shape x_alt 2 5
  ∧ my_ESS_scan x_alt = ESS_scan x_alt
  ∧ st_t (my_ESS_scan x_alt) = st_t (ESS_scan x_alt)
  ∧ my_ESS x_alt = ESS x_alt.
Proof.
  assert (Hs : has_shape x_alt 2 5) by (split; [reflexivity|repeat constructor]).
  split; [exact Hs|]. apply (ESS_my_ESS_agree x_alt 2 5 Hs); lia.
Defined.

(** C1, as the specification states it, fails in binary64: on the three
    chains of four finite draws [3.1 * [[1,2,1,4],[3,1,1,-3],[4,-3,-2,1]]]
    the two variograms, summed in different orders, round differently;
    the scan of [ESS] stops with [t = 3] and the scan of [my_ESS] with
    [t = 4], and the functions return 12 and -68. *)
Lemma ESS_my_ESS_differ_in_binary64 :
  F64.valid F64.x_rounding 3 4
  ∧ F64.st_t (F64.ESS_scan F64.x_rounding) = 3
  ∧ F64.st_t (F64.my_ESS_scan F64.x_rounding) = 4
  ∧ F64.ESS F64.x_rounding = Ok 12%Z
  ∧ F64.my_ESS F64.x_rounding = Ok (-68)%Z
  ∧ F64.my_ESS F64.x_rounding ≠ F64.ESS F64.x_rounding.
Proof.
  split; [valid_by_evaluation|].
  do 4 (split; [by_float_evaluation|]).
  assert (F64.my_ESS F64.x_rounding = Ok (-68)%Z) as -> by by_float_evaluation.
  assert (F64.ESS F64.x_rounding = Ok 12%Z) as -> by by_float_evaluation.
  discriminate.
Qed.



(** C3.  On every chain matrix of shape (m, n) with m >= 2 and n >= 2,
    [gelman_rubin] returns [W*(n-1)/n + B_over_n], with [B_over_n] the sum
    over the chains of the squared difference between the chain mean and
    the grand mean, divided by [m-1], and [W] the sum over all chains and
    iterations of the squared deviation from the chain's own mean, divided
    by [m*(n-1)]. *)
Theorem gelman_rubin_formula (x : matrix) (m n : nat) :
  has_shape x m n → 2 ≤ m → 2 ≤ n →
  gelman_rubin x
  = fadd (fdiv (fmul (W_spec x m n) (of_Z (Z.of_nat n - 1))) (of_nat n))
         (B_over_n_spec x m n).
Proof. intros Hs Hm Hn. apply (gelman_rubin_s2_spec x m n Hs). lia. Qed.

Lemma gelman_rubin_formula_witness :
  has_shape x_big 2 2
  ∧ gelman_rubin x_big
    = fadd (fdiv (fmul (W_spec x_big 2 2) (of_Z (Z.of_nat 2 - 1))) (of_nat 2))
           (B_over_n_spec x_big 2 2).
Proof.
  assert (Hs : has_shape x_big 2 2) by (split; [reflexivity|repeat constructor]).
  split; [exact Hs|]. apply (gelman_rubin_formula x_big 2 2 Hs); lia.
Defined.

(** C4, as the code has it, in exact arithmetic.  With
    [rho[t] = 1 - variogram(t) / (2 * post_var)], each function ends its
    scan at [t_stop], one past the first even lag [tf] with
    [rho[tf-1] + rho[tf] < 0], or [n] when there is none; it has stored
    [rho[t]] at every lag below [t_stop], and it returns
    [m*n / (1 + 2 * Σ rho[1:t_stop])] cast by [int].  The cast truncates
    toward zero: it is the floor on a non-negative quotient and the
    ceiling on a non-positive one. *)
Theorem ESS_truncated_quotient (x : matrix) (m n : nat) :
  has_shape x m n → 2 ≤ m → 2 ≤ n →
  let rho := λ t, fsub (Fin 1%Qc)
                    (fdiv (variogram x m n t) (fmul (Fin 2%Qc) (gelman_rubin x))) in
  let my_rho := λ t, fsub (Fin 1%Qc)
                    (fdiv (my_variogram x m n t) (fmul (Fin 2%Qc) (my_gelman_rubin x))) in
  let t_stop := t_stop_spec rho n in
  let my_t_stop := t_stop_spec my_rho n in
  (st_t (ESS_scan x) = t_stop
   ∧ (∀ t, 1 ≤ t < t_stop → st_rho (ESS_scan x) !! t = Some (rho t))
   ∧ ESS x = int (fdiv (of_Z (Z.of_nat m * Z.of_nat n))
                       (fadd (Fin 1%Qc) (fmul (Fin 2%Qc) (big_sum rho 1 t_stop)))))
  ∧ (st_t (my_ESS_scan x) = my_t_stop
     ∧ (∀ t, 1 ≤ t < my_t_stop → st_rho (my_ESS_scan x) !! t = Some (my_rho t))
     ∧ my_ESS x = int (fdiv (of_Z (Z.of_nat m * Z.of_nat n))
                            (fadd (Fin 1%Qc)
                                  (fmul (Fin 2%Qc) (big_sum my_rho 1 my_t_stop)))))
  ∧ (∀ q : Qc, int (Fin q) = Ok (truncate q)
       ∧ ((0 ≤ q)%Qc → truncate q = Qfloor q)
       ∧ ((q ≤ 0)%Qc → truncate q = Qceiling q)).
Proof.
  intros Hs Hm Hn rho my_rho t_stop my_t_stop.
  assert (1 ≤ m) as Hm1 by lia. assert (1 ≤ n) as Hn1 by lia.
  rewrite (ESS_unfold x m n), (my_ESS_unfold x m n) by done.
  rewrite (ESS_scan_unfold x m n), (my_ESS_scan_unfold x m n) by done.
  split; [exact (ess_return_formula (variogram x m n) (gelman_rubin x) m n Hn1)|].
  split; [exact (ess_return_formula (my_variogram x m n) (my_gelman_rubin x) m n Hn1)|].
  intros q. split; [done|]. split; [apply truncate_nonneg|apply truncate_nonpos].
Qed.

Lemma ESS_truncated_quotient_witness :
  let rho := λ t, fsub (Fin 1%Qc)
                    (fdiv (variogram x_stop 2 4 t)
                          (fmul (Fin 2%Qc) (gelman_rubin x_stop))) in
  has_shape x_stop 2 4
  ∧ st_t (ESS_scan x_stop) = t_stop_spec rho 4
  ∧ ESS x_stop
    = int (fdiv (of_Z (Z.of_nat 2 * Z.of_nat 4))
                (fadd (Fin 1%Qc)
                      (fmul (Fin 2%Qc) (big_sum rho 1 (t_stop_spec rho 4))))).
Proof.
  intros rho.
  assert (Hs : has_shape x_stop 2 4) by (split; [reflexivity|repeat constructor]).
  split; [exact Hs|].
  destruct (ESS_truncated_quotient x_stop 2 4 Hs ltac:(lia) ltac:(lia))
    as [(Ht & _ & Hr) _].
  split; [exact Ht|exact Hr].
Defined.

(** C4, as the specification states it, fails: with [t_stop] the first
    lag at which the stop condition fires, as the specification defines
    it, the formula gives another integer than the code.  On the chains
    [-3, -4, 3, -2] and [-3, 4, -3, -2] the condition first fires at lag
    2; both functions return -8, and the formula with [t_stop = 2] gives
    -12.  Every intermediate value is a binary64 number, and the binary64
    evaluation gives the same. *)
Lemma quotient_truncated_at_the_firing_lag_fails :
  let rho := λ t, fsub (Fin 1%Qc)
                    (fdiv (variogram x_stop 2 4 t)
                          (fmul (Fin 2%Qc) (gelman_rubin x_stop))) in
  let my_rho := λ t, fsub (Fin 1%Qc)
                    (fdiv (my_variogram x_stop 2 4 t)
                          (fmul (Fin 2%Qc) (my_gelman_rubin x_stop))) in
  has_shape x_stop 2 4 ∧ finite_entries x_stop
  ∧ first_stop_lag rho 4 = Some 2 ∧ first_stop_lag my_rho 4 = Some 2
  ∧ ESS x_stop = Ok (-8)%Z ∧ my_ESS x_stop = Ok (-8)%Z
  ∧ int (fdiv (of_Z (Z.of_nat 2 * Z.of_nat 4))
              (fadd (Fin 1%Qc) (fmul (Fin 2%Qc) (big_sum rho 1 2)))) = Ok (-12)%Z
  ∧ int (fdiv (of_Z (Z.of_nat 2 * Z.of_nat 4))
              (fadd (Fin 1%Qc) (fmul (Fin 2%Qc) (big_sum my_rho 1 2)))) = Ok (-12)%Z
  ∧ F64.valid (F64.of_ints stop_ints) 2 4
  ∧ F64.ESS (F64.of_ints stop_ints) = Ok (-8)%Z
  ∧ F64.my_ESS (F64.of_ints stop_ints) = Ok (-8)%Z
  ∧ F64.int (F64.fdiv (F64.of_int 8)
               (F64.fadd (F64.of_int 1)
                  (F64.fmul (F64.of_int 2)
                     (F64.np_sum (F64.slice 1 2
                        (F64.st_rho (F64.ESS_scan (F64.of_ints stop_ints))))))))
    = Ok (-12)%Z.
Proof.
  intros rho my_rho.
  split; [split; [reflexivity|repeat constructor]|].
  split; [repeat constructor; by eexists|].
  do 6 (split; [by_evaluation|]).
  split; [valid_by_evaluation|].
  repeat split; by_float_evaluation.
Qed.

Lemma big_sum_last_pair (rho : nat → npfloat) (tf : nat) :
  2 ≤ tf →
  big_sum rho 1 (tf + 1)
  = fadd (big_sum rho 1 (tf - 1)) (fadd (rho (tf - 1)) (rho tf)).
Proof.
  intros H2. unfold big_sum.
  replace (tf + 1 - 1) with ((tf - 1 - 1) + 2) by lia.
  rewrite seq_app, map_app, np_sum_app. f_equal.
  replace (1 + (tf - 1 - 1)) with (tf - 1) by lia.
  change (seq (tf - 1) 2) with [tf - 1; S (tf - 1)].
  replace (S (tf - 1)) with tf by lia.
  change (np_sum (map rho [tf - 1; tf]))
    with (fadd (rho (tf - 1)) (fadd (rho tf) (Fin 0%Qc))).
  by rewrite fadd_0_r.
Qed.

Lemma fired_sum (v : nat → npfloat) (pv : npfloat) (n : nat) :
  st_negative_autocorr (scan v pv n) = true →
  ∃ tf, 2 ≤ tf ∧ tf < n
    ∧ fires (rho_at v pv) tf = true
    ∧ (∀ t, 1 ≤ t < tf → fires (rho_at v pv) t = false)
    ∧ st_t (scan v pv n) = tf + 1
    ∧ rho_sum (scan v pv n) = big_sum (rho_at v pv) 1 (tf + 1).
Proof.
  intros Hneg. destruct (scan_exits v pv n) as [Hinv _].
  destruct (scan_inv_fired v pv n _ Hinv Hneg) as (tf & Ht & Hr & Hf & Hq).
  exists tf. assert (2 ≤ tf).
  { apply fires_true in Hf as [He _].
    destruct (decide (tf = 1)) as [E|]; [rewrite E in He; done|lia]. }
  repeat split; try done; try lia.
  rewrite (rho_sum_inv v pv n _ Hinv). by rewrite Ht.
Qed.

(** When the flag is set, the slice [rho[1:t]] summed after the loop ends
    with the pair that fired. *)
Lemma fired_slice (v : nat → npfloat) (pv : npfloat) (n : nat) :
  st_negative_autocorr (scan v pv n) = true →
  ∃ tf, 2 ≤ tf ∧ tf < n
    ∧ fires (rho_at v pv) tf = true
    ∧ (∀ t, 1 ≤ t < tf → fires (rho_at v pv) t = false)
    ∧ st_t (scan v pv n) = tf + 1
    ∧ slice 1 (st_t (scan v pv n)) (st_rho (scan v pv n))
      = map (rho_at v pv) (seq 1 (tf - 2)) ++ [rho_at v pv (tf - 1); rho_at v pv tf]
    ∧ rho_sum (scan v pv n) = big_sum (rho_at v pv) 1 (tf + 1)
    ∧ rho_sum (scan v pv n)
      = fadd (big_sum (rho_at v pv) 1 (tf - 1))
             (fadd (rho_at v pv (tf - 1)) (rho_at v pv tf)).
Proof.
  intros Hneg.
  destruct (fired_sum v pv n Hneg) as (tf & H2 & Hlt & Hf & Hq & Ht & Hsum).
  exists tf. do 5 (split; [done|]). split; [|split; [done|]].
  - destruct (scan_exits v pv n) as [[Hpos Hle Hrho _ _] _].
    rewrite Hrho, slice_computed by done. rewrite Ht.
    replace (tf + 1 - 1) with ((tf - 2) + 2) by lia.
    rewrite seq_app, map_app. f_equal.
    replace (1 + (tf - 2)) with (tf - 1) by lia.
    change (seq (tf - 1) 2) with [tf - 1; S (tf - 1)].
    by replace (S (tf - 1)) with tf by lia.
  - rewrite Hsum. by apply big_sum_last_pair.
Qed.

(** C5, as the code has it.  When the scan of either function ends because
    the stop condition fired at the even lag [tf], the final [t] is
    [tf + 1] and the slice [rho[1:t]] that is summed holds the estimates of
    the lags [1 .. tf]: its last two elements are the terminating pair
    [rho[tf-1]], [rho[tf]], and only lag 0 is left out.  In exact
    arithmetic the sum is the sum over the lags below [tf - 1] plus the
    terminating pair. *)
Theorem final_sum_includes_terminating_pair (x : matrix) (m n : nat) :
  has_shape x m n → 2 ≤ m → 2 ≤ n →
  let rho := λ t, fsub (Fin 1%Qc)
                    (fdiv (variogram x m n t) (fmul (Fin 2%Qc) (gelman_rubin x))) in
  let my_rho := λ t, fsub (Fin 1%Qc)
                    (fdiv (my_variogram x m n t) (fmul (Fin 2%Qc) (my_gelman_rubin x))) in
  (st_negative_autocorr (ESS_scan x) = true →
   ∃ tf, 2 ≤ tf ∧ tf < n
     ∧ fires rho tf = true
     ∧ (∀ t, 1 ≤ t < tf → fires rho t = false)
     ∧ st_t (ESS_scan x) = tf + 1
     ∧ slice 1 (st_t (ESS_scan x)) (st_rho (ESS_scan x))
       = map rho (seq 1 (tf - 2)) ++ [rho (tf - 1); rho tf]
     ∧ rho_sum (ESS_scan x) = big_sum rho 1 (tf + 1)
     ∧ rho_sum (ESS_scan x)
       = fadd (big_sum rho 1 (tf - 1)) (fadd (rho (tf - 1)) (rho tf)))
  ∧ (st_negative_autocorr (my_ESS_scan x) = true →
     ∃ tf, 2 ≤ tf ∧ tf < n
       ∧ fires my_rho tf = true
       ∧ (∀ t, 1 ≤ t < tf → fires my_rho t = false)
       ∧ st_t (my_ESS_scan x) = tf + 1
       ∧ slice 1 (st_t (my_ESS_scan x)) (st_rho (my_ESS_scan x))
         = map my_rho (seq 1 (tf - 2)) ++ [my_rho (tf - 1); my_rho tf]
       ∧ rho_sum (my_ESS_scan x) = big_sum my_rho 1 (tf + 1)
       ∧ rho_sum (my_ESS_scan x)
         = fadd (big_sum my_rho 1 (tf - 1)) (fadd (my_rho (tf - 1)) (my_rho tf))).
Proof.
  intros Hs Hm Hn rho my_rho.
  assert (1 ≤ m) as Hm1 by lia.
  rewrite (ESS_scan_unfold x m n Hs Hm1), (my_ESS_scan_unfold x m n Hs Hm1).
  split; intros Hneg.
  - exact (fired_slice (variogram x m n) (gelman_rubin x) n Hneg).
  - exact (fired_slice (my_variogram x m n) (my_gelman_rubin x) n Hneg).
Qed.

Lemma final_sum_includes_terminating_pair_witness :
  let rho := λ t, fsub (Fin 1%Qc)
                    (fdiv (variogram x_stop 2 4 t)
                          (fmul (Fin 2%Qc) (gelman_rubin x_stop))) in
  has_shape x_stop 2 4
  ∧ st_negative_autocorr (ESS_scan x_stop) = true
  ∧ ∃ tf, st_t (ESS_scan x_stop) = tf + 1
      ∧ slice 1 (st_t (ESS_scan x_stop)) (st_rho (ESS_scan x_stop))
        = map rho (seq 1 (tf - 2)) ++ [rho (tf - 1); rho tf].
Proof.
  intros rho.
  assert (Hs : has_shape x_stop 2 4) by (split; [reflexivity|repeat constructor]).
  assert (Hneg : st_negative_autocorr (ESS_scan x_stop) = true)
    by (vm_compute; reflexivity).
  split; [exact Hs|]. split; [exact Hneg|].
  destruct (proj1 (final_sum_includes_terminating_pair x_stop 2 4 Hs
                     ltac:(lia) ltac:(lia)) Hneg)
    as (tf & _ & _ & _ & _ & Ht & Hsl & _).
  exists tf. split; [exact Ht|exact Hsl].
Defined.

(** C5, as the specification states it, fails: on the chains
    [-3, -4, 3, -2] and [-3, 4, -3, -2] the stop condition fires at lag 2,
    before the last lag, and the slice that is summed is
    [rho[1], rho[2]], the terminating pair: the sum is -1, not the sum
    -13/16 over the lags below 2.  Every intermediate value is a binary64
    number, and the binary64 evaluation gives the same. *)
Lemma final_sum_excludes_terminating_lag_fails :
  let rho := λ t, fsub (Fin 1%Qc)
                    (fdiv (variogram x_stop 2 4 t)
                          (fmul (Fin 2%Qc) (gelman_rubin x_stop))) in
  let my_rho := λ t, fsub (Fin 1%Qc)
                    (fdiv (my_variogram x_stop 2 4 t)
                          (fmul (Fin 2%Qc) (my_gelman_rubin x_stop))) in
  let xs := F64.of_ints stop_ints in
  has_shape x_stop 2 4 ∧ finite_entries x_stop
  ∧ (st_negative_autocorr (ESS_scan x_stop) = true
     ∧ fires rho 1 = false ∧ fires rho 2 = true
     ∧ st_t (ESS_scan x_stop) = 3
     ∧ slice 1 3 (st_rho (ESS_scan x_stop)) = [rho 1; rho 2]
     ∧ rho_sum (ESS_scan x_stop) = Fin (Q2Qc (-1))
     ∧ big_sum rho 1 2 = Fin (Q2Qc (-13 # 16))
     ∧ rho_sum (ESS_scan x_stop) ≠ big_sum rho 1 2)
  ∧ (st_negative_autocorr (my_ESS_scan x_stop) = true
     ∧ fires my_rho 1 = false ∧ fires my_rho 2 = true
     ∧ st_t (my_ESS_scan x_stop) = 3
     ∧ slice 1 3 (st_rho (my_ESS_scan x_stop)) = [my_rho 1; my_rho 2]
     ∧ rho_sum (my_ESS_scan x_stop) = Fin (Q2Qc (-1))
     ∧ big_sum my_rho 1 2 = Fin (Q2Qc (-13 # 16))
     ∧ rho_sum (my_ESS_scan x_stop) ≠ big_sum my_rho 1 2)
  ∧ F64.valid xs 2 4
  ∧ (F64.st_negative_autocorr (F64.ESS_scan xs) = true
     ∧ F64.st_t (F64.ESS_scan xs) = 3
     ∧ F64.rho_sum (F64.ESS_scan xs) = F64.of_int (-1)
     ∧ F64.np_sum (F64.slice 1 2 (F64.st_rho (F64.ESS_scan xs)))
       = F64.fdiv (F64.of_int (-13)) (F64.of_int 16))
  ∧ (F64.st_negative_autocorr (F64.my_ESS_scan xs) = true
     ∧ F64.st_t (F64.my_ESS_scan xs) = 3
     ∧ F64.rho_sum (F64.my_ESS_scan xs) = F64.of_int (-1)
     ∧ F64.np_sum (F64.slice 1 2 (F64.st_rho (F64.my_ESS_scan xs)))
       = F64.fdiv (F64.of_int (-13)) (F64.of_int 16)).
Proof.
  intros rho my_rho xs.
  split; [split; [reflexivity|repeat constructor]|].
  split; [repeat constructor; by eexists|].
  split; [repeat split; try (vm_compute; reflexivity); by_evaluation|].
  split; [repeat split; try (vm_compute; reflexivity); by_evaluation|].
  split; [valid_by_evaluation|].
  repeat split; by_float_evaluation.
Qed.

(** C6.  In both functions the scan stops just after the first even lag
    [t] with [rho[t-1] + rho[t] < 0], odd lags never stop it, and when no
    even lag below [n] has a negative pair sum the scan computes [rho[t]]
    for every lag from 1 to [n-1] and stops with [t = n]. *)
Theorem scan_stop_rule (x : matrix) (m n : nat) :
  has_shape x m n → 2 ≤ m → 2 ≤ n →
  scan_outcome (rho_at (variogram x m n) (gelman_rubin x)) n (ESS_scan x)
  ∧ scan_outcome (rho_at (my_variogram x m n) (my_gelman_rubin x)) n (my_ESS_scan x).
Proof.
  intros Hs Hm Hn.
  rewrite (ESS_scan_unfold x m n), (my_ESS_scan_unfold x m n) by (done || lia).
  split; apply scan_has_outcome; lia.
Qed.

Lemma scan_stop_rule_witness :
  has_shape x_alt 2 5
  ∧ scan_outcome (rho_at (variogram x_alt 2 5) (gelman_rubin x_alt)) 5 (ESS_scan x_alt).
Proof.
  assert (Hs : has_shape x_alt 2 5) by (split; [reflexivity|repeat constructor]).
  split; [exact Hs|].
  exact (proj1 (scan_stop_rule x_alt 2 5 Hs ltac:(lia) ltac:(lia))).
Defined.

Lemma scan_two_draws (v : nat → npfloat) (pv : npfloat) :
  scan v pv 2 = scan_body v pv (scan_init 2)
  ∧ scan_cond 2 (scan v pv 2) = false
  ∧ st_t (scan v pv 2) = 2
  ∧ rho_sum (scan v pv 2) = rho_at v pv 1.
Proof.
  repeat split.
  change (rho_sum (scan v pv 2)) with (fadd (rho_at v pv 1) (Fin 0%Qc)).
  apply fadd_0_r.
Qed.

(** The value returned after the single iteration of a scan over two
    draws. *)
Lemma ess_return_two_draws (v : nat → npfloat) (pv : npfloat) (m : nat) :
  scan v pv 2 = scan_body v pv (scan_init 2)
  ∧ scan_cond 2 (scan v pv 2) = false
  ∧ st_t (scan v pv 2) = 2
  ∧ ess_return 2 m (scan v pv 2)
    = int (fdiv (of_Z (Z.of_nat m * 2))
                (fadd (Fin 1%Qc) (fmul (Fin 2%Qc) (rho_at v pv 1)))).
Proof.
  destruct (scan_two_draws v pv) as (Hb & Hc & Ht & Hsum).
  repeat split; try done.
  unfold ess_return, denominator. by rewrite Hsum.
Qed.

(** C7, as the code has it.  With [n = 2] the loop condition holds once:
    the body runs exactly once, at lag 1, where the stop condition is not
    evaluated, the scan ends with [t = 2], and each function returns
    [int(2*m / (1 + 2*rho[1]))] with its own
    [rho[1] = 1 - variogram(1) / (2 * post_var)]: the lag-1 estimate is
    applied. *)
Theorem ESS_two_draws (x : matrix) (m : nat) :
  has_shape x m 2 → 2 ≤ m →
  let rho := λ t, fsub (Fin 1%Qc)
                    (fdiv (variogram x m 2 t) (fmul (Fin 2%Qc) (gelman_rubin x))) in
  let my_rho := λ t, fsub (Fin 1%Qc)
                    (fdiv (my_variogram x m 2 t) (fmul (Fin 2%Qc) (my_gelman_rubin x))) in
  scan_cond 2 (scan_init 2) = true
  ∧ (ESS_scan x = scan_body (variogram x m 2) (gelman_rubin x) (scan_init 2)
     ∧ scan_cond 2 (ESS_scan x) = false
     ∧ st_t (ESS_scan x) = 2
     ∧ ESS x = int (fdiv (of_Z (Z.of_nat m * 2))
                         (fadd (Fin 1%Qc) (fmul (Fin 2%Qc) (rho 1)))))
  ∧ (my_ESS_scan x = scan_body (my_variogram x m 2) (my_gelman_rubin x) (scan_init 2)
     ∧ scan_cond 2 (my_ESS_scan x) = false
     ∧ st_t (my_ESS_scan x) = 2
     ∧ my_ESS x = int (fdiv (of_Z (Z.of_nat m * 2))
                            (fadd (Fin 1%Qc) (fmul (Fin 2%Qc) (my_rho 1))))).
Proof.
  intros Hs Hm rho my_rho. assert (1 ≤ m) as Hm1 by lia.
  split; [done|].
  rewrite (ESS_unfold x m 2 Hs Hm1), (my_ESS_unfold x m 2 Hs Hm1).
  rewrite (ESS_scan_unfold x m 2 Hs Hm1), (my_ESS_scan_unfold x m 2 Hs Hm1).
  split.
  - exact (ess_return_two_draws (variogram x m 2) (gelman_rubin x) m).
  - exact (ess_return_two_draws (my_variogram x m 2) (my_gelman_rubin x) m).
Qed.

Lemma ESS_two_draws_witness :
  has_shape x_neg 2 2
  ∧ ESS x_neg
    = int (fdiv (of_Z (Z.of_nat 2 * 2))
             (fadd (Fin 1%Qc)
                (fmul (Fin 2%Qc)
                   (fsub (Fin 1%Qc)
                      (fdiv (variogram x_neg 2 2 1)
                            (fmul (Fin 2%Qc) (gelman_rubin x_neg))))))).
Proof.
  assert (Hs : has_shape x_neg 2 2) by (split; [reflexivity|repeat constructor]).
  split; [exact Hs|].
  destruct (ESS_two_draws x_neg 2 Hs ltac:(lia)) as (_ & (_ & _ & _ & Hr) & _).
  exact Hr.
Defined.

(** C7, as the specification states it, fails: two chains of two draws
    [0, 1] give -4 and not [m*n = 4], and a constant matrix of that shape
    makes [int] raise [ValueError]. *)
Lemma two_draws_not_degenerate :
  has_shape x_neg 2 2
  ∧ ESS x_neg = Ok (-4)%Z ∧ my_ESS x_neg = Ok (-4)%Z
  ∧ ESS x_neg ≠ Ok (Z.of_nat (2 * 2)) ∧ my_ESS x_neg ≠ Ok (Z.of_nat (2 * 2))
  ∧ has_shape x_const 2 2
  ∧ ESS x_const = ValueError ∧ my_ESS x_const = ValueError.
Proof.
  split; [apply has_shape_concrete_2_2|].
  do 4 (split; [by_evaluation|]).
  split; [apply has_shape_concrete_2_2|].
  split; by_evaluation.
Qed.

(** ** Bounds on the truncated quotient *)

Lemma fdiv_fin (p q : Qc) : q ≠ 0%Qc → fdiv (Fin p) (Fin q) = Fin (p / q)%Qc.
Proof.
  intros Hq. simpl. destruct (q ?= 0)%Qc eqn:E; try done.
  by apply Qceq_alt in E.
Qed.

Lemma truncate_le (q : Qc) (k : Z) :
  (q ≤ Qc_of_Z k)%Qc → (0 ≤ k)%Z → (truncate q ≤ k)%Z.
Proof.
  intros Hq Hk. destruct (Qclt_le_dec q 0) as [Hneg|Hpos].
  - rewrite truncate_nonpos by (by apply Qclt_le_weak).
    trans (Qceiling 0%Q); [|done].
    apply Qceiling_resp_le. by apply Qclt_le_weak in Hneg.
  - rewrite truncate_nonneg by done.
    rewrite <- (Qfloor_Z k). by apply Qfloor_resp_le.
Qed.

Lemma Qdiv_le_self (a d : Q) : (0 <= a)%Q → (1 <= d)%Q → (a / d <= a)%Q.
Proof. intros Ha Hd. apply Qle_shift_div_r; [lra|nra]. Qed.

Lemma Qdiv_neg_le (a d : Q) : (0 <= a)%Q → (d < 0)%Q → (a / d <= a)%Q.
Proof.
  intros Ha Hd. apply Qle_trans with 0%Q; [|done].
  assert (a / d == - (a / - d))%Q as -> by (field; lra).
  assert (0 <= a / - d)%Q; [|lra].
  apply Qle_shift_div_l; lra.
Qed.

Lemma Qcdiv_le_self (a d : Qc) :
  (0 ≤ a)%Qc → (1 ≤ d ∨ d < 0)%Qc → (a / d ≤ a)%Qc.
Proof.
  intros Ha Hd. unfold Qcle, Qcdiv, Qcmult, Qcinv, Q2Qc, this.
  rewrite !Qred_correct.
  destruct Hd as [Hd|Hd]; [by apply Qdiv_le_self|by apply Qdiv_neg_le].
Qed.

Lemma ess_return_bounded (m n : nat) (s : scan_state) (d : Qc) :
  denominator s = Fin d → (1 ≤ d ∨ d < 0)%Qc →
  ∃ z, ess_return n m s = Ok z ∧ (z ≤ Z.of_nat (m * n))%Z.
Proof.
  intros Hden Hd. unfold ess_return. rewrite Hden.
  assert (d ≠ 0%Qc) as Hnz.
  { intros ->. destruct Hd as [Hd|Hd]; [by apply Qcle_not_lt in Hd|].
    by apply Qclt_not_eq in Hd. }
  unfold of_Z. rewrite fdiv_fin by done. eexists. split; [reflexivity|].
  rewrite <- Nat2Z.inj_mul. apply truncate_le; [|lia].
  apply Qcdiv_le_self; [|done].
  rewrite <- Z2Qc_inj_0. apply (proj1 (Z2Qc_inj_le 0 _)). lia.
Qed.

(** The final denominator, in terms of the stopping lag and the formula of
    the autocorrelation estimates. *)
Lemma denominator_formula (v : nat → npfloat) (pv : npfloat) (n : nat) :
  1 ≤ n →
  denominator (scan v pv n)
  = fadd (Fin 1%Qc)
         (fmul (Fin 2%Qc) (big_sum (rho_at v pv) 1 (t_stop_spec (rho_at v pv) n))).
Proof.
  intros Hn. destruct (scan_exits v pv n) as [Hinv _].
  unfold denominator. by rewrite (rho_sum_inv v pv n _ Hinv), (scan_t_stop v pv n Hn).
Qed.

(** C8, as the code has it.  On every chain matrix of shape (m, n) with
    m >= 2 and n >= 2, the final denominator of each function is
    [1 + 2 * Σ rho[1:t_stop]], and a function whose final denominator is at
    least 1 (the truncated autocorrelation sum is not negative) or is
    negative returns an integer that is at most [m*n]. *)
Theorem ESS_le_sample_count (x : matrix) (m n : nat) :
  has_shape x m n → 2 ≤ m → 2 ≤ n →
  let rho := λ t, fsub (Fin 1%Qc)
                    (fdiv (variogram x m n t) (fmul (Fin 2%Qc) (gelman_rubin x))) in
  let my_rho := λ t, fsub (Fin 1%Qc)
                    (fdiv (my_variogram x m n t) (fmul (Fin 2%Qc) (my_gelman_rubin x))) in
  (denominator (ESS_scan x)
   = fadd (Fin 1%Qc) (fmul (Fin 2%Qc) (big_sum rho 1 (t_stop_spec rho n)))
   ∧ ∀ d : Qc, denominator (ESS_scan x) = Fin d → (1 ≤ d ∨ d < 0)%Qc →
       ∃ z, ESS x = Ok z ∧ (z ≤ Z.of_nat (m * n))%Z)
  ∧ (denominator (my_ESS_scan x)
     = fadd (Fin 1%Qc) (fmul (Fin 2%Qc) (big_sum my_rho 1 (t_stop_spec my_rho n)))
     ∧ ∀ d : Qc, denominator (my_ESS_scan x) = Fin d → (1 ≤ d ∨ d < 0)%Qc →
         ∃ z, my_ESS x = Ok z ∧ (z ≤ Z.of_nat (m * n))%Z).
Proof.
  intros Hs Hm Hn rho my_rho.
  assert (1 ≤ m) as Hm1 by lia. assert (1 ≤ n) as Hn1 by lia.
  rewrite (ESS_unfold x m n Hs Hm1), (my_ESS_unfold x m n Hs Hm1).
  rewrite (ESS_scan_unfold x m n Hs Hm1), (my_ESS_scan_unfold x m n Hs Hm1).
  split; (split; [by apply denominator_formula|]);
    intros d Hden Hd; exact (ess_return_bounded m n _ d Hden Hd).
Qed.

Lemma ESS_le_sample_count_witness :
  has_shape x_under 2 4
  ∧ denominator (ESS_scan x_under) = Fin (Q2Qc 2)
  ∧ ∃ z, ESS x_under = Ok z ∧ (z ≤ Z.of_nat (2 * 4))%Z.
Proof.
  assert (Hs : has_shape x_under 2 4) by (split; [reflexivity|repeat constructor]).
  assert (Hden : denominator (ESS_scan x_under) = Fin (Q2Qc 2))
    by by_evaluation.
  split; [exact Hs|]. split; [exact Hden|].
  apply (proj2 (proj1 (ESS_le_sample_count x_under 2 4 Hs ltac:(lia) ltac:(lia)))
           (Q2Qc 2) Hden).
  left. by_evaluation.
Defined.

(** C8, as the specification states it, fails: for the four chains of two
    draws [2, 4], [3, 0], [1, 4] and [2, 1] the denominator is 1/8 and
    both functions return 64, which is more than [m*n = 8].  Every
    intermediate value is a binary64 number, and the binary64 evaluation
    gives the same. *)
Lemma ESS_exceeds_sample_count :
  let xo := F64.of_ints over_ints in
  has_shape x_over 4 2
  ∧ finite_entries x_over
  ∧ denominator (ESS_scan x_over) = Fin (Q2Qc (1 # 8))
  ∧ denominator (my_ESS_scan x_over) = Fin (Q2Qc (1 # 8))
  ∧ ESS x_over = Ok 64%Z ∧ my_ESS x_over = Ok 64%Z
  ∧ ¬ (64 ≤ Z.of_nat (4 * 2))%Z
  ∧ F64.valid xo 4 2
  ∧ F64.denominator (F64.ESS_scan xo) = F64.fdiv (F64.of_int 1) (F64.of_int 8)
  ∧ F64.denominator (F64.my_ESS_scan xo) = F64.fdiv (F64.of_int 1) (F64.of_int 8)
  ∧ F64.ESS xo = Ok 64%Z ∧ F64.my_ESS xo = Ok 64%Z.
Proof.
  intros xo.
  split; [split; [reflexivity|repeat constructor]|].
  split; [repeat constructor; by eexists|].
  do 4 (split; [by_evaluation|]).
  split; [simpl; lia|].
  split; [valid_by_evaluation|].
  repeat split; by_float_evaluation.
Qed.

(** C9.  There is a valid chain matrix on which the final denominator
    [1 + 2 * Σ rho[1:t_stop]] is negative and both functions return, with
    no error, a negative integer. *)
Theorem negative_denominator_gives_negative_ESS :
  ∃ (x : matrix) (m n : nat),
    has_shape x m n ∧ 2 ≤ m ∧ 2 ≤ n ∧ finite_entries x
    ∧ (∃ d : Qc, denominator (ESS_scan x) = Fin d
                 ∧ denominator (my_ESS_scan x) = Fin d ∧ (d < 0)%Qc)
    ∧ ∃ z : Z, ESS x = Ok z ∧ my_ESS x = Ok z ∧ (z < 0)%Z.
Proof.
  exists x_neg, 2, 2.
  split; [apply has_shape_concrete_2_2|].
  split; [lia|]. split; [lia|].
  split; [repeat constructor; by eexists|].
  split.
  - exists (Q2Qc (-1)). repeat split; by_evaluation.
  - exists (-4)%Z. repeat split; try by_evaluation.
Qed.

(** ** Adding a constant to every entry *)

Section shift.
Variable c : Qc.

Local Abbreviation plus_c := (λ a : npfloat, fadd a (Fin c)).

Lemma has_shape_shift (x : matrix) (m n : nat) :
  has_shape x m n → has_shape (mat_shift (Fin c) x) m n.
Proof.
  intros [Hm Hn]. unfold mat_shift. split; [by rewrite length_map|].
  apply Forall_fmap. eapply Forall_impl; [exact Hn|].
  intros r Hr. simpl. by rewrite length_map.
Qed.

Lemma fsub_shift (a b : npfloat) :
  is_finite a → is_finite b → fsub (plus_c a) (plus_c b) = fsub a b.
Proof. intros [p ->] [q ->]. simpl. f_equal. ring. Qed.

Lemma np_sum_finite (l : list npfloat) :
  Forall is_finite l → is_finite (np_sum l).
Proof.
  induction 1 as [|a l [p ->] _ [q IH]]; simpl; [by eexists|].
  fold (np_sum l). rewrite IH. by eexists.
Qed.

Lemma np_sum_shift (l : list npfloat) :
  Forall is_finite l →
  np_sum (map plus_c l)
  = fadd (np_sum l) (Fin (Qc_of_Z (Z.of_nat (length l)) * c)%Qc).
Proof.
  induction 1 as [|a l [p ->] Hl IH].
  - change (Fin 0%Qc = Fin (0 + Qc_of_Z 0 * c)%Qc). apply (f_equal Fin).
    rewrite Z2Qc_inj_0. ring.
  - destruct (np_sum_finite l Hl) as [q Hq].
    change (np_sum (map plus_c (Fin p :: l)))
      with (fadd (Fin (p + c)%Qc) (np_sum (map plus_c l))).
    change (np_sum (Fin p :: l)) with (fadd (Fin p) (np_sum l)).
    rewrite IH, Hq. cbn [fadd length]. apply (f_equal Fin).
    rewrite Nat2Z.inj_succ, <- Z.add_1_r, Z2Qc_inj_add, Z2Qc_inj_1. ring.
Qed.

Lemma Qc_of_nat_nonzero (k : nat) : 1 ≤ k → Qc_of_Z (Z.of_nat k) ≠ 0%Qc.
Proof. intros Hk E. rewrite <- Z2Qc_inj_0 in E. apply Z2Qc_inj in E. lia. Qed.

Lemma mean_finite (l : list npfloat) :
  Forall is_finite l → 1 ≤ length l → is_finite (mean l).
Proof.
  intros Hl Hne. destruct (np_sum_finite l Hl) as [q Hq].
  unfold mean, of_nat, of_Z. rewrite Hq, fdiv_fin by by apply Qc_of_nat_nonzero.
  by eexists.
Qed.

Lemma mean_shift (l : list npfloat) :
  Forall is_finite l → 1 ≤ length l → mean (map plus_c l) = plus_c (mean l).
Proof.
  intros Hl Hne. destruct (np_sum_finite l Hl) as [q Hq].
  pose proof (Qc_of_nat_nonzero (length l) Hne) as Hk.
  unfold mean, of_nat, of_Z. rewrite length_map, np_sum_shift, Hq by done.
  cbn [fadd]. rewrite !fdiv_fin by done. cbn [fadd]. apply (f_equal Fin).
  by field.
Qed.

Lemma concat_shift (x : matrix) :
  concat (mat_shift (Fin c) x) = map plus_c (concat x).
Proof.
  unfold mat_shift. induction x as [|r x IH]; simpl; [done|].
  by rewrite map_app, IH.
Qed.

Lemma zip_with_shift (l k : list npfloat) :
  Forall is_finite l → Forall is_finite k →
  zip_with fsub (map plus_c l) (map plus_c k) = zip_with fsub l k.
Proof.
  intros Hl. revert k. induction Hl as [|a l Ha Hl IH]; intros k Hk; [done|].
  destruct Hk as [|b k Hb Hk]; [done|].
  simpl. f_equal; [by apply fsub_shift|]. by apply IH.
Qed.
End shift.

Lemma rows_finite_shaped (x : matrix) (m n : nat) :
  has_shape x m n → finite_entries x →
  Forall (λ r, length r = n ∧ Forall is_finite r) x.
Proof. intros [_ Hn] Hf. apply Forall_and. by split. Qed.

Lemma row_means_shift (c : Qc) (x : matrix) (m n : nat) :
  has_shape x m n → 1 ≤ n → finite_entries x →
  row_means (mat_shift (Fin c) x) = map (λ a, fadd a (Fin c)) (row_means x).
Proof.
  intros Hs Hn Hf. unfold row_means, mat_shift. rewrite !map_map.
  apply Forall_fmap_ext.
  eapply Forall_impl; [exact (rows_finite_shaped x m n Hs Hf)|].
  intros r [Hl Hr]. simpl. apply mean_shift; [done|lia].
Qed.

Lemma row_means_finite (x : matrix) (m n : nat) :
  has_shape x m n → 1 ≤ n → finite_entries x → Forall is_finite (row_means x).
Proof.
  intros Hs Hn Hf. unfold row_means. apply Forall_fmap.
  eapply Forall_impl; [exact (rows_finite_shaped x m n Hs Hf)|].
  intros r [Hl Hr]. simpl. apply mean_finite; [done|lia].
Qed.

Lemma concat_finite (x : matrix) : finite_entries x → Forall is_finite (concat x).
Proof. intros Hf. by apply Forall_concat. Qed.

Lemma grand_mean_shift (c : Qc) (x : matrix) (m n : nat) :
  has_shape x m n → 1 ≤ m → 1 ≤ n → finite_entries x →
  grand_mean (mat_shift (Fin c) x) = fadd (grand_mean x) (Fin c).
Proof.
  intros Hs Hm Hn Hf. unfold grand_mean. rewrite concat_shift.
  apply mean_shift; [by apply concat_finite|].
  rewrite (concat_length_shape x m n Hs). nia.
Qed.

Lemma grand_mean_finite (x : matrix) (m n : nat) :
  has_shape x m n → 1 ≤ m → 1 ≤ n → finite_entries x → is_finite (grand_mean x).
Proof.
  intros Hs Hm Hn Hf. apply mean_finite; [by apply concat_finite|].
  rewrite (concat_length_shape x m n Hs). nia.
Qed.

Lemma between_chain_shift (c : Qc) (x : matrix) (m n : nat) :
  has_shape x m n → 1 ≤ m → 1 ≤ n → finite_entries x →
  between_chain (mat_shift (Fin c) x) m = between_chain x m.
Proof.
  intros Hs Hm Hn Hf. unfold between_chain. f_equal.
  rewrite (row_means_shift c x m n), (grand_mean_shift c x m n) by done.
  rewrite map_map. f_equal. apply Forall_fmap_ext.
  eapply Forall_impl; [exact (row_means_finite x m n Hs Hn Hf)|].
  intros mu Hmu. simpl. rewrite fsub_shift; [done|done|].
  by apply (grand_mean_finite x m n).
Qed.

Lemma centre_rows_shift (c : Qc) (x : matrix) (m n : nat) :
  has_shape x m n → 1 ≤ n → finite_entries x →
  centre_rows (mat_shift (Fin c) x) = centre_rows x.
Proof.
  intros Hs Hn Hf. rewrite !centre_rows_map. unfold mat_shift.
  rewrite map_map. apply Forall_fmap_ext.
  eapply Forall_impl; [exact (rows_finite_shaped x m n Hs Hf)|].
  intros r [Hl Hr]. simpl. rewrite map_map, mean_shift by (done || lia).
  apply Forall_fmap_ext. eapply Forall_impl; [exact Hr|].
  intros a Ha. simpl. apply fsub_shift; [done|].
  apply mean_finite; [done|lia].
Qed.

Lemma my_gelman_rubin_shift (c : Qc) (x : matrix) (m n : nat) :
  has_shape x m n → 1 ≤ m → 1 ≤ n → finite_entries x →
  my_gelman_rubin (mat_shift (Fin c) x) = my_gelman_rubin x.
Proof.
  intros Hs Hm Hn Hf. unfold my_gelman_rubin.
  rewrite (shape_has_shape _ m n (has_shape_shift c x m n Hs) Hm).
  rewrite (shape_has_shape x m n Hs Hm).
  by rewrite (between_chain_shift c x m n), (centre_rows_shift c x m n).
Qed.

Lemma my_variogram_shift (c : Qc) (x : matrix) (m n t : nat) :
  finite_entries x →
  my_variogram (mat_shift (Fin c) x) m n t = my_variogram x m n t.
Proof.
  intros Hf. unfold my_variogram. do 3 f_equal.
  rewrite !mat_sub_lagged. unfold mat_shift. rewrite map_map.
  apply Forall_fmap_ext. eapply Forall_impl; [exact Hf|].
  intros r Hr. simpl. rewrite <- fmap_drop, <- fmap_take.
  apply zip_with_shift; [by apply Forall_drop|by apply Forall_take].
Qed.

Lemma ESS_scan_shift (c : Qc) (x : matrix) (m n : nat) :
  has_shape x m n → 1 ≤ m → 1 ≤ n → finite_entries x →
  my_ESS_scan (mat_shift (Fin c) x) = my_ESS_scan x.
Proof.
  intros Hs Hm Hn Hf.
  rewrite (my_ESS_scan_unfold _ m n (has_shape_shift c x m n Hs) Hm).
  rewrite (my_ESS_scan_unfold x m n Hs Hm).
  rewrite (my_gelman_rubin_shift c x m n) by done.
  apply scan_ext. intros t _. by apply my_variogram_shift.
Qed.

(** C10.  On every chain matrix of shape (m, n) with m >= 2, n >= 2 and
    finite entries, adding a finite constant [c] to every entry changes
    neither the variance estimate, nor the variogram at any lag up to [n],
    nor the scan, nor the value returned, in either function. *)
Theorem ESS_shift_invariant (x : matrix) (m n : nat) (c : Qc) :
  has_shape x m n → 2 ≤ m → 2 ≤ n → finite_entries x →
  let x' := mat_shift (Fin c) x in
  my_gelman_rubin x' = my_gelman_rubin x
  ∧ gelman_rubin x' = gelman_rubin x
  ∧ (∀ t, t ≤ n → my_variogram x' m n t = my_variogram x m n t)
  ∧ (∀ t, t ≤ n → variogram x' m n t = variogram x m n t)
  ∧ my_ESS_scan x' = my_ESS_scan x
  ∧ ESS_scan x' = ESS_scan x
  ∧ my_ESS x' = my_ESS x
  ∧ ESS x' = ESS x.
Proof.
  intros Hs Hm Hn Hf x'.
  assert (1 ≤ m) as Hm1 by lia. assert (1 ≤ n) as Hn1 by lia.
  pose proof (has_shape_shift c x m n Hs) as Hs'. fold x' in Hs'.
  assert (Hg : my_gelman_rubin x' = my_gelman_rubin x)
    by by apply (my_gelman_rubin_shift c x m n).
  assert (Hsc : my_ESS_scan x' = my_ESS_scan x)
    by by apply (ESS_scan_shift c x m n).
  split; [done|]. split; [by rewrite <- !gelman_rubin_agree|].
  split; [intros t _; by apply my_variogram_shift|].
  split.
  { intros t Ht. rewrite <- !variogram_agree by done. by apply my_variogram_shift. }
  split; [done|].
  split; [by rewrite <- (ESS_scan_agree x' m n), <- (ESS_scan_agree x m n)|].
  assert (my_ESS x' = my_ESS x) as Hmy.
  { rewrite (my_ESS_unfold x' m n), (my_ESS_unfold x m n) by done. by rewrite Hsc. }
  split; [done|].
  by rewrite <- (ESS_agree x' m n), <- (ESS_agree x m n).
Qed.

Lemma ESS_shift_invariant_witness :
  has_shape x_alt 2 5 ∧ finite_entries x_alt
  ∧ ESS (mat_shift (Fin (Q2Qc (7 # 2))) x_alt) = ESS x_alt.
Proof.
  assert (Hs : has_shape x_alt 2 5) by (split; [reflexivity|repeat constructor]).
  assert (Hf : finite_entries x_alt) by (repeat constructor; eexists; reflexivity).
  split; [exact Hs|]. split; [exact Hf|].
  pose proof (ESS_shift_invariant x_alt 2 5 (Q2Qc (7 # 2)) Hs
                ltac:(lia) ltac:(lia) Hf) as H.
  exact (proj2 (proj2 (proj2 (proj2 (proj2 (proj2 (proj2 H))))))).
Defined.

(** * Further properties of the code *)

(** ** Rational arithmetic *)

Ltac qc_to_q :=
  unfold Qcle, Qclt, Qcdiv, Qcminus, Qcplus, Qcmult, Qcopp, Qcinv, Q2Qc in *;
  cbn [this] in *; rewrite ?Qred_correct in *.

Lemma Qc_sq_nonneg (p : Qc) : (0 ≤ p * p)%Qc.
Proof. qc_to_q. nra. Qed.

Lemma Qc_add_nonneg (p q : Qc) : (0 ≤ p)%Qc → (0 ≤ q)%Qc → (0 ≤ p + q)%Qc.
Proof. intros. qc_to_q. lra. Qed.

Lemma Qc_mul_nonneg (p k : Qc) : (0 ≤ p)%Qc → (0 ≤ k)%Qc → (0 ≤ p * k)%Qc.
Proof. intros. qc_to_q. nra. Qed.

Lemma Qc_div_nonneg (p k : Qc) : (0 ≤ p)%Qc → (0 < k)%Qc → (0 ≤ p / k)%Qc.
Proof. intros Hp Hk. qc_to_q. apply Qle_shift_div_l; lra. Qed.

Lemma Qc_add_zero (p q : Qc) :
  (0 ≤ p)%Qc → (0 ≤ q)%Qc → (p + q)%Qc = 0%Qc → p = 0%Qc ∧ q = 0%Qc.
Proof.
  intros Hp Hq E. apply (f_equal this) in E.
  split; apply Qc_is_canon; qc_to_q.
  all: assert (E' : (p + q == 0)%Q)
         by (rewrite <- (Qred_correct (p + q)), E; reflexivity).
  all: lra.
Qed.

Lemma Qc_sq_zero (p : Qc) : (p * p)%Qc = 0%Qc → p = 0%Qc.
Proof. intros E. by destruct (Qcmult_integral _ _ E). Qed.

Lemma Qc_of_nat_pos (k : nat) : 1 ≤ k → (0 < Qc_of_Z (Z.of_nat k))%Qc.
Proof. intros Hk. rewrite <- Z2Qc_inj_0. apply (proj1 (Z2Qc_inj_lt 0 _)). lia. Qed.

Lemma Qc_of_Z_pos (z : Z) : (0 < z)%Z → (0 < Qc_of_Z z)%Qc.
Proof. intros Hz. rewrite <- Z2Qc_inj_0. by apply (proj1 (Z2Qc_inj_lt 0 _)). Qed.

(** ** Finite and non-negative values *)

Lemma Fin_inj (p q : Qc) : Fin p = Fin q → p = q.
Proof.
  intros H. exact (f_equal (λ a, match a with Fin r => r | _ => p end) H).
Qed.

Lemma nonneg_finite (a : npfloat) : nonneg a → is_finite a.
Proof. intros (q & -> & _). by eexists. Qed.

Lemma fsq_nonneg (a : npfloat) : is_finite a → nonneg (fsq a).
Proof. intros [p ->]. eexists. split; [reflexivity|]. apply Qc_sq_nonneg. Qed.

Lemma fsub_finite (a b : npfloat) : is_finite a → is_finite b → is_finite (fsub a b).
Proof. intros [p ->] [q ->]. by eexists. Qed.

Lemma fadd_nonneg (a b : npfloat) : nonneg a → nonneg b → nonneg (fadd a b).
Proof.
  intros (p & -> & Hp) (q & -> & Hq). eexists. split; [reflexivity|].
  by apply Qc_add_nonneg.
Qed.

Lemma fmul_nonneg (a b : npfloat) : nonneg a → nonneg b → nonneg (fmul a b).
Proof.
  intros (p & -> & Hp) (q & -> & Hq). eexists. split; [reflexivity|].
  by apply Qc_mul_nonneg.
Qed.

Lemma fdiv_nonneg (a : npfloat) (k : Qc) :
  nonneg a → (0 < k)%Qc → nonneg (fdiv a (Fin k)).
Proof.
  intros (p & -> & Hp) Hk.
  rewrite fdiv_fin by (intros ->; by apply Qclt_not_eq in Hk).
  eexists. split; [reflexivity|]. by apply Qc_div_nonneg.
Qed.

Lemma np_sum_nonneg (l : list npfloat) : Forall nonneg l → nonneg (np_sum l).
Proof.
  induction 1 as [|a l Ha _ IH].
  - exists 0%Qc. split; [done|]. apply Qcle_refl.
  - change (np_sum (a :: l)) with (fadd a (np_sum l)). by apply fadd_nonneg.
Qed.

(** A sum of non-negative terms is zero only when every term is. *)
Lemma np_sum_nonneg_zero (l : list npfloat) :
  Forall nonneg l → np_sum l = Fin 0%Qc → Forall (λ a, a = Fin 0%Qc) l.
Proof.
  induction 1 as [|a l (p & -> & Hp) Hl IH]; intros Hz; [done|].
  destruct (np_sum_nonneg l Hl) as (q & Hq & Hq0).
  change (np_sum (Fin p :: l)) with (fadd (Fin p) (np_sum l)) in Hz.
  rewrite Hq in Hz. cbn [fadd] in Hz. apply Fin_inj in Hz.
  destruct (Qc_add_zero p q Hp Hq0 Hz) as [-> ->].
  constructor; [done|]. by apply IH.
Qed.

Lemma of_Z_nonneg (z : Z) : (0 ≤ z)%Z → nonneg (of_Z z).
Proof.
  intros Hz. eexists. split; [reflexivity|].
  rewrite <- Z2Qc_inj_0. by apply (proj1 (Z2Qc_inj_le 0 _)).
Qed.

Lemma fdiv_nonneg_Z (a : npfloat) (z : Z) :
  nonneg a → (0 < z)%Z → nonneg (fdiv a (of_Z z)).
Proof. intros Ha Hz. apply fdiv_nonneg; [done|]. by apply Qc_of_Z_pos. Qed.

(** ** The variance estimate is finite and not negative *)

Lemma between_chain_nonneg (x : matrix) (m n : nat) :
  has_shape x m n → 2 ≤ m → 1 ≤ n → finite_entries x →
  nonneg (between_chain x m).
Proof.
  intros Hs Hm Hn Hf. unfold between_chain.
  apply fdiv_nonneg_Z; [|lia]. apply np_sum_nonneg, Forall_fmap.
  eapply Forall_impl; [exact (row_means_finite x m n Hs Hn Hf)|].
  intros mu Hmu. simpl. apply fsq_nonneg, fsub_finite; [done|].
  apply (grand_mean_finite x m n); (done || lia).
Qed.

Lemma squared_deviations_nonneg (x : matrix) (m n : nat) :
  has_shape x m n → 1 ≤ n → finite_entries x →
  Forall (Forall nonneg) (mat_sq (centre_rows x)).
Proof.
  intros Hs Hn Hf. rewrite centre_rows_map. unfold mat_sq.
  rewrite map_map. apply Forall_fmap.
  eapply Forall_impl; [exact (rows_finite_shaped x m n Hs Hf)|].
  intros r [Hl Hr]. simpl. rewrite map_map. apply Forall_fmap.
  eapply Forall_impl; [exact Hr|].
  intros a Ha. simpl. apply fsq_nonneg, fsub_finite; [done|].
  apply mean_finite; [done|lia].
Qed.

Lemma within_chain_nonneg (x : matrix) (m n : nat) :
  has_shape x m n → 1 ≤ m → 2 ≤ n → finite_entries x →
  nonneg (fdiv (mat_sum (mat_sq (centre_rows x)))
               (of_Z (Z.of_nat m * (Z.of_nat n - 1)))).
Proof.
  intros Hs Hm Hn Hf. apply fdiv_nonneg_Z; [|nia].
  apply np_sum_nonneg, Forall_concat.
  apply (squared_deviations_nonneg x m n); (done || lia).
Qed.

Lemma my_gelman_rubin_nonneg (x : matrix) (m n : nat) :
  has_shape x m n → 2 ≤ m → 2 ≤ n → finite_entries x →
  nonneg (my_gelman_rubin x).
Proof.
  intros Hs Hm Hn Hf. unfold my_gelman_rubin.
  rewrite (shape_has_shape x m n Hs) by lia.
  apply fadd_nonneg; [|apply (between_chain_nonneg x m n); (done || lia)].
  unfold of_nat. apply fdiv_nonneg_Z; [|lia].
  apply fmul_nonneg; [|apply of_Z_nonneg; lia].
  apply (within_chain_nonneg x m n); (done || lia).
Qed.

(** X1.  On a chain matrix of shape (m, n) with m >= 2, n >= 2 and finite
    entries, both variance estimates return one and the same finite
    number, and it is not negative: no [nan], no infinity. *)
Theorem gelman_rubin_finite_nonneg (x : matrix) (m n : nat) :
  has_shape x m n → 2 ≤ m → 2 ≤ n → finite_entries x →
  ∃ q : Qc, gelman_rubin x = Fin q ∧ my_gelman_rubin x = Fin q ∧ (0 ≤ q)%Qc.
Proof.
  intros Hs Hm Hn Hf.
  destruct (my_gelman_rubin_nonneg x m n Hs Hm Hn Hf) as (q & Hq & Hq0).
  exists q. by rewrite <- gelman_rubin_agree.
Qed.

Lemma gelman_rubin_finite_nonneg_witness :
  has_shape x_alt 2 5 ∧ finite_entries x_alt
  ∧ ∃ q : Qc, gelman_rubin x_alt = Fin q ∧ my_gelman_rubin x_alt = Fin q ∧ (0 ≤ q)%Qc.
Proof.
  assert (Hs : has_shape x_alt 2 5) by (split; [reflexivity|repeat constructor]).
  assert (Hf : finite_entries x_alt) by (repeat constructor; eexists; reflexivity).
  split; [exact Hs|]. split; [exact Hf|].
  exact (gelman_rubin_finite_nonneg x_alt 2 5 Hs ltac:(lia) ltac:(lia) Hf).
Defined.

(** ** The variogram is finite and not negative *)

Lemma lag_diffs_finite (r : list npfloat) (t k : nat) :
  Forall is_finite r → Forall is_finite (zip_with fsub (drop t r) (take k r)).
Proof.
  intros Hr.
  assert (Hd : Forall is_finite (drop t r)) by by apply Forall_drop.
  assert (Ht : Forall is_finite (take k r)) by by apply Forall_take.
  revert Ht. generalize (take k r). induction Hd as [|a l Ha _ IH]; intros l' Hl'; [done|].
  destruct Hl' as [|b l' Hb Hl']; [done|].
  simpl. constructor; [by apply fsub_finite|by apply IH].
Qed.

Lemma my_variogram_nonneg (x : matrix) (m n t : nat) :
  1 ≤ m → t < n → finite_entries x → nonneg (my_variogram x m n t).
Proof.
  intros Hm Ht Hf. unfold my_variogram. apply fdiv_nonneg_Z; [|nia].
  apply np_sum_nonneg, Forall_concat.
  rewrite mat_sub_lagged. unfold mat_sq. rewrite map_map. apply Forall_fmap.
  eapply Forall_impl; [exact Hf|].
  intros r Hr. simpl. apply Forall_fmap.
  eapply Forall_impl; [exact (lag_diffs_finite r t (n - t) Hr)|].
  intros a Ha. simpl. by apply fsq_nonneg.
Qed.

(** ** The autocorrelation estimates when the variance estimate is positive *)

Lemma Qc_two_pos (p : Qc) : (0 < p)%Qc → (0 < 2 * p)%Qc.
Proof. intros. qc_to_q. lra. Qed.

Lemma rho_at_finite (v : nat → npfloat) (t : nat) (vq p : Qc) :
  v t = Fin vq → (0 ≤ vq)%Qc → (0 < p)%Qc →
  ∃ r, rho_at v (Fin p) t = Fin r ∧ (r ≤ 1)%Qc.
Proof.
  intros Hv Hvq Hp. unfold rho_at. rewrite Hv. cbn [fmul].
  pose proof (Qc_two_pos p Hp) as H2.
  rewrite fdiv_fin by (intros E; rewrite E in H2; by apply Qclt_not_eq in H2).
  eexists. split; [reflexivity|].
  pose proof (Qc_div_nonneg vq (2 * p) Hvq H2) as Hd.
  clear -Hd. qc_to_q. lra.
Qed.

Lemma variogram_nonneg (x : matrix) (m n t : nat) :
  has_shape x m n → 1 ≤ m → t < n → finite_entries x →
  nonneg (variogram x m n t).
Proof.
  intros Hs Hm Ht Hf. rewrite <- variogram_agree by (done || lia).
  by apply my_variogram_nonneg.
Qed.

(** X2, in exact arithmetic.  On a valid chain matrix with finite entries,
    the variogram of each function is, at every lag 1 .. n-1, a finite
    number that is not negative; and when the variance estimate of a
    function is positive, each of its autocorrelation estimates
    [1 - variogram(t)/(2*post_var)] is a finite number that is at most
    1. *)
Theorem variogram_nonneg_rho_le_one (x : matrix) (m n : nat) :
  has_shape x m n → 2 ≤ m → 2 ≤ n → finite_entries x →
  (∀ t, 1 ≤ t < n → nonneg (variogram x m n t) ∧ nonneg (my_variogram x m n t))
  ∧ (∀ p : Qc, gelman_rubin x = Fin p → (0 < p)%Qc →
     ∀ t, 1 ≤ t < n →
       ∃ r : Qc,
         fsub (Fin 1%Qc) (fdiv (variogram x m n t) (fmul (Fin 2%Qc) (gelman_rubin x)))
         = Fin r ∧ (r ≤ 1)%Qc)
  ∧ (∀ p : Qc, my_gelman_rubin x = Fin p → (0 < p)%Qc →
     ∀ t, 1 ≤ t < n →
       ∃ r : Qc,
         fsub (Fin 1%Qc)
              (fdiv (my_variogram x m n t) (fmul (Fin 2%Qc) (my_gelman_rubin x)))
         = Fin r ∧ (r ≤ 1)%Qc).
Proof.
  intros Hs Hm Hn Hf. split; [|split].
  - intros t Ht. split; [apply variogram_nonneg; (done || lia)|].
    apply my_variogram_nonneg; (done || lia).
  - intros p Hp Hp0 t Ht. rewrite Hp.
    destruct (variogram_nonneg x m n t Hs) as (vq & Hv & Hv0); try (done || lia).
    by apply (rho_at_finite (variogram x m n) t vq p).
  - intros p Hp Hp0 t Ht. rewrite Hp.
    destruct (my_variogram_nonneg x m n t) as (vq & Hv & Hv0); try (done || lia).
    by apply (rho_at_finite (my_variogram x m n) t vq p).
Qed.

Lemma variogram_nonneg_rho_le_one_witness :
  has_shape x_stop 2 4 ∧ finite_entries x_stop
  ∧ ∀ t, 1 ≤ t < 4 →
      nonneg (variogram x_stop 2 4 t) ∧ nonneg (my_variogram x_stop 2 4 t).
Proof.
  assert (Hs : has_shape x_stop 2 4) by (split; [reflexivity|repeat constructor]).
  assert (Hf : finite_entries x_stop) by (repeat constructor; eexists; reflexivity).
  split; [exact Hs|]. split; [exact Hf|].
  exact (proj1 (variogram_nonneg_rho_le_one x_stop 2 4 Hs ltac:(lia) ltac:(lia) Hf)).
Defined.

(** ** Which outcome [int] gives *)

Lemma big_sum_finite (f : nat → npfloat) (lo hi : nat) :
  (∀ t, lo ≤ t < hi → is_finite (f t)) → is_finite (big_sum f lo hi).
Proof.
  intros Hf. unfold big_sum. apply np_sum_finite, Forall_fmap.
  apply Forall_forall. intros t Ht%elem_of_seq. simpl. apply Hf. lia.
Qed.

Lemma scan_t_le (v : nat → npfloat) (pv : npfloat) (n : nat) :
  1 ≤ n → 1 ≤ st_t (scan v pv n) ≤ n.
Proof.
  intros Hn. destruct (scan_exits v pv n) as [[Hpos Hle _ _ _] _]. lia.
Qed.

Lemma denominator_finite (v : nat → npfloat) (pv : npfloat) (n : nat) :
  1 ≤ n → (∀ t, 1 ≤ t < n → is_finite (rho_at v pv t)) →
  is_finite (denominator (scan v pv n)).
Proof.
  intros Hn Hrho. destruct (scan_exits v pv n) as [Hinv _].
  unfold denominator. rewrite (rho_sum_inv v pv n _ Hinv).
  destruct (big_sum_finite (rho_at v pv) 1 (st_t (scan v pv n))) as [q Hq].
  { intros t Ht. apply Hrho. pose proof (scan_t_le v pv n Hn). lia. }
  rewrite Hq. by eexists.
Qed.

Lemma ess_return_finite (m n : nat) (s : scan_state) (d : Qc) :
  1 ≤ m → 1 ≤ n → denominator s = Fin d →
  (d = 0%Qc → ess_return n m s = OverflowError)
  ∧ (d ≠ 0%Qc →
     ess_return n m s = Ok (truncate (Qc_of_Z (Z.of_nat m * Z.of_nat n) / d)%Qc)).
Proof.
  intros Hm Hn Hd. unfold ess_return, of_Z. rewrite Hd. split.
  - intros ->. cbn [fdiv].
    assert ((0 ?= 0)%Qc = Eq) as -> by by apply Qceq_alt.
    assert (0 < Qc_of_Z (Z.of_nat m * Z.of_nat n))%Qc as Hpos
      by (apply Qc_of_Z_pos; nia).
    apply Qclt_alt in Hpos. apply Qcgt_alt in Hpos.
    by rewrite Hpos.
  - intros Hnz. by rewrite fdiv_fin.
Qed.

(** The outcome of a scan whose variograms are finite and not negative
    and whose variance estimate is positive. *)
Lemma scan_outcome_positive_variance (v : nat → npfloat) (p : Qc) (m n : nat) :
  1 ≤ m → 1 ≤ n → (∀ t, 1 ≤ t < n → nonneg (v t)) → (0 < p)%Qc →
  ∃ d : Qc,
    denominator (scan v (Fin p) n) = Fin d
    ∧ (d = 0%Qc → ess_return n m (scan v (Fin p) n) = OverflowError)
    ∧ (d ≠ 0%Qc →
       ess_return n m (scan v (Fin p) n)
       = Ok (truncate (Qc_of_Z (Z.of_nat m * Z.of_nat n) / d)%Qc)).
Proof.
  intros Hm Hn Hv Hp.
  destruct (denominator_finite v (Fin p) n Hn) as [d Hd].
  { intros t Ht. destruct (Hv t Ht) as (vq & Hvq & Hv0).
    destruct (rho_at_finite v t vq p Hvq Hv0 Hp) as (r & Hr & _).
    by eexists. }
  exists d. split; [done|].
  exact (ess_return_finite m n _ d Hm Hn Hd).
Qed.

(** X3, in exact arithmetic.  On a valid chain matrix with finite entries,
    a function whose variance estimate is positive ends with a final
    denominator that is a finite number [d], and it never raises
    [ValueError]: it raises [OverflowError] when [d = 0] and otherwise
    returns [m*n / d] truncated toward zero. *)
Theorem ESS_outcome_positive_variance (x : matrix) (m n : nat) :
  has_shape x m n → 2 ≤ m → 2 ≤ n → finite_entries x →
  (∀ p : Qc, gelman_rubin x = Fin p → (0 < p)%Qc →
     ∃ d : Qc,
       denominator (ESS_scan x) = Fin d
       ∧ (d = 0%Qc → ESS x = OverflowError)
       ∧ (d ≠ 0%Qc →
          ESS x = Ok (truncate (Qc_of_Z (Z.of_nat m * Z.of_nat n) / d)%Qc)))
  ∧ (∀ p : Qc, my_gelman_rubin x = Fin p → (0 < p)%Qc →
       ∃ d : Qc,
         denominator (my_ESS_scan x) = Fin d
         ∧ (d = 0%Qc → my_ESS x = OverflowError)
         ∧ (d ≠ 0%Qc →
            my_ESS x = Ok (truncate (Qc_of_Z (Z.of_nat m * Z.of_nat n) / d)%Qc))).
Proof.
  intros Hs Hm Hn Hf.
  assert (1 ≤ m) as Hm1 by lia. assert (1 ≤ n) as Hn1 by lia.
  rewrite (ESS_unfold x m n Hs Hm1), (my_ESS_unfold x m n Hs Hm1).
  rewrite (ESS_scan_unfold x m n Hs Hm1), (my_ESS_scan_unfold x m n Hs Hm1).
  split; intros p Hp Hp0; rewrite Hp.
  - apply scan_outcome_positive_variance; try done.
    intros t Ht. apply variogram_nonneg; (done || lia).
  - apply scan_outcome_positive_variance; try done.
    intros t Ht. apply my_variogram_nonneg; (done || lia).
Qed.

Lemma ESS_outcome_positive_variance_witness :
  has_shape x_zero_den 3 2 ∧ finite_entries x_zero_den
  ∧ gelman_rubin x_zero_den = Fin (Q2Qc (4 # 1))
  ∧ ∃ d : Qc, denominator (ESS_scan x_zero_den) = Fin d
      ∧ (d = 0%Qc → ESS x_zero_den = OverflowError)
      ∧ (d ≠ 0%Qc →
         ESS x_zero_den = Ok (truncate (Qc_of_Z (Z.of_nat 3 * Z.of_nat 2) / d)%Qc)).
Proof.
  assert (Hs : has_shape x_zero_den 3 2) by (split; [reflexivity|repeat constructor]).
  assert (Hf : finite_entries x_zero_den) by (repeat constructor; eexists; reflexivity).
  assert (Hp : gelman_rubin x_zero_den = Fin (Q2Qc (4 # 1))) by by_evaluation.
  split; [exact Hs|]. split; [exact Hf|]. split; [exact Hp|].
  apply (proj1 (ESS_outcome_positive_variance x_zero_den 3 2 Hs
                  ltac:(lia) ltac:(lia) Hf) (Q2Qc (4 # 1)) Hp).
  by_evaluation.
Defined.

(** ** Scans whose estimates are all [nan] *)

Lemma fadd_nan_r (a : npfloat) : fadd a NaN = NaN.
Proof. by destruct a. Qed.

Lemma fires_nan (rho : nat → npfloat) (t : nat) : rho t = NaN → fires rho t = false.
Proof.
  intros H. unfold fires, pair_negative. rewrite H, fadd_nan_r.
  apply andb_false_r.
Qed.

Lemma big_sum_nan (rho : nat → npfloat) (hi : nat) :
  2 ≤ hi → rho 1 = NaN → big_sum rho 1 hi = NaN.
Proof.
  intros Hhi H1. unfold big_sum.
  replace (hi - 1) with (S (hi - 2)) by lia.
  change (np_sum (map rho (seq 1 (S (hi - 2)))))
    with (fadd (rho 1) (np_sum (map rho (seq 2 (hi - 2))))).
  by rewrite H1.
Qed.

(** When every estimate is [nan] the stop condition never fires, the scan
    runs to [t = n], and [int] raises [ValueError]. *)
Lemma scan_all_nan (v : nat → npfloat) (pv : npfloat) (m n : nat) :
  2 ≤ n → (∀ t, 1 ≤ t < n → rho_at v pv t = NaN) →
  st_t (scan v pv n) = n ∧ ess_return n m (scan v pv n) = ValueError.
Proof.
  intros Hn Hnan. destruct (scan_exits v pv n) as [Hinv Hc].
  assert (st_negative_autocorr (scan v pv n) = false) as Hflag.
  { destruct (st_negative_autocorr (scan v pv n)) eqn:E; [|done].
    destruct (scan_inv_fired v pv n _ Hinv E) as (tf & _ & Htf & Hf & _).
    rewrite fires_nan in Hf by (apply Hnan; lia). done. }
  destruct (scan_inv_exhausted v pv n _ Hinv Hc Hflag) as [Ht _]; [lia|].
  split; [done|].
  unfold ess_return, denominator. rewrite (rho_sum_inv v pv n _ Hinv), Ht.
  rewrite big_sum_nan by (done || apply Hnan; lia). done.
Qed.

(** ** A variance estimate of zero *)

Lemma fadd_nonneg_zero (a b : npfloat) :
  nonneg a → nonneg b → fadd a b = Fin 0%Qc → a = Fin 0%Qc ∧ b = Fin 0%Qc.
Proof.
  intros (p & -> & Hp) (q & -> & Hq) E. cbn [fadd] in E. apply Fin_inj in E.
  by destruct (Qc_add_zero p q Hp Hq E) as [-> ->].
Qed.

Lemma fdiv_zero_inv (a : npfloat) (k : Qc) :
  is_finite a → (0 < k)%Qc → fdiv a (Fin k) = Fin 0%Qc → a = Fin 0%Qc.
Proof.
  intros [p ->] Hk E.
  assert (k ≠ 0%Qc) as Hnz by (intros ->; by apply Qclt_not_eq in Hk).
  rewrite fdiv_fin in E by done. apply Fin_inj in E. f_equal.
  assert (p = (p / k * k)%Qc) as -> by (by field).
  rewrite E. ring.
Qed.

Lemma fmul_zero_inv (a : npfloat) (k : Qc) :
  is_finite a → (0 < k)%Qc → fmul a (Fin k) = Fin 0%Qc → a = Fin 0%Qc.
Proof.
  intros [p ->] Hk E. cbn [fmul] in E. apply Fin_inj in E. f_equal.
  destruct (Qcmult_integral _ _ E) as [? | ->]; [done|].
  by apply Qclt_not_eq in Hk.
Qed.

Lemma np_sum_zeros (l : list npfloat) :
  Forall (λ a, a = Fin 0%Qc) l → np_sum l = Fin 0%Qc.
Proof.
  induction 1 as [|a l -> _ IH]; [done|].
  change (np_sum (Fin 0%Qc :: l)) with (fadd (Fin 0%Qc) (np_sum l)).
  by rewrite IH, fadd_0_l.
Qed.

Lemma fsq_fsub_zero (a b : npfloat) :
  is_finite a → is_finite b → fsq (fsub a b) = Fin 0%Qc → a = b.
Proof.
  intros [p ->] [q ->] E. unfold fsq, fsub in E. cbn [fneg fadd fmul] in E.
  apply Fin_inj, Qc_sq_zero in E. f_equal.
  assert (p = (p + - q + q)%Qc) as -> by ring. rewrite E. ring.
Qed.

Lemma fsub_diag (a : npfloat) : is_finite a → fsub a a = Fin 0%Qc.
Proof. intros [p ->]. unfold fsub. cbn [fneg fadd]. f_equal. ring. Qed.

Lemma fsq_zero : fsq (Fin 0%Qc) = Fin 0%Qc.
Proof. unfold fsq. cbn [fmul]. apply (f_equal Fin). ring. Qed.

(** The sum of squared deviations that [W] divides. *)
Lemma my_gelman_rubin_zero_parts (x : matrix) (m n : nat) :
  has_shape x m n → 2 ≤ m → 2 ≤ n → finite_entries x →
  my_gelman_rubin x = Fin 0%Qc →
  mat_sum (mat_sq (centre_rows x)) = Fin 0%Qc ∧ between_chain x m = Fin 0%Qc.
Proof.
  intros Hs Hm Hn Hf. unfold my_gelman_rubin.
  rewrite (shape_has_shape x m n Hs) by lia. intros E.
  pose proof (within_chain_nonneg x m n Hs ltac:(lia) Hn Hf) as HW.
  pose proof (between_chain_nonneg x m n Hs Hm ltac:(lia) Hf) as HB.
  assert (nonneg (mat_sum (mat_sq (centre_rows x)))) as HS.
  { apply np_sum_nonneg, Forall_concat.
    apply (squared_deviations_nonneg x m n); (done || lia). }
  assert (nonneg (fmul (fdiv (mat_sum (mat_sq (centre_rows x)))
                          (of_Z (Z.of_nat m * (Z.of_nat n - 1))))
                    (of_Z (Z.of_nat n - 1)))) as HWn
    by (apply fmul_nonneg; [done|apply of_Z_nonneg; lia]).
  destruct (fadd_nonneg_zero _ _
              (fdiv_nonneg_Z _ (Z.of_nat n) HWn ltac:(lia)) HB E) as [E1 E2].
  split; [|done].
  apply (fdiv_zero_inv _ (Qc_of_Z (Z.of_nat n))) in E1;
    [|by apply nonneg_finite|apply Qc_of_Z_pos; lia].
  apply (fmul_zero_inv _ (Qc_of_Z (Z.of_nat n - 1))) in E1;
    [|by apply nonneg_finite|apply Qc_of_Z_pos; lia].
  apply (fdiv_zero_inv _ (Qc_of_Z (Z.of_nat m * (Z.of_nat n - 1)))) in E1;
    [done|by apply nonneg_finite|apply Qc_of_Z_pos; nia].
Qed.

Lemma rows_constant_of_zero (x : matrix) (m n : nat) :
  has_shape x m n → 1 ≤ n → finite_entries x →
  mat_sum (mat_sq (centre_rows x)) = Fin 0%Qc →
  Forall (λ r, Forall (λ a, a = mean r) r) x.
Proof.
  intros Hs Hn Hf E.
  pose proof (squared_deviations_nonneg x m n Hs Hn Hf) as Hnn.
  apply Forall_concat in Hnn.
  pose proof (np_sum_nonneg_zero _ Hnn E) as Hz.
  apply Forall_concat in Hz. revert Hz.
  rewrite centre_rows_map. unfold mat_sq. rewrite map_map.
  rewrite Forall_fmap. intros Hz.
  pose proof (rows_finite_shaped x m n Hs Hf) as Hrows.
  eapply Forall_impl; [apply Forall_and; split; [exact Hz|exact Hrows]|].
  intros r [Hr [Hl Hfin]]. simpl in Hr. rewrite map_map, Forall_fmap in Hr.
  eapply Forall_impl; [apply Forall_and; split; [exact Hr|exact Hfin]|].
  intros a [Ha Hfa]. simpl in Ha. apply fsq_fsub_zero; [done| |done].
  apply mean_finite; [done|lia].
Qed.

Lemma constant_lag_diffs (mu : npfloat) (l k : list npfloat) :
  is_finite mu → Forall (λ a, a = mu) l → Forall (λ a, a = mu) k →
  Forall (λ a, a = Fin 0%Qc) (map fsq (zip_with fsub l k)).
Proof.
  intros Hmu Hl. revert k. induction Hl as [|a l -> _ IH]; intros k Hk; [done|].
  destruct Hk as [|b k -> Hk]; [done|].
  simpl. constructor; [|by apply IH].
  by rewrite fsub_diag, fsq_zero.
Qed.

Lemma my_variogram_zero (x : matrix) (m n t : nat) :
  has_shape x m n → 1 ≤ m → 1 ≤ n → t < n → finite_entries x →
  Forall (λ r, Forall (λ a, a = mean r) r) x →
  my_variogram x m n t = Fin 0%Qc.
Proof.
  intros Hs Hm Hn Ht Hf Hconst. unfold my_variogram, of_Z.
  assert (mat_sum (mat_sq (mat_sub (map (drop t) x) (map (take (n - t)) x)))
          = Fin 0%Qc) as ->.
  { apply np_sum_zeros, Forall_concat.
    rewrite mat_sub_lagged. unfold mat_sq. rewrite map_map. apply Forall_fmap.
    eapply Forall_impl;
      [apply Forall_and; split; [exact Hconst|exact (rows_finite_shaped x m n Hs Hf)]|].
    intros r [Hr [Hl Hfin]]. simpl.
    apply (constant_lag_diffs (mean r)).
    - apply mean_finite; [done|lia].
    - by apply Forall_drop.
    - by apply Forall_take. }
  rewrite fdiv_fin.
  - apply (f_equal Fin). unfold Qcdiv. ring.
  - intros E. rewrite <- Z2Qc_inj_0 in E. apply Z2Qc_inj in E. nia.
Qed.

Lemma rho_at_zero_variance (v : nat → npfloat) (t : nat) :
  v t = Fin 0%Qc → rho_at v (Fin 0%Qc) t = NaN.
Proof.
  intros Hv. unfold rho_at. rewrite Hv. cbn [fmul].
  replace (2 * 0)%Qc with 0%Qc by ring. cbn [fdiv].
  assert ((0 ?= 0)%Qc = Eq) as -> by by apply Qceq_alt.
  done.
Qed.

(** X4, in exact arithmetic.  On a valid chain matrix with finite entries,
    when the variance estimate of a function is zero, its variogram is
    zero at every lag, every autocorrelation estimate is [0/0 = nan], the
    stop condition never fires, and the function raises [ValueError]
    after scanning all the lags. *)
Theorem ESS_zero_variance_raises (x : matrix) (m n : nat) :
  has_shape x m n → 2 ≤ m → 2 ≤ n → finite_entries x →
  (gelman_rubin x = Fin 0%Qc →
   (∀ t, 1 ≤ t < n → variogram x m n t = Fin 0%Qc)
   ∧ st_t (ESS_scan x) = n ∧ ESS x = ValueError)
  ∧ (my_gelman_rubin x = Fin 0%Qc →
     (∀ t, 1 ≤ t < n → my_variogram x m n t = Fin 0%Qc)
     ∧ st_t (my_ESS_scan x) = n ∧ my_ESS x = ValueError).
Proof.
  intros Hs Hm Hn Hf.
  assert (1 ≤ m) as Hm1 by lia. assert (1 ≤ n) as Hn1 by lia.
  assert (Hmy : my_gelman_rubin x = Fin 0%Qc →
                ∀ t, 1 ≤ t < n → my_variogram x m n t = Fin 0%Qc).
  { intros Hz t Ht. apply my_variogram_zero; try (done || lia).
    apply (rows_constant_of_zero x m n Hs Hn1 Hf).
    by apply (my_gelman_rubin_zero_parts x m n Hs Hm Hn Hf). }
  rewrite (ESS_unfold x m n Hs Hm1), (my_ESS_unfold x m n Hs Hm1).
  rewrite (ESS_scan_unfold x m n Hs Hm1), (my_ESS_scan_unfold x m n Hs Hm1).
  split; intros Hz.
  - assert (Hv : ∀ t, 1 ≤ t < n → variogram x m n t = Fin 0%Qc).
    { intros t Ht. rewrite <- variogram_agree by (done || lia).
      apply Hmy; [|done]. by rewrite gelman_rubin_agree. }
    split; [done|]. rewrite Hz.
    apply (scan_all_nan (variogram x m n) (Fin 0%Qc) m n Hn).
    intros t Ht. apply rho_at_zero_variance. by apply Hv.
  - split; [by apply Hmy|]. rewrite Hz.
    apply (scan_all_nan (my_variogram x m n) (Fin 0%Qc) m n Hn).
    intros t Ht. apply rho_at_zero_variance. by apply Hmy.
Qed.

Lemma ESS_zero_variance_raises_witness :
  has_shape x_const 2 2 ∧ finite_entries x_const
  ∧ gelman_rubin x_const = Fin 0%Qc
  ∧ st_t (ESS_scan x_const) = 2 ∧ ESS x_const = ValueError.
Proof.
  assert (Hs : has_shape x_const 2 2) by (split; [reflexivity|repeat constructor]).
  assert (Hf : finite_entries x_const) by (repeat constructor; eexists; reflexivity).
  assert (Hz : gelman_rubin x_const = Fin 0%Qc) by by_evaluation.
  split; [exact Hs|]. split; [exact Hf|]. split; [exact Hz|].
  exact (proj2 (proj1 (ESS_zero_variance_raises x_const 2 2 Hs
                         ltac:(lia) ltac:(lia) Hf) Hz)).
Defined.

(** ** Constant matrices *)

Lemma fdiv_zero_l (z : Z) : (0 < z)%Z → fdiv (Fin 0%Qc) (of_Z z) = Fin 0%Qc.
Proof.
  intros Hz. unfold of_Z. rewrite fdiv_fin.
  - apply (f_equal Fin). unfold Qcdiv. ring.
  - intros E. rewrite <- Z2Qc_inj_0 in E. apply Z2Qc_inj in E. lia.
Qed.

Lemma np_sum_const (l : list npfloat) (a : Qc) :
  Forall (λ b, b = Fin a) l →
  np_sum l = Fin (Qc_of_Z (Z.of_nat (length l)) * a)%Qc.
Proof.
  induction 1 as [|b l -> _ IH].
  - change (Fin 0%Qc = Fin (Qc_of_Z 0 * a)%Qc). apply (f_equal Fin).
    rewrite Z2Qc_inj_0. ring.
  - change (np_sum (Fin a :: l)) with (fadd (Fin a) (np_sum l)).
    rewrite IH. cbn [fadd length]. apply (f_equal Fin).
    rewrite Nat2Z.inj_succ, <- Z.add_1_r, Z2Qc_inj_add, Z2Qc_inj_1. ring.
Qed.

Lemma mean_const (l : list npfloat) (a : Qc) :
  Forall (λ b, b = Fin a) l → 1 ≤ length l → mean l = Fin a.
Proof.
  intros Hl Hne. unfold mean, of_nat, of_Z. rewrite (np_sum_const l a Hl).
  pose proof (Qc_of_nat_nonzero (length l) Hne) as Hk.
  rewrite fdiv_fin by done. apply (f_equal Fin). by field.
Qed.

Lemma constant_matrix_zero_variance (x : matrix) (m n : nat) (a : Qc) :
  has_shape x m n → 2 ≤ m → 2 ≤ n → constant_matrix a x →
  my_gelman_rubin x = Fin 0%Qc.
Proof.
  intros Hs Hm Hn Hc. pose proof Hs as [Hlen Hrows].
  assert (Hmeans : Forall (λ r, mean r = Fin a) x).
  { eapply Forall_impl; [apply Forall_and; split; [exact Hc|exact Hrows]|].
    intros r [Hr Hl]. simpl. apply mean_const; [done|lia]. }
  assert (Hgm : grand_mean x = Fin a).
  { apply mean_const; [by apply Forall_concat|].
    rewrite (concat_length_shape x m n Hs). nia. }
  assert (HB : between_chain x m = Fin 0%Qc).
  { unfold between_chain, row_means. rewrite map_map, Hgm.
    rewrite np_sum_zeros; [apply fdiv_zero_l; lia|].
    apply Forall_fmap. eapply Forall_impl; [exact Hmeans|].
    intros r Hr. simpl. rewrite Hr, fsub_diag by (by eexists). apply fsq_zero. }
  assert (HS : mat_sum (mat_sq (centre_rows x)) = Fin 0%Qc).
  { apply np_sum_zeros, Forall_concat. rewrite centre_rows_map.
    unfold mat_sq. rewrite map_map. apply Forall_fmap.
    eapply Forall_impl; [apply Forall_and; split; [exact Hc|exact Hmeans]|].
    intros r [Hr Hmu]. unfold compose. rewrite map_map. apply Forall_fmap.
    eapply Forall_impl; [exact Hr|].
    intros b ->. unfold compose. rewrite Hmu, fsub_diag by (by eexists). apply fsq_zero. }
  unfold my_gelman_rubin. rewrite (shape_has_shape x m n Hs) by lia.
  rewrite HB, HS, fdiv_zero_l by nia.
  unfold of_Z at 1. cbn [fmul]. replace (0 * Qc_of_Z (Z.of_nat n - 1))%Qc with 0%Qc by ring.
  unfold of_nat. rewrite fdiv_zero_l by lia.
  apply fadd_0_l.
Qed.

Lemma zero_variance_constant_matrix (x : matrix) (m n : nat) :
  has_shape x m n → 2 ≤ m → 2 ≤ n → finite_entries x →
  my_gelman_rubin x = Fin 0%Qc → ∃ a, constant_matrix a x.
Proof.
  intros Hs Hm Hn Hf Hz.
  assert (1 ≤ m) as Hm1 by lia. assert (1 ≤ n) as Hn1 by lia.
  destruct (my_gelman_rubin_zero_parts x m n Hs Hm Hn Hf Hz) as [HS HB].
  pose proof (rows_constant_of_zero x m n Hs Hn1 Hf HS) as Hrows.
  destruct (grand_mean_finite x m n Hs Hm1 Hn1 Hf) as [g Hg].
  exists g.
  assert (Hmeans : Forall (λ r, mean r = Fin g) x).
  { unfold between_chain, of_Z in HB.
    assert (Hnn : Forall nonneg (map (λ mu, fsq (fsub mu (grand_mean x))) (row_means x))).
    { apply Forall_fmap.
      eapply Forall_impl; [exact (row_means_finite x m n Hs Hn1 Hf)|].
      intros mu Hmu. simpl. apply fsq_nonneg, fsub_finite; [done|by eexists]. }
    apply fdiv_zero_inv in HB;
      [|by apply nonneg_finite, np_sum_nonneg|apply Qc_of_Z_pos; lia].
    pose proof (np_sum_nonneg_zero _ Hnn HB) as Hzs.
    unfold row_means in Hzs. rewrite map_map, Forall_fmap in Hzs.
    eapply Forall_impl;
      [apply Forall_and; split; [exact Hzs|exact (rows_finite_shaped x m n Hs Hf)]|].
    intros r [Hr [Hl Hfin]]. simpl in Hr. rewrite <- Hg.
    apply fsq_fsub_zero; [|by eexists|done].
    apply mean_finite; [done|lia]. }
  eapply Forall_impl; [apply Forall_and; split; [exact Hrows|exact Hmeans]|].
  intros r [Hr Hmu]. simpl. eapply Forall_impl; [exact Hr|].
  intros b ->. done.
Qed.

Lemma constant_matrix_finite (a : Qc) (x : matrix) :
  constant_matrix a x → finite_entries x.
Proof.
  intros Hc. eapply Forall_impl; [exact Hc|].
  intros r Hr. simpl. eapply Forall_impl; [exact Hr|].
  intros b ->. by eexists.
Qed.

(** X5, in exact arithmetic.  On a chain matrix of shape (m, n) with
    m >= 2, n >= 2 and finite entries, the variance estimate of each
    function is zero exactly when all the entries of the matrix are one
    and the same number. *)
Theorem gelman_rubin_zero_iff_constant (x : matrix) (m n : nat) :
  has_shape x m n → 2 ≤ m → 2 ≤ n → finite_entries x →
  (gelman_rubin x = Fin 0%Qc ↔ ∃ a, constant_matrix a x)
  ∧ (my_gelman_rubin x = Fin 0%Qc ↔ ∃ a, constant_matrix a x).
Proof.
  intros Hs Hm Hn Hf. rewrite <- gelman_rubin_agree.
  assert (my_gelman_rubin x = Fin 0%Qc ↔ ∃ a, constant_matrix a x) as H.
  { split.
    - by apply (zero_variance_constant_matrix x m n).
    - intros [a Ha]. by apply (constant_matrix_zero_variance x m n a). }
  by split.
Qed.

Lemma gelman_rubin_zero_iff_constant_witness :
  has_shape x_const 2 2 ∧ finite_entries x_const
  ∧ (gelman_rubin x_const = Fin 0%Qc ↔ ∃ a, constant_matrix a x_const).
Proof.
  assert (Hs : has_shape x_const 2 2) by (split; [reflexivity|repeat constructor]).
  assert (Hf : finite_entries x_const) by (repeat constructor; eexists; reflexivity).
  split; [exact Hs|]. split; [exact Hf|].
  exact (proj1 (gelman_rubin_zero_iff_constant x_const 2 2 Hs ltac:(lia) ltac:(lia) Hf)).
Defined.

(** ** Sign and size of the value returned *)

Lemma truncate_ge (q : Qc) (k : Z) :
  (Qc_of_Z k ≤ q)%Qc → (0 ≤ k)%Z → (k ≤ truncate q)%Z.
Proof.
  intros Hq Hk.
  assert (0 ≤ q)%Qc as Hq0.
  { eapply Qcle_trans; [|exact Hq].
    rewrite <- Z2Qc_inj_0. by apply (proj1 (Z2Qc_inj_le 0 _)). }
  rewrite truncate_nonneg by done.
  rewrite <- (Qfloor_Z k). by apply Qfloor_resp_le.
Qed.

Lemma truncate_sign (q : Qc) :
  ((0 ≤ q)%Qc → (0 ≤ truncate q)%Z) ∧ ((q ≤ 0)%Qc → (truncate q ≤ 0)%Z).
Proof.
  split; intros H.
  - rewrite truncate_nonneg by done. by apply (Qfloor_resp_le 0%Q).
  - rewrite truncate_nonpos by done. by apply (Qceiling_resp_le _ 0%Q).
Qed.

Lemma Qdiv_ge_self (a d : Q) : (0 <= a)%Q → (0 < d)%Q → (d <= 1)%Q → (a <= a / d)%Q.
Proof.
  intros Ha Hd Hd1. apply Qle_shift_div_l; [done|].
  assert (0 <= a * (1 - d))%Q by (apply Qmult_le_0_compat; lra). lra.
Qed.

Lemma Qcdiv_ge_self (a d : Qc) :
  (0 ≤ a)%Qc → (0 < d)%Qc → (d ≤ 1)%Qc → (a ≤ a / d)%Qc.
Proof.
  intros Ha Hd Hd1. unfold Qcle, Qclt, Qcdiv, Qcmult, Qcinv, Q2Qc, this in *.
  rewrite !Qred_correct. by apply Qdiv_ge_self.
Qed.

Lemma Qcdiv_sign (a d : Qc) :
  (0 ≤ a)%Qc →
  ((0 < d)%Qc → (0 ≤ a / d)%Qc) ∧ ((d < 0)%Qc → (a / d ≤ 0)%Qc).
Proof.
  intros Ha. split; intros Hd.
  - by apply Qc_div_nonneg.
  - qc_to_q.
    assert (a / d == - (a / - d))%Q as -> by (field; lra).
    assert (0 <= a / - d)%Q; [|lra].
    apply Qle_shift_div_l; lra.
Qed.

(** Sign and size of the value returned on a finite non-zero
    denominator. *)
Lemma ess_return_sign_and_size (m n : nat) (s : scan_state) (d : Qc) :
  1 ≤ m → 1 ≤ n → denominator s = Fin d → d ≠ 0%Qc →
  ∃ z : Z, ess_return n m s = Ok z
    ∧ ((0 < d)%Qc → (d ≤ 1)%Qc → (Z.of_nat (m * n) ≤ z)%Z)
    ∧ ((0 < d)%Qc → (0 ≤ z)%Z)
    ∧ ((d < 0)%Qc → (z ≤ 0)%Z).
Proof.
  intros Hm1 Hn1 Hd Hnz.
  destruct (ess_return_finite m n s d Hm1 Hn1 Hd) as [_ Hok].
  rewrite (Hok Hnz). eexists. split; [reflexivity|].
  assert (0 ≤ Qc_of_Z (Z.of_nat m * Z.of_nat n))%Qc as Hmn.
  { rewrite <- Z2Qc_inj_0. apply (proj1 (Z2Qc_inj_le 0 _)). nia. }
  destruct (Qcdiv_sign _ d Hmn) as [Hpos Hneg].
  split; [|split].
  - intros Hd0 Hd1. rewrite Nat2Z.inj_mul. apply truncate_ge; [|nia].
    by apply Qcdiv_ge_self.
  - intros Hd0. apply truncate_sign. by apply Hpos.
  - intros Hd0. apply truncate_sign. by apply Hneg.
Qed.

(** X6, in exact arithmetic.  A function whose final denominator is a
    finite non-zero number [d] returns an integer [z]; [z] is at least
    [m*n] when [0 < d <= 1] (a truncated autocorrelation sum in (-1/2, 0]
    never shrinks the sample count), it is not negative when [d > 0], and
    it is not positive when [d < 0]. *)
Theorem ESS_sign_and_size (x : matrix) (m n : nat) :
  has_shape x m n → 2 ≤ m → 2 ≤ n →
  (∀ d : Qc, denominator (ESS_scan x) = Fin d → d ≠ 0%Qc →
     ∃ z : Z, ESS x = Ok z
       ∧ ((0 < d)%Qc → (d ≤ 1)%Qc → (Z.of_nat (m * n) ≤ z)%Z)
       ∧ ((0 < d)%Qc → (0 ≤ z)%Z)
       ∧ ((d < 0)%Qc → (z ≤ 0)%Z))
  ∧ (∀ d : Qc, denominator (my_ESS_scan x) = Fin d → d ≠ 0%Qc →
       ∃ z : Z, my_ESS x = Ok z
         ∧ ((0 < d)%Qc → (d ≤ 1)%Qc → (Z.of_nat (m * n) ≤ z)%Z)
         ∧ ((0 < d)%Qc → (0 ≤ z)%Z)
         ∧ ((d < 0)%Qc → (z ≤ 0)%Z)).
Proof.
  intros Hs Hm Hn.
  assert (1 ≤ m) as Hm1 by lia. assert (1 ≤ n) as Hn1 by lia.
  rewrite (ESS_unfold x m n Hs Hm1), (my_ESS_unfold x m n Hs Hm1).
  split; intros d Hd Hnz; by apply ess_return_sign_and_size.
Qed.

Lemma ESS_sign_and_size_witness :
  has_shape x_over 4 2 ∧ denominator (ESS_scan x_over) = Fin (Q2Qc (1 # 8))
  ∧ ∃ z : Z, ESS x_over = Ok z
      ∧ ((0 < Q2Qc (1 # 8))%Qc → (Q2Qc (1 # 8) ≤ 1)%Qc → (Z.of_nat (4 * 2) ≤ z)%Z)
      ∧ ((0 < Q2Qc (1 # 8))%Qc → (0 ≤ z)%Z)
      ∧ ((Q2Qc (1 # 8) < 0)%Qc → (z ≤ 0)%Z).
Proof.
  assert (Hs : has_shape x_over 4 2) by (split; [reflexivity|repeat constructor]).
  assert (Hd : denominator (ESS_scan x_over) = Fin (Q2Qc (1 # 8))) by by_evaluation.
  split; [exact Hs|]. split; [exact Hd|].
  apply (proj1 (ESS_sign_and_size x_over 4 2 Hs ltac:(lia) ltac:(lia))
           (Q2Qc (1 # 8)) Hd).
  by_evaluation.
Defined.

(** ** A single draw per chain *)

Lemma truncate_of_Z (z : Z) : truncate (Qc_of_Z z) = z.
Proof. unfold truncate. simpl. apply Z.quot_1_r. Qed.

Lemma ess_return_no_lags (v : nat → npfloat) (pv : npfloat) (m : nat) :
  scan v pv 1 = scan_init 1
  ∧ ess_return 1 m (scan v pv 1) = Ok (Z.of_nat m).
Proof.
  split; [reflexivity|].
  change (ess_return 1 m (scan v pv 1))
    with (int (fdiv (of_Z (Z.of_nat m * Z.of_nat 1))
                    (Fin (1 + 2 * 0)%Qc))).
  unfold of_Z. rewrite fdiv_fin by done.
  assert ((Qc_of_Z (Z.of_nat m * Z.of_nat 1) / (1 + 2 * 0))%Qc
          = Qc_of_Z (Z.of_nat m)) as ->.
  { change (Z.of_nat 1) with 1%Z. rewrite Z.mul_1_r. by field. }
  cbn [int]. by rewrite truncate_of_Z.
Qed.

Lemma squared_deviations_zero (x : matrix) :
  Forall (λ r, is_finite (mean r) ∧ Forall (λ a, a = mean r) r) x →
  mat_sum (mat_sq (centre_rows x)) = Fin 0%Qc.
Proof.
  intros Hx. apply np_sum_zeros, Forall_concat. rewrite centre_rows_map.
  unfold mat_sq. rewrite map_map. apply Forall_fmap.
  eapply Forall_impl; [exact Hx|].
  intros r [Hmu Hr]. unfold compose. rewrite map_map. apply Forall_fmap.
  eapply Forall_impl; [exact Hr|].
  intros b ->. unfold compose. rewrite fsub_diag by done. apply fsq_zero.
Qed.

Lemma fmul_nan_l (a : npfloat) : fmul NaN a = NaN.
Proof. done. Qed.

Lemma fdiv_nan_l (a : npfloat) : fdiv NaN a = NaN.
Proof. done. Qed.

Lemma fdiv_nan_r (a : npfloat) : fdiv a NaN = NaN.
Proof. by destruct a. Qed.

Lemma zero_over_zero : fdiv (Fin 0%Qc) (of_Z 0) = NaN.
Proof. by vm_compute. Qed.

Lemma single_draw_variance_nan (x : matrix) (m : nat) :
  has_shape x m 1 → 1 ≤ m → finite_entries x → my_gelman_rubin x = NaN.
Proof.
  intros Hs Hm Hf. unfold my_gelman_rubin. rewrite (shape_has_shape x m 1 Hs Hm).
  rewrite squared_deviations_zero.
  - replace (Z.of_nat m * (Z.of_nat 1 - 1))%Z with 0%Z by lia.
    by rewrite zero_over_zero.
  - eapply Forall_impl; [exact (rows_finite_shaped x m 1 Hs Hf)|].
    intros r [Hl Hr]. simpl.
    destruct r as [|a [|b r]]; simpl in Hl; try lia.
    apply Forall_inv in Hr as [q ->].
    assert (mean [Fin q] = Fin q) as ->
      by (apply mean_const; [by repeat constructor|simpl; lia]).
    split; [by eexists|by repeat constructor].
Qed.

(** X7.  With a single draw per chain (n = 1) the loop body never runs:
    the scan is left in its initial state and both functions return [m],
    whatever the entries are, although for finite entries the variance
    estimate they computed first is [0/0 = nan]. *)
Theorem ESS_single_draw (x : matrix) (m : nat) :
  has_shape x m 1 → 1 ≤ m →
  ESS_scan x = scan_init 1 ∧ my_ESS_scan x = scan_init 1
  ∧ ESS x = Ok (Z.of_nat m) ∧ my_ESS x = Ok (Z.of_nat m)
  ∧ (finite_entries x → gelman_rubin x = NaN ∧ my_gelman_rubin x = NaN).
Proof.
  intros Hs Hm.
  rewrite (ESS_unfold x m 1 Hs Hm), (my_ESS_unfold x m 1 Hs Hm).
  rewrite (ESS_scan_unfold x m 1 Hs Hm), (my_ESS_scan_unfold x m 1 Hs Hm).
  destruct (ess_return_no_lags (variogram x m 1) (gelman_rubin x) m) as [H1 H2].
  destruct (ess_return_no_lags (my_variogram x m 1) (my_gelman_rubin x) m) as [H3 H4].
  repeat split; try done.
  - rewrite <- gelman_rubin_agree. by apply (single_draw_variance_nan x m).
  - by apply (single_draw_variance_nan x m).
Qed.

Lemma ESS_single_draw_witness :
  has_shape x_one_draw 3 1
  ∧ ESS x_one_draw = Ok (Z.of_nat 3) ∧ my_ESS x_one_draw = Ok (Z.of_nat 3).
Proof.
  assert (Hs : has_shape x_one_draw 3 1) by (split; [reflexivity|repeat constructor]).
  split; [exact Hs|].
  destruct (ESS_single_draw x_one_draw 3 Hs ltac:(lia)) as (_ & _ & H1 & H2 & _).
  split; [exact H1|exact H2].
Defined.

(** ** A single chain *)

Lemma rho_at_nan_variance (v : nat → npfloat) (t : nat) : rho_at v NaN t = NaN.
Proof. unfold rho_at. cbn [fmul]. by rewrite fdiv_nan_r. Qed.

Lemma single_chain_variance_nan (x : matrix) (n : nat) :
  has_shape x 1 n → 1 ≤ n → finite_entries x → my_gelman_rubin x = NaN.
Proof.
  intros Hs Hn Hf. unfold my_gelman_rubin.
  rewrite (shape_has_shape x 1 n Hs) by lia.
  assert (between_chain x 1 = NaN) as ->; [|by rewrite fadd_nan_r].
  destruct Hs as [Hl Hrows]. destruct x as [|r [|r' x]]; simpl in Hl; try lia.
  apply Forall_inv in Hrows. apply Forall_inv in Hf.
  unfold between_chain, row_means, grand_mean.
  change (concat [r]) with (r ++ []). rewrite app_nil_r.
  change (np_sum (map (λ mu, fsq (fsub mu (mean r))) (map mean [r])))
    with (fadd (fsq (fsub (mean r) (mean r))) (Fin 0%Qc)).
  rewrite fsub_diag by (apply mean_finite; [done|lia]).
  rewrite fsq_zero, fadd_0_l. apply zero_over_zero.
Qed.

(** X8.  With a single chain (m = 1) of n >= 2 finite draws, the
    between-chain term is [0/0], so the variance estimate is [nan], every
    autocorrelation estimate is [nan], and both functions raise
    [ValueError]. *)
Theorem ESS_single_chain_raises (x : matrix) (n : nat) :
  has_shape x 1 n → 2 ≤ n → finite_entries x →
  gelman_rubin x = NaN ∧ my_gelman_rubin x = NaN
  ∧ ESS x = ValueError ∧ my_ESS x = ValueError.
Proof.
  intros Hs Hn Hf.
  assert (my_gelman_rubin x = NaN) as Hnan
    by (apply (single_chain_variance_nan x n); (done || lia)).
  rewrite (ESS_agree x 1 n Hs) by lia.
  rewrite <- gelman_rubin_agree, Hnan.
  split; [done|]. split; [done|].
  rewrite (ESS_unfold x 1 n Hs), (ESS_scan_unfold x 1 n Hs) by lia.
  rewrite <- gelman_rubin_agree, Hnan.
  destruct (scan_all_nan (variogram x 1 n) NaN 1 n Hn) as [_ He].
  { intros t _. apply rho_at_nan_variance. }
  by rewrite He.
Qed.

Lemma ESS_single_chain_raises_witness :
  has_shape x_one_chain 1 3 ∧ finite_entries x_one_chain
  ∧ gelman_rubin x_one_chain = NaN ∧ my_gelman_rubin x_one_chain = NaN
  ∧ ESS x_one_chain = ValueError ∧ my_ESS x_one_chain = ValueError.
Proof.
  assert (Hs : has_shape x_one_chain 1 3) by (split; [reflexivity|repeat constructor]).
  assert (Hf : finite_entries x_one_chain) by (repeat constructor; eexists; reflexivity).
  split; [exact Hs|]. split; [exact Hf|].
  exact (ESS_single_chain_raises x_one_chain 3 Hs ltac:(lia) Hf).
Defined.

(** ** What the scan leaves in [rho] *)

Lemma scan_rho_untouched (v : nat → npfloat) (pv : npfloat) (n : nat) :
  2 ≤ n →
  length (st_rho (scan v pv n)) = n
  ∧ st_rho (scan v pv n) !! 0 = Some (Fin 1%Qc)
  ∧ 2 ≤ st_t (scan v pv n) ≤ n
  ∧ ∀ i, st_t (scan v pv n) ≤ i < n → st_rho (scan v pv n) !! i = Some (Fin 1%Qc).
Proof.
  intros Hn. destruct (scan_exits v pv n) as [Hinv Hc].
  pose proof Hinv as [Hpos Hle Hrho Hquiet Hflag].
  rewrite Hrho. split; [apply rho_prefix_length|].
  split; [by rewrite rho_prefix_lookup by lia|].
  split.
  - split; [|lia].
    destruct (st_negative_autocorr (scan v pv n)) eqn:E.
    + destruct (scan_inv_fired v pv n _ Hinv E) as (tf & -> & ? & _). lia.
    + destruct (scan_inv_exhausted v pv n _ Hinv Hc E) as [-> _]; lia.
  - intros i Hi. rewrite rho_prefix_lookup by lia.
    destruct (Nat.leb_spec 1 i), (Nat.ltb_spec i (st_t (scan v pv n)));
      simpl; try done; lia.
Qed.

(** X9.  On a chain matrix of shape (m, n) with m >= 2 and n >= 2, the
    scan of each function keeps [rho] at length [n], never writes
    [rho[0]], which stays 1, computes at least the lag 1 and stops with
    [2 <= t <= n], and leaves the initial 1 in every entry from [t] on. *)
Theorem scan_leaves_rest_of_rho (x : matrix) (m n : nat) :
  has_shape x m n → 2 ≤ m → 2 ≤ n →
  (length (st_rho (ESS_scan x)) = n
   ∧ st_rho (ESS_scan x) !! 0 = Some (Fin 1%Qc)
   ∧ 2 ≤ st_t (ESS_scan x) ≤ n
   ∧ ∀ i, st_t (ESS_scan x) ≤ i < n → st_rho (ESS_scan x) !! i = Some (Fin 1%Qc))
  ∧ (length (st_rho (my_ESS_scan x)) = n
     ∧ st_rho (my_ESS_scan x) !! 0 = Some (Fin 1%Qc)
     ∧ 2 ≤ st_t (my_ESS_scan x) ≤ n
     ∧ ∀ i, st_t (my_ESS_scan x) ≤ i < n →
         st_rho (my_ESS_scan x) !! i = Some (Fin 1%Qc)).
Proof.
  intros Hs Hm Hn.
  rewrite (ESS_scan_unfold x m n Hs), (my_ESS_scan_unfold x m n Hs) by lia.
  split; by apply scan_rho_untouched.
Qed.

Lemma scan_leaves_rest_of_rho_witness :
  has_shape x_stop 2 4
  ∧ length (st_rho (ESS_scan x_stop)) = 4
  ∧ st_rho (ESS_scan x_stop) !! 0 = Some (Fin 1%Qc)
  ∧ 2 ≤ st_t (ESS_scan x_stop) ≤ 4
  ∧ ∀ i, st_t (ESS_scan x_stop) ≤ i < 4 →
      st_rho (ESS_scan x_stop) !! i = Some (Fin 1%Qc).
Proof.
  assert (Hs : has_shape x_stop 2 4) by (split; [reflexivity|repeat constructor]).
  split; [exact Hs|].
  exact (proj1 (scan_leaves_rest_of_rho x_stop 2 4 Hs ltac:(lia) ltac:(lia))).
Defined.

(** ** Reordering the chains *)

Lemma np_sum_perm (l k : list npfloat) : l ≡ₚ k → np_sum l = np_sum k.
Proof.
  induction 1 as [|a l k _ IH|a b l|l k j _ IH1 _ IH2].
  - done.
  - change (fadd a (np_sum l) = fadd a (np_sum k)). by rewrite IH.
  - change (fadd b (fadd a (np_sum l)) = fadd a (fadd b (np_sum l))).
    by rewrite !fadd_assoc, (fadd_comm b a).
  - by rewrite IH1.
Qed.

Lemma sum_over_rows_perm (g : list npfloat → npfloat) (x y : matrix) :
  x ≡ₚ y → np_sum (map g x) = np_sum (map g y).
Proof. intros H. apply np_sum_perm. by apply fmap_Permutation. Qed.

Lemma has_shape_perm (x y : matrix) (m n : nat) :
  x ≡ₚ y → has_shape x m n → has_shape y m n.
Proof.
  intros H [Hl Hr]. split.
  - by rewrite <- H.
  - by rewrite <- H.
Qed.

Lemma grand_mean_perm (x y : matrix) (m n : nat) :
  x ≡ₚ y → has_shape x m n → grand_mean y = grand_mean x.
Proof.
  intros H Hs. unfold grand_mean, mean.
  rewrite (concat_length_shape x m n Hs).
  rewrite (concat_length_shape y m n (has_shape_perm x y m n H Hs)).
  f_equal. fold (mat_sum x) (mat_sum y). rewrite !mat_sum_rows.
  symmetry. by apply sum_over_rows_perm.
Qed.

Lemma my_gelman_rubin_perm (x y : matrix) (m n : nat) :
  x ≡ₚ y → has_shape x m n → 1 ≤ m → my_gelman_rubin y = my_gelman_rubin x.
Proof.
  intros H Hs Hm. unfold my_gelman_rubin.
  rewrite (shape_has_shape x m n Hs Hm).
  rewrite (shape_has_shape y m n (has_shape_perm x y m n H Hs) Hm).
  assert (between_chain y m = between_chain x m) as ->.
  { unfold between_chain, row_means. rewrite (grand_mean_perm x y m n H Hs).
    rewrite !map_map. f_equal. symmetry.
    by apply (sum_over_rows_perm (λ r, fsq (fsub (mean r) (grand_mean x)))). }
  assert (mat_sum (mat_sq (centre_rows y)) = mat_sum (mat_sq (centre_rows x))) as ->;
    [|done].
  rewrite !mat_sum_rows, !centre_rows_map. unfold mat_sq. rewrite !map_map.
  symmetry.
  by apply (sum_over_rows_perm
              (λ r, np_sum (map fsq (map (λ a, fsub a (mean r)) r)))).
Qed.

Lemma my_variogram_perm (x y : matrix) (m n t : nat) :
  x ≡ₚ y → my_variogram y m n t = my_variogram x m n t.
Proof.
  intros H. unfold my_variogram. f_equal.
  rewrite !mat_sum_rows, !mat_sub_lagged. unfold mat_sq. rewrite !map_map.
  symmetry.
  by apply (sum_over_rows_perm
              (λ r, np_sum (map fsq (zip_with fsub (drop t r) (take (n - t) r))))).
Qed.

(** X10.  The order of the chains does not matter: on a chain matrix of
    shape (m, n) with m >= 2 and n >= 2, listing the same chains in
    another order changes neither the variance estimate, nor the
    variograms, nor the scan, nor the value returned, in either function
    (in exact arithmetic). *)
Theorem ESS_chain_order_invariant (x y : matrix) (m n : nat) :
  has_shape x m n → 2 ≤ m → 2 ≤ n → x ≡ₚ y →
  gelman_rubin y = gelman_rubin x
  ∧ my_gelman_rubin y = my_gelman_rubin x
  ∧ (∀ t, t ≤ n → variogram y m n t = variogram x m n t)
  ∧ (∀ t, my_variogram y m n t = my_variogram x m n t)
  ∧ ESS_scan y = ESS_scan x ∧ my_ESS_scan y = my_ESS_scan x
  ∧ ESS y = ESS x ∧ my_ESS y = my_ESS x.
Proof.
  intros Hs Hm Hn H. assert (1 ≤ m) as Hm1 by lia.
  pose proof (has_shape_perm x y m n H Hs) as Hs'.
  assert (my_gelman_rubin y = my_gelman_rubin x) as Hg
    by by apply (my_gelman_rubin_perm x y m n).
  assert (my_ESS_scan y = my_ESS_scan x) as Hsc.
  { rewrite (my_ESS_scan_unfold y m n Hs' Hm1), (my_ESS_scan_unfold x m n Hs Hm1).
    rewrite Hg. apply scan_ext. intros t _. by apply my_variogram_perm. }
  split; [by rewrite <- !gelman_rubin_agree|]. split; [done|].
  split.
  { intros t Ht. rewrite <- !variogram_agree by done. by apply my_variogram_perm. }
  split; [intros t; by apply my_variogram_perm|].
  split; [by rewrite <- (ESS_scan_agree y m n), <- (ESS_scan_agree x m n)|].
  split; [done|].
  assert (my_ESS y = my_ESS x) as Hmy.
  { rewrite (my_ESS_unfold y m n), (my_ESS_unfold x m n) by done. by rewrite Hsc. }
  split; [|done].
  by rewrite <- (ESS_agree y m n), <- (ESS_agree x m n).
Qed.

Lemma ESS_chain_order_invariant_witness :
  has_shape x_big 2 2
  ∧ ESS (of_rationals [[1 # 2; 3 # 2]; [0; 1]]%Q) = ESS x_big.
Proof.
  assert (Hs : has_shape x_big 2 2) by (split; [reflexivity|repeat constructor]).
  split; [exact Hs|].
  pose proof (ESS_chain_order_invariant x_big
                (of_rationals [[1 # 2; 3 # 2]; [0; 1]]%Q) 2 2 Hs
                ltac:(lia) ltac:(lia) ltac:(apply Permutation_swap)) as H.
  exact (proj1 (proj2 (proj2 (proj2 (proj2 (proj2 (proj2 H))))))).
Defined.

(** ** Multiplying every entry by a constant *)

(** The scan depends on the variogram and the variance estimate only
    through the estimates [rho_at] at the lags [1 .. n-1]. *)
Lemma scan_loop_ext_rho (v1 v2 : nat → npfloat) (pv1 pv2 : npfloat) (n fuel : nat)
    (s : scan_state) :
  (∀ t, 1 ≤ t < n → rho_at v1 pv1 t = rho_at v2 pv2 t) → 1 ≤ st_t s →
  scan_loop v1 pv1 n fuel s = scan_loop v2 pv2 n fuel s.
Proof.
  intros Hv. revert s. induction fuel as [|fuel IH]; intros s Hs; simpl; [done|].
  destruct (scan_cond n s) eqn:Hc; [|done].
  apply scan_cond_true in Hc as [_ Hlt].
  assert (scan_body v1 pv1 s = scan_body v2 pv2 s) as ->.
  { unfold scan_body. by rewrite Hv by lia. }
  apply IH. simpl. lia.
Qed.

Lemma scan_ext_rho (v1 v2 : nat → npfloat) (pv1 pv2 : npfloat) (n : nat) :
  (∀ t, 1 ≤ t < n → rho_at v1 pv1 t = rho_at v2 pv2 t) →
  scan v1 pv1 n = scan v2 pv2 n.
Proof. intros Hv. unfold scan. apply scan_loop_ext_rho; [done|]. simpl. lia. Qed.

Section scale.
Variable k : Qc.

Local Abbreviation times_k := (fmul (Fin k)).
Local Abbreviation times_kk := (fmul (Fin (k * k)%Qc)).

Lemma has_shape_scale (x : matrix) (m n : nat) :
  has_shape x m n → has_shape (mat_scale (Fin k) x) m n.
Proof.
  intros [Hm Hn]. unfold mat_scale. split; [by rewrite length_map|].
  apply Forall_fmap. eapply Forall_impl; [exact Hn|].
  intros r Hr. simpl. by rewrite length_map.
Qed.

Lemma finite_entries_scale (x : matrix) :
  finite_entries x → finite_entries (mat_scale (Fin k) x).
Proof.
  intros Hf. unfold mat_scale. apply Forall_fmap.
  eapply Forall_impl; [exact Hf|].
  intros r Hr. unfold compose. apply Forall_fmap.
  eapply Forall_impl; [exact Hr|]. intros a [p ->]. by eexists.
Qed.

Lemma np_sum_scale (c : Qc) (l : list npfloat) :
  Forall is_finite l → np_sum (map (fmul (Fin c)) l) = fmul (Fin c) (np_sum l).
Proof.
  induction 1 as [|a l [p ->] Hl IH].
  - change (Fin 0%Qc = Fin (c * 0)%Qc). apply (f_equal Fin). ring.
  - destruct (np_sum_finite l Hl) as [q Hq].
    change (np_sum (map (fmul (Fin c)) (Fin p :: l)))
      with (fadd (Fin (c * p)%Qc) (np_sum (map (fmul (Fin c)) l))).
    change (np_sum (Fin p :: l)) with (fadd (Fin p) (np_sum l)).
    rewrite IH, Hq. cbn [fadd fmul]. apply (f_equal Fin). ring.
Qed.

Lemma mat_sum_scale (c : Qc) (a : matrix) :
  Forall (Forall is_finite) a →
  mat_sum (map (map (fmul (Fin c))) a) = fmul (Fin c) (mat_sum a).
Proof.
  intros Ha. unfold mat_sum. rewrite <- concat_map.
  apply np_sum_scale. by apply Forall_concat.
Qed.

Lemma mean_scale (l : list npfloat) :
  Forall is_finite l → 1 ≤ length l → mean (map times_k l) = times_k (mean l).
Proof.
  intros Hl Hne. destruct (np_sum_finite l Hl) as [q Hq].
  pose proof (Qc_of_nat_nonzero (length l) Hne) as Hk.
  unfold mean, of_nat, of_Z. rewrite length_map, np_sum_scale, Hq by done.
  cbn [fmul]. rewrite !fdiv_fin by done. cbn [fmul]. apply (f_equal Fin).
  by field.
Qed.

Lemma scaled_sq_dev (a b : npfloat) :
  is_finite a → is_finite b →
  fsq (fsub (times_k a) (times_k b)) = times_kk (fsq (fsub a b)).
Proof.
  intros [p ->] [q ->]. unfold fsq, fsub. cbn [fmul fneg fadd].
  apply (f_equal Fin). ring.
Qed.

Lemma fdiv_scale (c : Qc) (a : npfloat) (z : Z) :
  is_finite a → (0 < z)%Z →
  fdiv (fmul (Fin c) a) (of_Z z) = fmul (Fin c) (fdiv a (of_Z z)).
Proof.
  intros [p ->] Hz. unfold of_Z.
  assert (Qc_of_Z z ≠ 0%Qc) as Hnz.
  { intros E. rewrite <- Z2Qc_inj_0 in E. apply Z2Qc_inj in E. lia. }
  cbn [fmul]. rewrite !fdiv_fin by done. cbn [fmul]. apply (f_equal Fin).
  by field.
Qed.

Lemma fmul_scale (c : Qc) (a : npfloat) (z : Z) :
  is_finite a → fmul (fmul (Fin c) a) (of_Z z) = fmul (Fin c) (fmul a (of_Z z)).
Proof. intros [p ->]. unfold of_Z. cbn [fmul]. apply (f_equal Fin). ring. Qed.

Lemma fadd_scale (c : Qc) (a b : npfloat) :
  is_finite a → is_finite b →
  fadd (fmul (Fin c) a) (fmul (Fin c) b) = fmul (Fin c) (fadd a b).
Proof. intros [p ->] [q ->]. cbn [fmul fadd]. apply (f_equal Fin). ring. Qed.

Lemma scaled_lag_diffs (l l' : list npfloat) :
  Forall is_finite l → Forall is_finite l' →
  map fsq (zip_with fsub (map times_k l) (map times_k l'))
  = map times_kk (map fsq (zip_with fsub l l')).
Proof.
  intros Hl. revert l'. induction Hl as [|a l Ha Hl IH]; intros l' Hl'; [done|].
  destruct Hl' as [|b l' Hb Hl']; [done|].
  cbn [map zip_with]. f_equal; [by apply scaled_sq_dev|by apply IH].
Qed.
End scale.

Lemma Qc_sq_pos (k : Qc) : k ≠ 0%Qc → (0 < k * k)%Qc.
Proof.
  intros Hk. destruct (Qclt_le_dec 0 (k * k)) as [|Hle]; [done|].
  exfalso. apply Hk, Qc_sq_zero. apply Qcle_antisym; [done|apply Qc_sq_nonneg].
Qed.

Lemma Qc_compare_scale (c q : Qc) : (0 < c)%Qc → (c * q ?= 0)%Qc = (q ?= 0)%Qc.
Proof.
  intros Hc. destruct (q ?= 0)%Qc eqn:E.
  - apply Qceq_alt in E as ->. apply (proj1 (Qceq_alt _ _)). ring.
  - apply Qclt_alt in E. apply (proj1 (Qclt_alt _ _)). qc_to_q.
    assert (0 < c * - q)%Q by (apply Qmult_lt_0_compat; lra). lra.
  - apply Qcgt_alt in E. apply (proj1 (Qcgt_alt _ _)). qc_to_q.
    assert (0 < c * q)%Q by (apply Qmult_lt_0_compat; lra). lra.
Qed.

(** Scaling the variogram and the variance estimate by the same positive
    factor leaves every autocorrelation estimate as it was. *)
Lemma rho_at_scaled (c vq p : Qc) (v v' : nat → npfloat) (t : nat) :
  (0 < c)%Qc → v t = Fin vq → v' t = Fin (c * vq)%Qc →
  rho_at v' (Fin (c * p)%Qc) t = rho_at v (Fin p) t.
Proof.
  intros Hc Hv Hv'. unfold rho_at. rewrite Hv, Hv'. cbn [fmul]. f_equal.
  destruct (Qc_eq_dec p 0%Qc) as [->|Hp].
  - replace (2 * (c * 0))%Qc with 0%Qc by ring.
    replace (2 * 0)%Qc with 0%Qc by ring. cbn [fdiv].
    assert ((0 ?= 0)%Qc = Eq) as -> by by apply Qceq_alt.
    by rewrite Qc_compare_scale.
  - assert (c ≠ 0%Qc) as Hc0 by (intros ->; by apply Qclt_not_eq in Hc).
    assert ((2 * p)%Qc ≠ 0%Qc) as H2p.
    { intros E. destruct (Qcmult_integral _ _ E) as [E2|]; [|done].
      by apply (Qclt_not_eq 0%Qc 2%Qc). }
    assert ((2 * (c * p))%Qc ≠ 0%Qc) as H2cp.
    { intros E. destruct (Qcmult_integral _ _ E) as [E2|E2];
        [by apply (Qclt_not_eq 0%Qc 2%Qc)|].
      by destruct (Qcmult_integral _ _ E2). }
    rewrite !fdiv_fin by done. apply (f_equal Fin). by field.
Qed.

Lemma row_means_scale (k : Qc) (x : matrix) (m n : nat) :
  has_shape x m n → 1 ≤ n → finite_entries x →
  row_means (mat_scale (Fin k) x) = map (fmul (Fin k)) (row_means x).
Proof.
  intros Hs Hn Hf. unfold row_means, mat_scale. rewrite !map_map.
  apply Forall_fmap_ext.
  eapply Forall_impl; [exact (rows_finite_shaped x m n Hs Hf)|].
  intros r [Hl Hr]. simpl. apply mean_scale; [done|lia].
Qed.

Lemma grand_mean_scale (k : Qc) (x : matrix) (m n : nat) :
  has_shape x m n → 1 ≤ m → 1 ≤ n → finite_entries x →
  grand_mean (mat_scale (Fin k) x) = fmul (Fin k) (grand_mean x).
Proof.
  intros Hs Hm Hn Hf. unfold grand_mean, mat_scale. rewrite <- concat_map.
  apply mean_scale; [by apply concat_finite|].
  rewrite (concat_length_shape x m n Hs). nia.
Qed.

Lemma between_chain_scale (k : Qc) (x : matrix) (m n : nat) :
  has_shape x m n → 2 ≤ m → 1 ≤ n → finite_entries x →
  between_chain (mat_scale (Fin k) x) m
  = fmul (Fin (k * k)%Qc) (between_chain x m).
Proof.
  intros Hs Hm Hn Hf. unfold between_chain.
  rewrite (row_means_scale k x m n), (grand_mean_scale k x m n) by (done || lia).
  pose proof (row_means_finite x m n Hs Hn Hf) as Hmeans.
  assert (is_finite (grand_mean x)) as Hgm
    by (apply (grand_mean_finite x m n); (done || lia)).
  rewrite map_map.
  assert (map (λ mu, fsq (fsub (fmul (Fin k) mu) (fmul (Fin k) (grand_mean x))))
              (row_means x)
          = map (fmul (Fin (k * k)%Qc))
              (map (λ mu, fsq (fsub mu (grand_mean x))) (row_means x))) as ->.
  { rewrite map_map. apply Forall_fmap_ext.
    eapply Forall_impl; [exact Hmeans|].
    intros mu Hmu. simpl. by apply scaled_sq_dev. }
  rewrite np_sum_scale.
  - apply fdiv_scale; [|lia]. apply np_sum_finite, Forall_fmap.
    eapply Forall_impl; [exact Hmeans|].
    intros mu Hmu. unfold compose. apply nonneg_finite, fsq_nonneg. by apply fsub_finite.
  - apply Forall_fmap. eapply Forall_impl; [exact Hmeans|].
    intros mu Hmu. unfold compose. apply nonneg_finite, fsq_nonneg. by apply fsub_finite.
Qed.

Lemma squared_deviations_scale (k : Qc) (x : matrix) (m n : nat) :
  has_shape x m n → 1 ≤ n → finite_entries x →
  mat_sq (centre_rows (mat_scale (Fin k) x))
  = map (map (fmul (Fin (k * k)%Qc))) (mat_sq (centre_rows x)).
Proof.
  intros Hs Hn Hf. rewrite !centre_rows_map. unfold mat_sq, mat_scale.
  rewrite !map_map. apply Forall_fmap_ext.
  eapply Forall_impl; [exact (rows_finite_shaped x m n Hs Hf)|].
  intros r [Hl Hr]. cbn beta. rewrite !map_map, mean_scale by (done || lia).
  apply Forall_fmap_ext. eapply Forall_impl; [exact Hr|].
  intros a Ha. cbn beta. apply scaled_sq_dev; [done|].
  apply mean_finite; [done|lia].
Qed.

Lemma my_gelman_rubin_scale (k : Qc) (x : matrix) (m n : nat) :
  has_shape x m n → 2 ≤ m → 2 ≤ n → finite_entries x →
  my_gelman_rubin (mat_scale (Fin k) x)
  = fmul (Fin (k * k)%Qc) (my_gelman_rubin x).
Proof.
  intros Hs Hm Hn Hf. unfold my_gelman_rubin.
  rewrite (shape_has_shape _ m n (has_shape_scale k x m n Hs)) by lia.
  rewrite (shape_has_shape x m n Hs) by lia.
  rewrite (between_chain_scale k x m n), (squared_deviations_scale k x m n)
    by (done || lia).
  pose proof (squared_deviations_nonneg x m n Hs ltac:(lia) Hf) as Hsq.
  pose proof (within_chain_nonneg x m n Hs ltac:(lia) Hn Hf) as HW.
  pose proof (between_chain_nonneg x m n Hs Hm ltac:(lia) Hf) as HB.
  rewrite mat_sum_scale.
  2:{ eapply Forall_impl; [exact Hsq|]. intros r Hr. simpl.
      eapply Forall_impl; [exact Hr|]. intros a. apply nonneg_finite. }
  rewrite fdiv_scale.
  2:{ apply nonneg_finite, np_sum_nonneg. by apply Forall_concat. }
  2:{ nia. }
  rewrite fmul_scale by by apply nonneg_finite.
  unfold of_nat. rewrite fdiv_scale.
  2:{ apply nonneg_finite, fmul_nonneg; [done|apply of_Z_nonneg; lia]. }
  2:{ lia. }
  apply fadd_scale; [|by apply nonneg_finite].
  apply nonneg_finite, fdiv_nonneg_Z; [|lia].
  apply fmul_nonneg; [done|apply of_Z_nonneg; lia].
Qed.

Lemma my_variogram_scale (k : Qc) (x : matrix) (m n t : nat) :
  1 ≤ m → t < n → finite_entries x →
  my_variogram (mat_scale (Fin k) x) m n t
  = fmul (Fin (k * k)%Qc) (my_variogram x m n t).
Proof.
  intros Hm Ht Hf. unfold my_variogram.
  assert (mat_sq (mat_sub (map (drop t) (mat_scale (Fin k) x))
                          (map (take (n - t)) (mat_scale (Fin k) x)))
          = map (map (fmul (Fin (k * k)%Qc)))
              (mat_sq (mat_sub (map (drop t) x) (map (take (n - t)) x)))) as ->.
  { rewrite !mat_sub_lagged. unfold mat_sq, mat_scale. rewrite !map_map.
    apply Forall_fmap_ext. eapply Forall_impl; [exact Hf|].
    intros r Hr. cbn beta. rewrite <- fmap_drop, <- fmap_take.
    apply scaled_lag_diffs; [by apply Forall_drop|by apply Forall_take]. }
  assert (Forall (Forall is_finite)
            (mat_sq (mat_sub (map (drop t) x) (map (take (n - t)) x)))) as Hfin.
  { rewrite mat_sub_lagged. unfold mat_sq. rewrite map_map. apply Forall_fmap.
    eapply Forall_impl; [exact Hf|].
    intros r Hr. unfold compose. apply Forall_fmap.
    eapply Forall_impl; [exact (lag_diffs_finite r t (n - t) Hr)|].
    intros a Ha. unfold compose. by apply nonneg_finite, fsq_nonneg. }
  rewrite mat_sum_scale by done.
  apply fdiv_scale; [|nia].
  apply np_sum_finite. by apply Forall_concat.
Qed.

Lemma my_ESS_scan_scale (k : Qc) (x : matrix) (m n : nat) :
  has_shape x m n → 2 ≤ m → 2 ≤ n → finite_entries x → k ≠ 0%Qc →
  my_ESS_scan (mat_scale (Fin k) x) = my_ESS_scan x.
Proof.
  intros Hs Hm Hn Hf Hk.
  rewrite (my_ESS_scan_unfold _ m n (has_shape_scale k x m n Hs)) by lia.
  rewrite (my_ESS_scan_unfold x m n Hs) by lia.
  apply scan_ext_rho. intros t Ht.
  rewrite (my_gelman_rubin_scale k x m n) by done.
  destruct (my_gelman_rubin_nonneg x m n Hs Hm Hn Hf) as (p & -> & _).
  destruct (my_variogram_nonneg x m n t) as (vq & Hv & _); try (done || lia).
  cbn [fmul]. apply (rho_at_scaled (k * k) vq p); [by apply Qc_sq_pos|done|].
  rewrite my_variogram_scale by (done || lia). by rewrite Hv.
Qed.

(** X11.  The unit of measurement does not matter: on a valid chain
    matrix with finite entries, multiplying every entry by a finite
    non-zero constant [k] multiplies the variance estimate and every
    variogram by [k*k], and so changes neither the scan nor the value
    returned, in either function (in exact arithmetic). *)
Theorem ESS_scale_invariant (x : matrix) (m n : nat) (k : Qc) :
  has_shape x m n → 2 ≤ m → 2 ≤ n → finite_entries x → k ≠ 0%Qc →
  let x' := mat_scale (Fin k) x in
  my_gelman_rubin x' = fmul (Fin (k * k)%Qc) (my_gelman_rubin x)
  ∧ gelman_rubin x' = fmul (Fin (k * k)%Qc) (gelman_rubin x)
  ∧ (∀ t, 1 ≤ t < n →
       my_variogram x' m n t = fmul (Fin (k * k)%Qc) (my_variogram x m n t))
  ∧ (∀ t, 1 ≤ t < n →
       variogram x' m n t = fmul (Fin (k * k)%Qc) (variogram x m n t))
  ∧ my_ESS_scan x' = my_ESS_scan x
  ∧ ESS_scan x' = ESS_scan x
  ∧ my_ESS x' = my_ESS x
  ∧ ESS x' = ESS x.
Proof.
  intros Hs Hm Hn Hf Hk x'.
  assert (1 ≤ m) as Hm1 by lia.
  pose proof (has_shape_scale k x m n Hs) as Hs'. fold x' in Hs'.
  assert (Hg : my_gelman_rubin x' = fmul (Fin (k * k)%Qc) (my_gelman_rubin x))
    by by apply (my_gelman_rubin_scale k x m n).
  assert (Hsc : my_ESS_scan x' = my_ESS_scan x)
    by by apply (my_ESS_scan_scale k x m n).
  split; [done|]. split; [by rewrite <- !gelman_rubin_agree|].
  split; [intros t Ht; apply my_variogram_scale; (done || lia)|].
  split.
  { intros t Ht. rewrite <- !variogram_agree by (done || lia).
    apply my_variogram_scale; (done || lia). }
  split; [done|].
  split; [by rewrite <- (ESS_scan_agree x' m n), <- (ESS_scan_agree x m n)|].
  assert (my_ESS x' = my_ESS x) as Hmy.
  { rewrite (my_ESS_unfold x' m n), (my_ESS_unfold x m n) by done. by rewrite Hsc. }
  split; [done|].
  by rewrite <- (ESS_agree x' m n), <- (ESS_agree x m n).
Qed.

Lemma ESS_scale_invariant_witness :
  has_shape x_alt 2 5 ∧ finite_entries x_alt
  ∧ ESS (mat_scale (Fin (Q2Qc (-3 # 2))) x_alt) = ESS x_alt.
Proof.
  assert (Hs : has_shape x_alt 2 5) by (split; [reflexivity|repeat constructor]).
  assert (Hf : finite_entries x_alt) by (repeat constructor; eexists; reflexivity).
  split; [exact Hs|]. split; [exact Hf|].
  pose proof (ESS_scale_invariant x_alt 2 5 (Q2Qc (-3 # 2)) Hs
                ltac:(lia) ltac:(lia) Hf ltac:(by_evaluation)) as H.
  exact (proj2 (proj2 (proj2 (proj2 (proj2 (proj2 (proj2 H))))))).
Defined.

(** ** Reading the chains backwards *)

Lemma fsq_fsub_sym (a b : npfloat) : fsq (fsub a b) = fsq (fsub b a).
Proof.
  destruct a, b; unfold fsq, fsub; cbn [fneg fadd fmul]; try reflexivity.
  apply (f_equal Fin). ring.
Qed.

Lemma sq_diffs_sym (l k : list npfloat) :
  map fsq (zip_with fsub l k) = map fsq (zip_with fsub k l).
Proof.
  revert k. induction l as [|a l IH]; intros [|b k]; try done.
  cbn [zip_with map]. by rewrite fsq_fsub_sym, IH.
Qed.

Lemma zip_with_reverse (l k : list npfloat) :
  length l = length k →
  zip_with fsub (reverse l) (reverse k) = reverse (zip_with fsub l k).
Proof.
  revert k. induction l as [|a l IH]; intros [|b k] Hl; simpl in Hl; try done.
  cbn [zip_with]. rewrite !reverse_cons, zip_with_app by (rewrite !length_reverse; lia).
  rewrite IH by lia. done.
Qed.

Lemma np_sum_reverse (l : list npfloat) : np_sum (reverse l) = np_sum l.
Proof. apply np_sum_perm, reverse_Permutation. Qed.

Lemma mean_reverse (l : list npfloat) : mean (reverse l) = mean l.
Proof. unfold mean. by rewrite np_sum_reverse, length_reverse. Qed.

Lemma has_shape_reverse (x : matrix) (m n : nat) :
  has_shape x m n → has_shape (mat_reverse x) m n.
Proof.
  intros [Hm Hn]. unfold mat_reverse. split; [by rewrite length_map|].
  apply Forall_fmap. eapply Forall_impl; [exact Hn|].
  intros r Hr. unfold compose. by rewrite length_reverse.
Qed.

Lemma lag_sq_diffs_reverse (r : list npfloat) (n t : nat) :
  length r = n → t ≤ n →
  np_sum (map fsq (zip_with fsub (drop t (reverse r)) (take (n - t) (reverse r))))
  = np_sum (map fsq (zip_with fsub (drop t r) (take (n - t) r))).
Proof.
  intros Hl Ht. rewrite drop_reverse, take_reverse, Hl.
  replace (n - (n - t)) with t by lia.
  rewrite zip_with_reverse by (rewrite length_take, length_drop; lia).
  rewrite fmap_reverse, np_sum_reverse. by rewrite sq_diffs_sym.
Qed.

Lemma my_variogram_reverse (x : matrix) (m n t : nat) :
  has_shape x m n → t ≤ n →
  my_variogram (mat_reverse x) m n t = my_variogram x m n t.
Proof.
  intros [Hm Hn] Ht. unfold my_variogram. f_equal.
  rewrite !mat_sum_rows, !mat_sub_lagged. unfold mat_sq, mat_reverse.
  rewrite !map_map. f_equal. apply Forall_fmap_ext.
  eapply Forall_impl; [exact Hn|].
  intros r Hr. cbn beta. by apply lag_sq_diffs_reverse.
Qed.

Lemma grand_mean_reverse (x : matrix) (m n : nat) :
  has_shape x m n → grand_mean (mat_reverse x) = grand_mean x.
Proof.
  intros Hs. unfold grand_mean, mean.
  rewrite (concat_length_shape x m n Hs).
  rewrite (concat_length_shape _ m n (has_shape_reverse x m n Hs)).
  f_equal. fold (mat_sum x) (mat_sum (mat_reverse x)). rewrite !mat_sum_rows.
  unfold mat_reverse. rewrite map_map. f_equal.
  apply map_ext. intros r. apply np_sum_reverse.
Qed.

Lemma my_gelman_rubin_reverse (x : matrix) (m n : nat) :
  has_shape x m n → 1 ≤ m →
  my_gelman_rubin (mat_reverse x) = my_gelman_rubin x.
Proof.
  intros Hs Hm. unfold my_gelman_rubin.
  rewrite (shape_has_shape _ m n (has_shape_reverse x m n Hs) Hm).
  rewrite (shape_has_shape x m n Hs Hm).
  assert (between_chain (mat_reverse x) m = between_chain x m) as ->.
  { unfold between_chain, row_means. rewrite (grand_mean_reverse x m n Hs).
    unfold mat_reverse. rewrite !map_map. do 2 f_equal.
    apply map_ext. intros r. by rewrite mean_reverse. }
  assert (mat_sum (mat_sq (centre_rows (mat_reverse x)))
          = mat_sum (mat_sq (centre_rows x))) as ->; [|done].
  rewrite !mat_sum_rows, !centre_rows_map. unfold mat_sq, mat_reverse.
  rewrite !map_map. f_equal. apply map_ext. intros r.
  rewrite mean_reverse, !fmap_reverse. apply np_sum_reverse.
Qed.

(** X12.  The direction of time does not matter: on a chain matrix of
    shape (m, n) with m >= 2 and n >= 2, reading every chain backwards
    changes neither the variance estimate, nor the variograms, nor the
    scan, nor the value returned, in either function (in exact
    arithmetic). *)
Theorem ESS_time_reversal_invariant (x : matrix) (m n : nat) :
  has_shape x m n → 2 ≤ m → 2 ≤ n →
  let x' := mat_reverse x in
  gelman_rubin x' = gelman_rubin x
  ∧ my_gelman_rubin x' = my_gelman_rubin x
  ∧ (∀ t, t ≤ n → variogram x' m n t = variogram x m n t)
  ∧ (∀ t, t ≤ n → my_variogram x' m n t = my_variogram x m n t)
  ∧ ESS_scan x' = ESS_scan x ∧ my_ESS_scan x' = my_ESS_scan x
  ∧ ESS x' = ESS x ∧ my_ESS x' = my_ESS x.
Proof.
  intros Hs Hm Hn x'. assert (1 ≤ m) as Hm1 by lia.
  pose proof (has_shape_reverse x m n Hs) as Hs'. fold x' in Hs'.
  assert (my_gelman_rubin x' = my_gelman_rubin x) as Hg
    by by apply (my_gelman_rubin_reverse x m n).
  assert (my_ESS_scan x' = my_ESS_scan x) as Hsc.
  { rewrite (my_ESS_scan_unfold x' m n Hs' Hm1), (my_ESS_scan_unfold x m n Hs Hm1).
    rewrite Hg. apply scan_ext. intros t Ht. apply my_variogram_reverse; [done|lia]. }
  split; [by rewrite <- !gelman_rubin_agree|]. split; [done|].
  split.
  { intros t Ht. rewrite <- !variogram_agree by done.
    by apply my_variogram_reverse. }
  split; [intros t Ht; by apply my_variogram_reverse|].
  split; [by rewrite <- (ESS_scan_agree x' m n), <- (ESS_scan_agree x m n)|].
  split; [done|].
  assert (my_ESS x' = my_ESS x) as Hmy.
  { rewrite (my_ESS_unfold x' m n), (my_ESS_unfold x m n) by done. by rewrite Hsc. }
  split; [|done].
  by rewrite <- (ESS_agree x' m n), <- (ESS_agree x m n).
Qed.

Lemma ESS_time_reversal_invariant_witness :
  has_shape x_run 2 4 ∧ ESS (mat_reverse x_run) = ESS x_run.
Proof.
  assert (Hs : has_shape x_run 2 4) by (split; [reflexivity|repeat constructor]).
  split; [exact Hs|].
  pose proof (ESS_time_reversal_invariant x_run 2 4 Hs ltac:(lia) ltac:(lia)) as H.
  exact (proj1 (proj2 (proj2 (proj2 (proj2 (proj2 (proj2 H))))))).
Defined.

(** ** How large the denominator can be *)

Lemma np_sum_le_length (l : list npfloat) :
  Forall (λ a, ∃ r : Qc, a = Fin r ∧ (r ≤ 1)%Qc) l →
  ∃ s : Qc, np_sum l = Fin s ∧ (s ≤ Qc_of_Z (Z.of_nat (length l)))%Qc.
Proof.
  induction 1 as [|a l (r & -> & Hr) _ (s & Hs & Hle)].
  - exists 0%Qc. split; [done|]. cbn [length]. change (Z.of_nat 0) with 0%Z. rewrite Z2Qc_inj_0.
    apply Qcle_refl.
  - change (np_sum (Fin r :: l)) with (fadd (Fin r) (np_sum l)).
    rewrite Hs. cbn [fadd length]. eexists. split; [reflexivity|].
    rewrite Nat2Z.inj_succ, <- Z.add_1_l, Z2Qc_inj_add, Z2Qc_inj_1.
    by apply Qcplus_le_compat.
Qed.

Lemma Qdiv_le_antimono (a b d : Q) :
  (0 <= a)%Q → (0 < d)%Q → (d <= b)%Q → (a / b <= a / d)%Q.
Proof.
  intros Ha Hd Hb. apply Qle_shift_div_r; [lra|].
  assert (a / d * d == a)%Q as E by (field; lra).
  assert (0 <= a / d)%Q as Hq by (apply Qle_shift_div_l; lra).
  assert (0 <= a / d * (b - d))%Q by (apply Qmult_le_0_compat; lra).
  lra.
Qed.

Lemma truncate_quotient_ge (a b : Z) (d : Qc) :
  (0 ≤ a)%Z → (0 < d)%Qc → (d ≤ Qc_of_Z b)%Qc →
  (a / b ≤ truncate (Qc_of_Z a / d)%Qc)%Z.
Proof.
  intros Ha Hd Hb.
  assert (0 ≤ Qc_of_Z a)%Qc as Ha'
    by (rewrite <- Z2Qc_inj_0; by apply (proj1 (Z2Qc_inj_le 0 _))).
  rewrite truncate_nonneg by (by apply Qc_div_nonneg).
  rewrite Zdiv_Qdiv. apply Qfloor_resp_le.
  unfold Qcle, Qclt, Qcdiv, Qcmult, Qcinv, Q2Qc in *. cbn [this] in *.
  rewrite !Qred_correct. by apply Qdiv_le_antimono.
Qed.

(** The final denominator of a scan whose autocorrelation estimates are
    finite numbers at most 1. *)
Lemma scan_denominator_bound (v : nat → npfloat) (p : Qc) (m n : nat) :
  1 ≤ m → 1 ≤ n → (∀ t, 1 ≤ t < n → nonneg (v t)) → (0 < p)%Qc →
  ∃ d : Qc,
    denominator (scan v (Fin p) n) = Fin d
    ∧ (d ≤ Qc_of_Z (2 * Z.of_nat (st_t (scan v (Fin p) n)) - 1))%Qc
    ∧ (d ≤ Qc_of_Z (2 * Z.of_nat n - 1))%Qc
    ∧ ((0 < d)%Qc →
       ∃ z : Z, ess_return n m (scan v (Fin p) n) = Ok z
         ∧ (Z.of_nat (m * n) / (2 * Z.of_nat n - 1) ≤ z)%Z).
Proof.
  intros Hm1 Hn1 Hv Hp0.
  set (s := scan v (Fin p) n).
  destruct (scan_exits v (Fin p) n) as [Hinv _]. fold s in Hinv.
  pose proof (scan_t_le v (Fin p) n Hn1) as Ht. fold s in Ht.
  destruct (np_sum_le_length
              (map (rho_at v (Fin p)) (seq 1 (st_t s - 1))))
    as (sig & Hsig & Hle).
  { apply Forall_fmap, Forall_forall. intros t Hin%elem_of_seq. unfold compose.
    destruct (Hv t) as (vq & Hvq & Hv0); [lia|].
    by apply (rho_at_finite v t vq p). }
  rewrite length_map, length_seq in Hle.
  assert (denominator s = Fin (1 + 2 * sig)%Qc) as Hd.
  { unfold denominator. rewrite (rho_sum_inv v (Fin p) n s Hinv).
    unfold big_sum. by rewrite Hsig. }
  assert (1 + 2 * sig ≤ Qc_of_Z (2 * Z.of_nat (st_t s) - 1))%Qc as Hb1.
  { replace (2 * Z.of_nat (st_t s) - 1)%Z
      with (1 + 2 * Z.of_nat (st_t s - 1))%Z by lia.
    rewrite Z2Qc_inj_add, Z2Qc_inj_mul, Z2Qc_inj_1, Z2Qc_inj_2.
    clear -Hle. qc_to_q. lra. }
  assert (1 + 2 * sig ≤ Qc_of_Z (2 * Z.of_nat n - 1))%Qc as Hb2.
  { eapply Qcle_trans; [exact Hb1|]. apply (proj1 (Z2Qc_inj_le _ _)). lia. }
  exists (1 + 2 * sig)%Qc. split; [done|]. split; [done|]. split; [done|].
  intros Hpos.
  destruct (ess_return_finite m n s _ Hm1 Hn1 Hd) as [_ Hok].
  rewrite Hok by (intros E; rewrite E in Hpos; by apply Qclt_not_eq in Hpos).
  eexists. split; [reflexivity|].
  rewrite Nat2Z.inj_mul. apply truncate_quotient_ge; [nia|done|done].
Qed.

(** X13, in exact arithmetic.  On a valid chain matrix with finite
    entries, the final denominator [d] of a function whose variance
    estimate is positive is at most [2*t_stop - 1], hence at most
    [2*n - 1]; so whenever its [d] is positive the integer the function
    returns is at least the integer quotient of [m*n] by [2*n - 1]. *)
Theorem ESS_denominator_bound (x : matrix) (m n : nat) :
  has_shape x m n → 2 ≤ m → 2 ≤ n → finite_entries x →
  (∀ p : Qc, gelman_rubin x = Fin p → (0 < p)%Qc →
     ∃ d : Qc,
       denominator (ESS_scan x) = Fin d
       ∧ (d ≤ Qc_of_Z (2 * Z.of_nat (st_t (ESS_scan x)) - 1))%Qc
       ∧ (d ≤ Qc_of_Z (2 * Z.of_nat n - 1))%Qc
       ∧ ((0 < d)%Qc →
          ∃ z : Z, ESS x = Ok z
            ∧ (Z.of_nat (m * n) / (2 * Z.of_nat n - 1) ≤ z)%Z))
  ∧ (∀ p : Qc, my_gelman_rubin x = Fin p → (0 < p)%Qc →
       ∃ d : Qc,
         denominator (my_ESS_scan x) = Fin d
         ∧ (d ≤ Qc_of_Z (2 * Z.of_nat (st_t (my_ESS_scan x)) - 1))%Qc
         ∧ (d ≤ Qc_of_Z (2 * Z.of_nat n - 1))%Qc
         ∧ ((0 < d)%Qc →
            ∃ z : Z, my_ESS x = Ok z
              ∧ (Z.of_nat (m * n) / (2 * Z.of_nat n - 1) ≤ z)%Z)).
Proof.
  intros Hs Hm Hn Hf.
  assert (1 ≤ m) as Hm1 by lia. assert (1 ≤ n) as Hn1 by lia.
  rewrite (ESS_unfold x m n Hs Hm1), (my_ESS_unfold x m n Hs Hm1).
  rewrite (ESS_scan_unfold x m n Hs Hm1), (my_ESS_scan_unfold x m n Hs Hm1).
  split; intros p Hp Hp0; rewrite Hp.
  - apply scan_denominator_bound; try done.
    intros t Ht. apply variogram_nonneg; (done || lia).
  - apply scan_denominator_bound; try done.
    intros t Ht. apply my_variogram_nonneg; (done || lia).
Qed.

Lemma ESS_denominator_bound_witness :
  has_shape x_under 2 4 ∧ finite_entries x_under
  ∧ gelman_rubin x_under = Fin (Q2Qc (1 # 2))
  ∧ ∃ d : Qc, denominator (ESS_scan x_under) = Fin d
      ∧ (d ≤ Qc_of_Z (2 * Z.of_nat 4 - 1))%Qc.
Proof.
  assert (Hs : has_shape x_under 2 4) by (split; [reflexivity|repeat constructor]).
  assert (Hf : finite_entries x_under) by (repeat constructor; eexists; reflexivity).
  assert (Hp : gelman_rubin x_under = Fin (Q2Qc (1 # 2))) by by_evaluation.
  split; [exact Hs|]. split; [exact Hf|]. split; [exact Hp|].
  destruct (proj1 (ESS_denominator_bound x_under 2 4 Hs ltac:(lia) ltac:(lia) Hf)
              (Q2Qc (1 # 2)) Hp ltac:(by_evaluation))
    as (d & Hd & _ & Hb & _).
  exists d. split; [exact Hd|exact Hb].
Defined.

(** ** Entries that are not finite *)

Lemma nonfinite_absorbs (a b : npfloat) :
  ¬ is_finite a → (fadd a b = a ∨ fadd a b = NaN) ∧ (fadd b a = a ∨ fadd b a = NaN).
Proof.
  intros Ha. destruct a; [destruct Ha; by eexists|..]; destruct b; simpl; auto.
Qed.

Lemma np_sum_nonfinite (l : list npfloat) (a : npfloat) :
  a ∈ l → ¬ is_finite a → np_sum l = a ∨ np_sum l = NaN.
Proof.
  intros Hin Ha. induction Hin as [a l|a b l _ IH].
  - change (np_sum (a :: l)) with (fadd a (np_sum l)).
    apply (nonfinite_absorbs a (np_sum l) Ha).
  - change (np_sum (b :: l)) with (fadd b (np_sum l)).
    destruct (IH Ha) as [->| ->].
    + apply (nonfinite_absorbs a b Ha).
    + right. apply fadd_nan_r.
Qed.

Lemma np_sum_nan (l : list npfloat) : NaN ∈ l → np_sum l = NaN.
Proof.
  intros Hin. destruct (np_sum_nonfinite l NaN Hin); [|done..].
  intros [q Hq]. discriminate.
Qed.

Lemma deviation_nonfinite (r : list npfloat) (a : npfloat) :
  a ∈ r → ¬ is_finite a → fsub a (mean r) = NaN.
Proof.
  intros Hin Ha. unfold mean.
  assert (1 ≤ length r) as Hl by (destruct Hin; simpl; lia).
  pose proof (Qc_of_nat_pos (length r) Hl) as Hpos.
  apply Qclt_alt in Hpos. apply Qcgt_alt in Hpos.
  destruct (np_sum_nonfinite r a Hin Ha) as [->| ->].
  - destruct a; [destruct Ha; by eexists|..]; unfold of_nat, of_Z; cbn [fdiv];
      rewrite ?Hpos; done.
  - rewrite fdiv_nan_l. unfold fsub. apply fadd_nan_r.
Qed.

Lemma elem_of_concat (a : npfloat) (r : list npfloat) (ls : matrix) :
  a ∈ r → r ∈ ls → a ∈ concat ls.
Proof.
  intros Ha Hr. induction Hr as [r ls|r r' ls _ IH]; simpl;
    apply elem_of_app; auto.
Qed.

Lemma variance_nonfinite (x : matrix) (m n : nat) :
  has_shape x m n → 1 ≤ m → has_nonfinite_entry x → my_gelman_rubin x = NaN.
Proof.
  intros Hs Hm Hex. unfold my_gelman_rubin. rewrite (shape_has_shape x m n Hs Hm).
  assert (mat_sum (mat_sq (centre_rows x)) = NaN) as ->; [|done].
  apply np_sum_nan. rewrite centre_rows_map. unfold mat_sq. rewrite map_map.
  apply Exists_exists in Hex as (r & Hr & Hex).
  apply Exists_exists in Hex as (a & Ha & Hnf).
  apply (elem_of_concat _ (map fsq (map (λ b, fsub b (mean r)) r))).
  - rewrite map_map. apply list_elem_of_fmap. exists a. split; [|done].
    by rewrite (deviation_nonfinite r a Ha Hnf).
  - apply list_elem_of_fmap. by exists r.
Qed.

(** X14.  When some entry of a chain matrix of shape (m, n) with m >= 2
    and n >= 2 is an infinity or [nan], the sum of squared deviations is
    [nan], so is the variance estimate, and both functions raise
    [ValueError]. *)
Theorem ESS_nonfinite_entry_raises (x : matrix) (m n : nat) :
  has_shape x m n → 2 ≤ m → 2 ≤ n → has_nonfinite_entry x →
  gelman_rubin x = NaN ∧ my_gelman_rubin x = NaN
  ∧ ESS x = ValueError ∧ my_ESS x = ValueError.
Proof.
  intros Hs Hm Hn Hex. assert (1 ≤ m) as Hm1 by lia.
  assert (my_gelman_rubin x = NaN) as Hnan
    by by apply (variance_nonfinite x m n).
  rewrite (ESS_agree x m n Hs Hm1).
  rewrite <- gelman_rubin_agree, Hnan.
  split; [done|]. split; [done|].
  rewrite (ESS_unfold x m n Hs Hm1), (ESS_scan_unfold x m n Hs Hm1).
  rewrite <- gelman_rubin_agree, Hnan.
  destruct (scan_all_nan (variogram x m n) NaN m n Hn) as [_ He].
  { intros t _. apply rho_at_nan_variance. }
  by rewrite He.
Qed.

Lemma ESS_nonfinite_entry_raises_witness :
  has_shape x_inf 2 3 ∧ has_nonfinite_entry x_inf
  ∧ gelman_rubin x_inf = NaN ∧ my_gelman_rubin x_inf = NaN
  ∧ ESS x_inf = ValueError ∧ my_ESS x_inf = ValueError.
Proof.
  assert (Hs : has_shape x_inf 2 3) by (split; [reflexivity|repeat constructor]).
  assert (Hex : has_nonfinite_entry x_inf).
  { apply Exists_cons_hd, Exists_cons_tl, Exists_cons_hd.
    intros [q Hq]. discriminate Hq. }
  split; [exact Hs|]. split; [exact Hex|].
  exact (ESS_nonfinite_entry_raises x_inf 2 3 Hs ltac:(lia) ltac:(lia) Hex).
Defined.

(** ** Rounding *)

(** X15.  Rounding decides the value returned.  On two alternating chains
    of five draws the exact quotient is 12, and in binary64 the variance
    estimate and the denominator round so that the quotient falls just
    below 12: both functions return 11.  On the chains [2, -2, 4] and
    [2, 1, 0] the exact denominator is zero, which would make [int] raise
    [OverflowError]; in binary64 the denominator is a small negative
    number and both functions return -9007199254740992. *)
Theorem rounding_decides_the_value :
  (F64.valid (F64.of_ints alt_ints) 2 5
   ∧ ESS (of_ints alt_ints) = Ok 12%Z ∧ my_ESS (of_ints alt_ints) = Ok 12%Z
   ∧ F64.ESS (F64.of_ints alt_ints) = Ok 11%Z
   ∧ F64.my_ESS (F64.of_ints alt_ints) = Ok 11%Z)
  ∧ (F64.valid (F64.of_ints cancel_ints) 2 3
     ∧ denominator (ESS_scan (of_ints cancel_ints)) = Fin 0%Qc
     ∧ ESS (of_ints cancel_ints) = OverflowError
     ∧ my_ESS (of_ints cancel_ints) = OverflowError
     ∧ F64.ESS (F64.of_ints cancel_ints) = Ok (-9007199254740992)%Z
     ∧ F64.my_ESS (F64.of_ints cancel_ints) = Ok (-9007199254740992)%Z).
Proof.
  split.
  - split; [valid_by_evaluation|].
    do 2 (split; [by_evaluation|]). split; by_float_evaluation.
  - split; [valid_by_evaluation|].
    do 3 (split; [by_evaluation|]). split; by_float_evaluation.
Qed.
